(** * testnow: the test-call engine and the folder walker

    A shallow embedding of [ts/00_utilities.ts], [ts/01_test-call.ts],
    [ts/01-pathname.ts], [ts/02_path-items.ts] and [ts/03-walk-folder.ts],
    and of what the module that runs the tests of a folder does with one
    file, followed by the properties of the engine, of the pathnames and
    of the walker.

    Conventions.
    - A JavaScript array is a [list] in array order: [push] appends at the
      end and [pop] removes the last element.
    - A JavaScript [number] that holds a count or a duration is a [Z].
    - A string is the sequence of its code units, each of them below
      256; strings are compared by their code units.
    - The own properties of an object are listed in one fixed order of
      the keys, whatever the order in which they were set.
    - A function that can throw returns a [Completion].
    - Promises, timers and [process.nextTick] are sequential in the engine
      (one call at a time), so a run is a recursive function; what a tested
      function does is given by its [CallOutcome]. *)

From stdpp Require Import base list strings sorting pretty.

Local Open Scope string_scope.

(** ** JavaScript values *)

Module Js.

(** A class (or any function used as a constructor), with its [extends]
    chain.  Two classes are the same function iff they are equal here. *)
Inductive JsClass : Type :=
| BaseClass (name : string)
| DerivedClass (name : string) (superClass : JsClass).

Definition ObjectClass : JsClass := BaseClass "Object".
Definition FunctionClass : JsClass := DerivedClass "Function" ObjectClass.
Definition ErrorClass : JsClass := DerivedClass "Error" ObjectClass.
Definition BooleanClass : JsClass := DerivedClass "Boolean" ObjectClass.
Definition NumberClass : JsClass := DerivedClass "Number" ObjectClass.
Definition BigIntClass : JsClass := DerivedClass "BigInt" ObjectClass.
Definition StringClass : JsClass := DerivedClass "String" ObjectClass.
Definition SymbolClass : JsClass := DerivedClass "Symbol" ObjectClass.

Definition className (c : JsClass) : string :=
  match c with
  | BaseClass n | DerivedClass n _ => n
  end.

(** The values the engine inspects.  An object has a prototype (the class
    it was made from, [None] for [Object.create(null)]) and own
    properties; a class has no prototype property besides [constructor]. *)
#[local] Set Warnings "-register-all".
Inductive JsValue : Type :=
| JsUndefined
| JsNull
| JsBoolean (b : bool)
| JsNumber (n : Z)
| JsBigInt (n : Z)
| JsString (s : string)
| JsSymbol (description : string)
| JsFunction (c : JsClass)
| JsObject (proto : option JsClass) (props : list (string * JsValue)).

Inductive JsType : Type :=
| TBoolean | TNumber | TBigint | TString | TSymbol | TFunction
| TUndefined | TObject.

Definition typeof (v : JsValue) : JsType :=
  match v with
  | JsUndefined => TUndefined
  | JsNull => TObject
  | JsBoolean _ => TBoolean
  | JsNumber _ => TNumber
  | JsBigInt _ => TBigint
  | JsString _ => TString
  | JsSymbol _ => TSymbol
  | JsFunction _ => TFunction
  | JsObject _ _ => TObject
  end.

Fixpoint JsClass_eqb (c d : JsClass) : bool :=
  match c, d with
  | BaseClass n1, BaseClass n2 => String.eqb n1 n2
  | DerivedClass n1 c', DerivedClass n2 d' => String.eqb n1 n2 && JsClass_eqb c' d'
  | _, _ => false
  end.

(** [c] itself, then the classes it extends. *)
Fixpoint prototypeChain (c : JsClass) : list JsClass :=
  match c with
  | BaseClass _ => [c]
  | DerivedClass _ parent => c :: prototypeChain parent
  end.

Definition inChain (target : JsClass) (c : JsClass) : bool :=
  existsb (JsClass_eqb target) (prototypeChain c).

(** [v instanceof c] for a class [c]. *)
Definition instanceofClass (v : JsValue) (c : JsClass) : bool :=
  match v with
  | JsObject (Some p) _ => inChain c p
  | JsFunction _ => inChain c FunctionClass
  | _ => false
  end.

(** A value is truthy unless it is one of the falsy ones. *)
Definition truthy (v : JsValue) : bool :=
  match v with
  | JsUndefined | JsNull | JsBoolean false => false
  | JsNumber n | JsBigInt n => negb (n =? 0)%Z
  | JsString s => negb (String.eqb s "")
  | _ => true
  end.

Fixpoint lookupOwn (key : string) (props : list (string * JsValue)) : option JsValue :=
  match props with
  | [] => None
  | (k, v) :: rest => if String.eqb k key then Some v else lookupOwn key rest
  end.

(** [key in v] for an object [v]. *)
Definition hasProperty (key : string) (v : JsValue) : bool :=
  match v with
  | JsObject proto props =>
      match lookupOwn key props with
      | Some _ => true
      | None => String.eqb key "constructor" && bool_decide (is_Some proto)
      end
  | _ => false
  end.

(** [v.key], for a value that is neither [null] nor [undefined]. *)
Definition getProperty (key : string) (v : JsValue) : JsValue :=
  match v with
  | JsObject proto props =>
      match lookupOwn key props with
      | Some x => x
      | None =>
          match proto with
          | Some c => if String.eqb key "constructor" then JsFunction c else JsUndefined
          | None => JsUndefined
          end
      end
  | JsBoolean _ => if String.eqb key "constructor" then JsFunction BooleanClass else JsUndefined
  | JsNumber _ => if String.eqb key "constructor" then JsFunction NumberClass else JsUndefined
  | JsBigInt _ => if String.eqb key "constructor" then JsFunction BigIntClass else JsUndefined
  | JsString _ => if String.eqb key "constructor" then JsFunction StringClass else JsUndefined
  | JsSymbol _ => if String.eqb key "constructor" then JsFunction SymbolClass else JsUndefined
  | JsFunction _ => if String.eqb key "constructor" then JsFunction FunctionClass else JsUndefined
  | JsUndefined | JsNull => JsUndefined
  end.

(** [util.isDeepStrictEqual]: same kind of value, same prototype, same
    own properties with deeply equal values; functions by identity. *)
Fixpoint isDeepStrictEqual (a b : JsValue) : bool :=
  match a, b with
  | JsUndefined, JsUndefined => true
  | JsNull, JsNull => true
  | JsBoolean x, JsBoolean y => Bool.eqb x y
  | JsNumber x, JsNumber y => (x =? y)%Z
  | JsBigInt x, JsBigInt y => (x =? y)%Z
  | JsString x, JsString y => String.eqb x y
  | JsSymbol x, JsSymbol y => String.eqb x y
  | JsFunction c, JsFunction d => JsClass_eqb c d
  | JsObject p1 ps1, JsObject p2 ps2 =>
      match p1, p2 with
      | None, None => true
      | Some c, Some d => JsClass_eqb c d
      | _, _ => false
      end &&
      (fix props_eq (l1 l2 : list (string * JsValue)) : bool :=
         match l1, l2 with
         | [], [] => true
         | (k1, v1) :: r1, (k2, v2) :: r2 =>
             String.eqb k1 k2 && isDeepStrictEqual v1 v2 && props_eq r1 r2
         | _, _ => false
         end) ps1 ps2
  | _, _ => false
  end.

(** [new Error(message)] *)
Definition newError (message : string) : JsValue :=
  JsObject (Some ErrorClass) [("message", JsString message)].

(** [new C(message)] for a class [C] that extends [Error]. *)
Definition newErrorOf (c : JsClass) (message : string) : JsValue :=
  JsObject (Some c) [("message", JsString message)].

(** [String(v)]: exact on primitives, the default text on objects. *)
Definition toString (v : JsValue) : string :=
  match v with
  | JsUndefined => "undefined"
  | JsNull => "null"
  | JsBoolean b => if b then "true" else "false"
  | JsNumber n => pretty n
  | JsBigInt n => pretty n
  | JsString s => s
  | JsSymbol d => "Symbol(" ++ d ++ ")"
  | JsFunction c => "function " ++ className c
  | JsObject _ _ => "[object Object]"
  end.

(** What a function can throw or return. *)
Inductive Completion (A : Type) : Type :=
| Normal (a : A)
| Throw (reason : JsValue).
Global Arguments Normal {A} a.
Global Arguments Throw {A} reason.

End Js.
Import Js.

(** ** ts/00_utilities.ts *)

Module Utilities.

Definition TypeErrorClass : JsClass := DerivedClass "TypeError" ErrorClass.

(** [v instanceof c]: a [TypeError] when [c] is not callable. *)
Definition instanceof (v c : JsValue) : Completion bool :=
  match c with
  | JsFunction cls => Normal (instanceofClass v cls)
  | _ => Throw (newErrorOf TypeErrorClass "Right-hand side of 'instanceof' is not callable")
  end.

Definition instanceofError (v : JsValue) : bool := instanceofClass v ErrorClass.

(** [util.inspect] of an error and [JSON.stringify(value, null, 3)].
    Both only produce text for messages; the text is exact on primitives
    and abbreviated on objects.  [JSON.stringify] throws when it reaches
    a bigint, and it returns [undefined] ([None]) for [undefined], a
    function and a symbol. *)
Definition inspect (v : JsValue) : string :=
  match v with
  | JsObject (Some c) props =>
      match lookupOwn "message" props with
      | Some m => className c ++ ": " ++ toString m
      | None => className c
      end
  | _ => toString v
  end.

Definition doubleQuote : Ascii.ascii := Ascii.ascii_of_nat 34.
Definition lineFeed : Ascii.ascii := Ascii.ascii_of_nat 10.

Definition backspace : Ascii.ascii := Ascii.ascii_of_nat 8.
Definition horizontalTab : Ascii.ascii := Ascii.ascii_of_nat 9.
Definition formFeed : Ascii.ascii := Ascii.ascii_of_nat 12.
Definition carriageReturn : Ascii.ascii := Ascii.ascii_of_nat 13.
Definition reverseSolidus : Ascii.ascii := Ascii.ascii_of_nat 92.

Definition hexDigit (n : nat) : Ascii.ascii :=
  if (n <? 10)%nat then Ascii.ascii_of_nat (48 + n) else Ascii.ascii_of_nat (87 + n).

(** The escape of one code unit in a JSON string. *)
Definition escapeJSON (c : Ascii.ascii) : string :=
  if Ascii.eqb c doubleQuote then String reverseSolidus (String doubleQuote "")
  else if Ascii.eqb c reverseSolidus then String reverseSolidus (String reverseSolidus "")
  else if Ascii.eqb c backspace then String reverseSolidus "b"
  else if Ascii.eqb c formFeed then String reverseSolidus "f"
  else if Ascii.eqb c lineFeed then String reverseSolidus "n"
  else if Ascii.eqb c carriageReturn then String reverseSolidus "r"
  else if Ascii.eqb c horizontalTab then String reverseSolidus "t"
  else if (Ascii.nat_of_ascii c <? 32)%nat then
    String reverseSolidus "u00"
    ++ String (hexDigit (Ascii.nat_of_ascii c / 16))
         (String (hexDigit (Ascii.nat_of_ascii c mod 16)) "")
  else String c "".

Fixpoint quoteJSON (s : string) : string :=
  match s with
  | EmptyString => EmptyString
  | String c s' => escapeJSON c ++ quoteJSON s'
  end.

(** No bigint is reached from the value. *)
Fixpoint serializable (v : JsValue) : bool :=
  match v with
  | JsBigInt _ => false
  | JsObject _ props =>
      (fix all (l : list (string * JsValue)) : bool :=
         match l with
         | [] => true
         | (_, x) :: rest => serializable x && all rest
         end) props
  | _ => true
  end.

Definition JSON_stringify (v : JsValue) : Completion (option string) :=
  if negb (serializable v) then
    Throw (newErrorOf TypeErrorClass "Do not know how to serialize a BigInt")
  else
    match v with
    | JsString s => Normal (Some (String doubleQuote (quoteJSON s) ++ String doubleQuote ""))
    | JsObject _ _ => Normal (Some "{...}")
    | JsUndefined | JsFunction _ | JsSymbol _ => Normal None
    | _ => Normal (Some (toString v))
    end.

(** [undefined] ([None]) where [JSON.stringify] returns it. *)
Definition pprint (value : JsValue) : Completion (option string) :=
  if instanceofError value then Normal (Some (inspect value))
  else JSON_stringify value.

(** [new Error(message)] for a message that can be [undefined]: the
    error then has the empty message. *)
Definition newErrorWith (message : option string) : JsValue :=
  newError (default "" message).

(** The text of a value in a template literal, from what [pprint]
    returned. *)
Definition templateText (text : option string) : string :=
  default "undefined" text.

Definition errorFromReason (reason : JsValue) : Completion JsValue :=
  if instanceofError reason then Normal reason
  else
    match reason with
    | JsObject _ _ =>
        if hasProperty "name" reason && hasProperty "message" reason then
          if hasProperty "stack" reason then
            Normal (newError ("[fromReason] " ++ toString (getProperty "name" reason) ++ ": "
                              ++ toString (getProperty "message" reason)
                              ++ String lineFeed (toString (getProperty "stack" reason))))
          else
            Normal (newError ("[fromReason] " ++ toString (getProperty "name" reason) ++ ": "
                              ++ toString (getProperty "message" reason)))
        else
          match pprint reason with
          | Normal text => Normal (newErrorWith text)
          | Throw e => Throw e
          end
    | _ =>
        match pprint reason with
        | Normal text => Normal (newErrorWith text)
        | Throw e => Throw e
        end
    end.

(** [a && b] on strings tests that both are non-empty; [a < b] compares
    code units lexicographically. *)
Definition compareStringsAscending (a b : string) : Z :=
  if negb (String.eqb a "") && negb (String.eqb b "") then
    if String.ltb a b then (-1)%Z else if String.eqb a b then 0%Z else 1%Z
  else if negb (String.eqb a "") then (-1)%Z
  else if negb (String.eqb b "") then 1%Z
  else 0%Z.

End Utilities.
Import Utilities.

(** ** ts/01_test-call.ts *)

Module TestCallEngine.

(** What calling the tested function with the captured values does: it
    returns a plain value or throws at once, or it returns a promise that
    settles [delay] milliseconds later, or one that never settles. *)
Inductive CallOutcome : Type :=
| Returns (v : JsValue)
| Throws (reason : JsValue)
| FulfilsAfter (delay : Z) (v : JsValue)
| RejectsAfter (delay : Z) (reason : JsValue)
| NeverSettles.

Record TestCall : Type := {
  fn : list JsValue -> CallOutcome;
  values : list JsValue;
  timeoutDuration : option Z
}.

(** [error] is [JsNull] for a normal result, [value] is [JsNull] for an
    error result. *)
Record TestCallResult : Type := {
  error : JsValue;
  value : JsValue
}.

Definition makeNormalTestCallResult (v : JsValue) : TestCallResult :=
  {| error := JsNull; value := v |}.

Definition makeErrorTestCallResult (e : JsValue) : TestCallResult :=
  {| error := e; value := JsNull |}.

Inductive TestExecutionStatus : Type :=
| INITIALIZED_EXECUTION
| CANCELLED_EXECUTION
| SKIPPED_EXECUTION
| DONE_EXECUTION.

Global Instance TestExecutionStatus_eq_dec : EqDecision TestExecutionStatus.
Proof. solve_decision. Defined.

(** The record the engine mutates field by field.  [executionError] is
    the field [error] of the source. *)
Record TestCallExecution : Type := {
  testCall : TestCall;
  testExecutionStatus : TestExecutionStatus;
  passed : bool;
  obtained : option TestCallResult;
  expected : TestCallResult;
  executionError : option JsValue
}.

Definition setStatus (st : TestExecutionStatus) (e : TestCallExecution) : TestCallExecution :=
  {| testCall := testCall e; testExecutionStatus := st; passed := passed e;
     obtained := obtained e; expected := expected e; executionError := executionError e |}.

Definition setPassed (p : bool) (e : TestCallExecution) : TestCallExecution :=
  {| testCall := testCall e; testExecutionStatus := testExecutionStatus e; passed := p;
     obtained := obtained e; expected := expected e; executionError := executionError e |}.

Definition setObtained (o : TestCallResult) (e : TestCallExecution) : TestCallExecution :=
  {| testCall := testCall e; testExecutionStatus := testExecutionStatus e; passed := passed e;
     obtained := Some o; expected := expected e; executionError := executionError e |}.

Definition setExecutionError (err : JsValue) (e : TestCallExecution) : TestCallExecution :=
  {| testCall := testCall e; testExecutionStatus := testExecutionStatus e; passed := passed e;
     obtained := obtained e; expected := expected e; executionError := Some err |}.

Definition initializeTestCallExecution (testCallResult : TestCallResult) (tc : TestCall)
  : TestCallExecution :=
  {| testCall := tc; testExecutionStatus := INITIALIZED_EXECUTION; passed := false;
     obtained := None; expected := testCallResult; executionError := None |}.

(** *** TestExecutionStatistics *)

Record TestExecutionStatistics : Type := {
  ok : Z;
  ko : Z;
  skipped : Z;
  total : Z
}.

Definition newTestExecutionStatistics : TestExecutionStatistics :=
  {| ok := 0; ko := 0; skipped := 0; total := 0 |}.

Definition addTestExecutionStatistics (target source : TestExecutionStatistics)
  : TestExecutionStatistics :=
  {| ok := ok target + ok source; ko := ko target + ko source;
     skipped := skipped target + skipped source; total := total target + total source |}%Z.

Definition addTestExecution (e : TestCallExecution) (stats : TestExecutionStatistics)
  : TestExecutionStatistics :=
  let counted :=
    if bool_decide (testExecutionStatus e = DONE_EXECUTION) && passed e then
      {| ok := ok stats + 1; ko := ko stats; skipped := skipped stats; total := total stats |}%Z
    else if bool_decide (testExecutionStatus e = SKIPPED_EXECUTION) then
      {| ok := ok stats; ko := ko stats; skipped := skipped stats + 1; total := total stats |}%Z
    else
      {| ok := ok stats; ko := ko stats + 1; skipped := skipped stats; total := total stats |}%Z
  in
  {| ok := ok counted; ko := ko counted; skipped := skipped counted;
     total := (total counted + 1)%Z |}.

Definition makeTestExecutionStatistics (testCallExecutions : list TestCallExecution)
  : TestExecutionStatistics :=
  fold_left (fun stats e => addTestExecution e stats) testCallExecutions
            newTestExecutionStatistics.

(** *** The supervisor *)

Definition DEFAULT_TIMEOUT_DURATION : Z := 200.

(** [typeof] has no other result, so the [default] branch of the
    [switch], which throws, is never taken. *)
Definition getConstructor (reason : JsValue) : JsValue :=
  match typeof reason with
  | TBoolean | TNumber | TBigint | TString | TSymbol | TFunction =>
      getProperty "constructor" reason
  | TUndefined => JsNull
  | TObject =>
      match reason with
      | JsNull => JsNull
      | _ => getProperty "constructor" reason
      end
  end.

Definition asErrorOrConstructor (reason : JsValue) : Completion JsValue :=
  if instanceofError reason then Normal reason
  else
    let constructor := getConstructor reason in
    if truthy constructor then Normal constructor
    else
      match pprint reason with
      | Normal text =>
          Throw (newError ("[asErrorOrConstructor] Cannot retrieve the constructor of the obtained error "
                           ++ templateText text))
      | Throw e => Throw e
      end.

Record TestCallSupervisor : Type := {
  running : bool;
  testCallExecutions : list TestCallExecution
}.

Definition makeTestCallSupervisor : TestCallSupervisor :=
  {| running := false; testCallExecutions := [] |}.

(** The specifier closes over the [TestCall] it will register. *)
Record TestCallSpecifier : Type := { specifiedTestCall : TestCall }.

(** Building a specifier reads nothing from, and writes nothing to, the
    supervisor: the state is returned as it came. *)
Definition makeTestCallSpecifier (timeout : option Z) (f : list JsValue -> CallOutcome)
  (vs : list JsValue) (s : TestCallSupervisor) : TestCallSpecifier * TestCallSupervisor :=
  ({| specifiedTestCall := {| fn := f; values := vs; timeoutDuration := timeout |} |}, s).

Definition equals (spec : TestCallSpecifier) (v : JsValue) (s : TestCallSupervisor)
  : TestCallSupervisor :=
  {| running := running s;
     testCallExecutions :=
       testCallExecutions s
         ++ [initializeTestCallExecution (makeNormalTestCallResult v) (specifiedTestCall spec)] |}.

Definition throws (spec : TestCallSpecifier) (e : JsValue) (s : TestCallSupervisor)
  : TestCallSupervisor :=
  {| running := running s;
     testCallExecutions :=
       testCallExecutions s
         ++ [initializeTestCallExecution (makeErrorTestCallResult e) (specifiedTestCall spec)] |}.

Definition call (f : list JsValue -> CallOutcome) (vs : list JsValue) (s : TestCallSupervisor)
  : TestCallSpecifier * TestCallSupervisor :=
  makeTestCallSpecifier None f vs s.

Definition stopPast (timeout : Z) (f : list JsValue -> CallOutcome) (vs : list JsValue)
  (s : TestCallSupervisor) : TestCallSpecifier * TestCallSupervisor :=
  makeTestCallSpecifier (Some timeout) f vs s.

Definition compareWithObtainedValue (v : JsValue) (e : TestCallExecution) : TestCallExecution :=
  setObtained (makeNormalTestCallResult v)
    (setPassed (match error (expected e) with
                | JsNull => isDeepStrictEqual v (value (expected e))
                | _ => false
                end)
       (setStatus DONE_EXECUTION e)).

(** The record as far as it was written, and whether the function threw. *)
Definition compareWithObtainedError (reason : JsValue) (e : TestCallExecution)
  : TestCallExecution * Completion unit :=
  let passedOrThrow : Completion bool :=
    match error (expected e) with
    | JsNull => Normal false
    | expectedError =>
        if instanceofError expectedError then
          if instanceofError reason then Normal (isDeepStrictEqual expectedError reason)
          else Normal false
        else instanceof reason expectedError
    end in
  match passedOrThrow with
  | Throw thrown => (e, Throw thrown)
  | Normal p =>
      let e1 := setPassed p (setStatus DONE_EXECUTION e) in
      match asErrorOrConstructor reason with
      | Normal errorOrConstructor =>
          (setObtained (makeErrorTestCallResult errorOrConstructor) e1, Normal tt)
      | Throw thrown => (e1, Throw thrown)
      end
  end.

Definition cancelTestCallExecution (reason : JsValue) (e : TestCallExecution)
  : TestCallExecution :=
  setExecutionError (if instanceofError reason then reason else newError (toString reason))
    (setStatus CANCELLED_EXECUTION e).

(** **** executeTestCall *)

Inductive Settlement : Type :=
| Fulfilled (v : JsValue)
| Rejected (reason : JsValue).

(** [promisedTestResult]: when and how the promise made around the call
    settles.  A plain value or an exception settles it at once; an
    exception goes through [errorFromReason] (an exception of that
    function rejects the promise too); a returned promise is adopted
    as it is. *)
Definition promisedTestResult (tc : TestCall) : option (Z * Settlement) :=
  match fn tc (values tc) with
  | Returns v => Some (0%Z, Fulfilled v)
  | Throws reason =>
      match errorFromReason reason with
      | Normal e => Some (0%Z, Rejected e)
      | Throw thrown => Some (0%Z, Rejected thrown)
      end
  | FulfilsAfter delay v => Some (delay, Fulfilled v)
  | RejectsAfter delay reason => Some (delay, Rejected reason)
  | NeverSettles => None
  end.

(** [setTimeout] turns a delay below 1 or above 2147483647 into 1. *)
Definition timerDelay (duration : Z) : Z :=
  if (duration <? 1)%Z || (2147483647 <? duration)%Z then 1%Z else duration.

Definition timeoutError (duration : Z) : JsValue :=
  newError ("Execution timed out (duration: " ++ pretty duration ++ ")").

(** [Promise.race([promisedTestResult, timingPromise])]: the settlement
    the handlers receive, and [hasTimedOut] at that moment.  The timer
    wins when its delay is over before the call settles; the call, whose
    promise comes first and whose own timers are armed first, wins a
    tie. *)
Definition race (tc : TestCall) (duration : Z) : Settlement * bool :=
  match promisedTestResult tc with
  | Some (settledAt, settlement) =>
      if (settledAt <=? timerDelay duration)%Z then (settlement, false)
      else (Rejected (timeoutError duration), true)
  | None => (Rejected (timeoutError duration), true)
  end.

(** What a handler does last. *)
Inductive Continuation : Type :=
| ExecuteNextTestCall
| CancelExecution.

Definition onFulfilled (v : JsValue) (e : TestCallExecution)
  : TestCallExecution * Continuation :=
  (compareWithObtainedValue v e, ExecuteNextTestCall).

Definition onRejected (reason : JsValue) (hasTimedOut : bool) (e : TestCallExecution)
  : TestCallExecution * Continuation :=
  if hasTimedOut then (cancelTestCallExecution reason e, CancelExecution)
  else
    match compareWithObtainedError reason e with
    | (e', Normal _) => (e', ExecuteNextTestCall)
    | (e', Throw thrown) => (cancelTestCallExecution thrown e', CancelExecution)
    end.

(** The record after the call, what happens next, and whether the timer
    fired ([hasTimedOut]).  Neither the two promise constructors nor
    [setTimeout] throw, so the outer [catch] is not reached, and a settled
    promise calls one handler once, which is all that [wrapUpDone]
    asks for. *)
Definition executeTestCall (e : TestCallExecution) (defaultDelay : Z)
  : TestCallExecution * Continuation * bool :=
  let duration := default defaultDelay (timeoutDuration (testCall e)) in
  match race (testCall e) duration with
  | (Fulfilled v, hasTimedOut) => (onFulfilled v e, hasTimedOut)
  | (Rejected reason, hasTimedOut) => (onRejected reason hasTimedOut e, hasTimedOut)
  end.

(** **** executeTestCalls *)

(** What the engine did, in order; kept beside the records so that a
    statement can speak of a call that was started or of a timer that
    fired. *)
Inductive EngineEvent : Type :=
| CallStarted (offset : nat)
| CallSkipped (offset : nat)
| TimerFired (offset : nat).

Global Instance EngineEvent_eq_dec : EqDecision EngineEvent.
Proof. solve_decision. Defined.

Record RunState : Type := {
  executions : list TestCallExecution;
  events : list EngineEvent
}.

(** [executeNextTestCall], called again through [process.nextTick] until
    the offset passes the end or a handler cancels.  [fuel] bounds the
    number of calls; [None] means it ran out. *)
Fixpoint executeNextTestCall (fuel : nat) (defaultDelay : Z) (skipTimeboxedTests : bool)
  (offset : nat) (st : RunState) : option RunState :=
  match fuel with
  | O => None
  | S fuel' =>
      if bool_decide (offset < length (executions st)) then
        match executions st !! offset with
        | None => executeNextTestCall fuel' defaultDelay skipTimeboxedTests (S offset) st
        | Some e =>
            if bool_decide (timeoutDuration (testCall e) = None) || negb skipTimeboxedTests then
              match executeTestCall e defaultDelay with
              | (e', continuation, hasTimedOut) =>
                  let st' :=
                    {| executions := <[offset := e']> (executions st);
                       events := events st ++ CallStarted offset
                                   :: (if hasTimedOut then [TimerFired offset] else []) |} in
                  match continuation with
                  | ExecuteNextTestCall =>
                      executeNextTestCall fuel' defaultDelay skipTimeboxedTests (S offset) st'
                  | CancelExecution => Some st'
                  end
              end
            else
              executeNextTestCall fuel' defaultDelay skipTimeboxedTests (S offset)
                {| executions := <[offset := setStatus SKIPPED_EXECUTION e]> (executions st);
                   events := events st ++ [CallSkipped offset] |}
        end
      else Some st
  end.

(** One call of [executeNextTestCall] per record and a last one that
    finds the offset at the end. *)
Definition executeTestCalls (arr : list TestCallExecution) (defaultDelay : Z)
  (skipTimeboxedTests : bool) : option RunState :=
  executeNextTestCall (S (length arr)) defaultDelay skipTimeboxedTests 0
    {| executions := arr; events := [] |}.

Record TestExecutionOptions : Type := { skipTimeboxedTests : bool }.

Definition reset (s : TestCallSupervisor) : Completion TestCallSupervisor :=
  if running s then Throw (newError "Cannot call `reset()` while running")
  else Normal {| running := running s; testCallExecutions := [] |}.

(** What the promise of [run] settles with. *)
Inductive RunOutcome : Type :=
| Resolved (result : list TestCallExecution) (log : list EngineEvent)
| RejectedRun (reason : JsValue)
| StillRunning.

(** A whole run, from the call of [run] to the settlement of its promise.
    [StillRunning] stands for a run that ran out of fuel
    ([run_never_still_running] shows that none does). *)
Definition run (testExecutionOptions : TestExecutionOptions) (s : TestCallSupervisor)
  : RunOutcome * TestCallSupervisor :=
  if running s then (RejectedRun (newError "`run()` has already been called"), s)
  else
    match executeTestCalls (testCallExecutions s) DEFAULT_TIMEOUT_DURATION
            (skipTimeboxedTests testExecutionOptions) with
    | Some st =>
        (Resolved (executions st) (events st),
         {| running := false; testCallExecutions := executions st |})
    | None => (StillRunning, {| running := true; testCallExecutions := testCallExecutions s |})
    end.

(** *** A test file

    The top level of a test file is a sequence of statements
    [$(fn, ...values)] or [$.stopPast(timeout, fn, ...values)], each
    followed by [.equals(v)], by [.throws(e)] or by nothing. *)
Inductive Expectation : Type :=
| NoExpectation
| ExpectEquals (v : JsValue)
| ExpectThrows (e : JsValue).

Record Registration : Type := {
  regTimeout : option Z;
  regFn : list JsValue -> CallOutcome;
  regValues : list JsValue;
  regExpectation : Expectation
}.

Definition register (r : Registration) (s : TestCallSupervisor) : TestCallSupervisor :=
  let '(specifier, s1) :=
    match regTimeout r with
    | None => call (regFn r) (regValues r) s
    | Some timeout => stopPast timeout (regFn r) (regValues r) s
    end in
  match regExpectation r with
  | NoExpectation => s1
  | ExpectEquals v => equals specifier v s1
  | ExpectThrows e => throws specifier e s1
  end.

Definition importTestFile (statements : list Registration) (s : TestCallSupervisor)
  : TestCallSupervisor :=
  fold_left (fun s r => register r s) statements s.

End TestCallEngine.

(** ** String operations of JavaScript used by the path modules *)

Module JsString.

Definition slash : Ascii.ascii := Ascii.ascii_of_nat 47.
Definition backslash : Ascii.ascii := Ascii.ascii_of_nat 92.
Definition dot : Ascii.ascii := Ascii.ascii_of_nat 46.

(** [s.split(sep)] for a separator of one character. *)
Fixpoint split (sep : Ascii.ascii) (s : string) : list string :=
  match s with
  | EmptyString => [EmptyString]
  | String c s' =>
      if Ascii.eqb c sep then EmptyString :: split sep s'
      else
        match split sep s' with
        | first :: others => String c first :: others
        | [] => [String c EmptyString]
        end
  end.

Fixpoint lastChar (s : string) : option Ascii.ascii :=
  match s with
  | EmptyString => None
  | String c EmptyString => Some c
  | String _ s' => lastChar s'
  end.

(** [s.endsWith(c)] for one character. *)
Definition endsWith (s : string) (c : Ascii.ascii) : bool :=
  match lastChar s with
  | Some d => Ascii.eqb d c
  | None => false
  end.

(** [s.lastIndexOf(c)], -1 when [c] does not occur. *)
Fixpoint lastIndexOf (c : Ascii.ascii) (s : string) : Z :=
  match s with
  | EmptyString => (-1)%Z
  | String d s' =>
      let later := lastIndexOf c s' in
      if (later =? -1)%Z then (if Ascii.eqb d c then 0%Z else (-1)%Z)
      else (later + 1)%Z
  end.

(** [s.substring(from, to)] and [s.substring(from)] with indices that
    are not negative. *)
Definition substring (from to : Z) (s : string) : string :=
  String.substring (Z.to_nat from) (Z.to_nat to - Z.to_nat from) s.

Definition substringFrom (from : Z) (s : string) : string :=
  String.substring (Z.to_nat from) (String.length s - Z.to_nat from) s.

(** [s.search(re)] for a class of characters: the index of the first
    character in the class, -1 when there is none. *)
Fixpoint search (inClass : Ascii.ascii -> bool) (s : string) : Z :=
  match s with
  | EmptyString => (-1)%Z
  | String c s' =>
      if inClass c then 0%Z
      else
        let later := search inClass s' in
        if (later =? -1)%Z then (-1)%Z else (later + 1)%Z
  end.

Fixpoint mapChars (f : Ascii.ascii -> Ascii.ascii) (s : string) : string :=
  match s with
  | EmptyString => EmptyString
  | String c s' => String (f c) (mapChars f s')
  end.

Fixpoint countChars (inClass : Ascii.ascii -> bool) (s : string) : nat :=
  match s with
  | EmptyString => 0
  | String c s' => (if inClass c then 1 else 0) + countChars inClass s'
  end.

(** The class of the one character [c]. *)
Definition isChar (c : Ascii.ascii) : Ascii.ascii -> bool := fun d => Ascii.eqb d c.

Fixpoint allChars (inClass : Ascii.ascii -> bool) (s : string) : bool :=
  match s with
  | EmptyString => true
  | String c s' => inClass c && allChars inClass s'
  end.

End JsString.

(** ** ts/01-pathname.ts *)

Module Pathname.
Import JsString.

Definition NORMAL_SEPARATOR : Ascii.ascii := slash.
Definition CURRENT_FOLDER : string := ".".
Definition PARENT_FOLDER : string := "..".

(** [SEPARATOR_REGEXP], on one character. *)
Definition SEPARATOR_REGEXP (c : Ascii.ascii) : bool :=
  Ascii.eqb c slash || Ascii.eqb c backslash.

(** [CURRENT_FOLDER_REGEXP]: a dot, then at most one separator. *)
Definition CURRENT_FOLDER_REGEXP (s : string) : bool :=
  match s with
  | String c EmptyString => Ascii.eqb c dot
  | String c (String d EmptyString) => Ascii.eqb c dot && SEPARATOR_REGEXP d
  | _ => false
  end.

(** [PARENT_FOLDER_REGEXP]: two dots, then separators only. *)
Definition PARENT_FOLDER_REGEXP (s : string) : bool :=
  match s with
  | String c (String d rest) =>
      Ascii.eqb c dot && Ascii.eqb d dot && allChars SEPARATOR_REGEXP rest
  | _ => false
  end.

(** [NAVIGATION_REGEXP]: somewhere a dot followed by a separator. *)
Fixpoint NAVIGATION_REGEXP (s : string) : bool :=
  match s with
  | String c ((String d _) as s') =>
      (Ascii.eqb c dot && SEPARATOR_REGEXP d) || NAVIGATION_REGEXP s'
  | _ => false
  end.

(** [path.isAbsolute] of POSIX. *)
Definition isAbsolute (pathname : string) : bool :=
  match pathname with
  | String c _ => Ascii.eqb c slash
  | EmptyString => false
  end.

(** The loop stops at the second separator, so the count is 1 exactly
    when the pathname has one separator. *)
Definition isRootPath (pathname : string) : bool :=
  if isAbsolute pathname then
    bool_decide (Nat.min 2 (countChars SEPARATOR_REGEXP pathname) = 1)
  else false.

Definition normalizePathname (pathname : string) : string :=
  mapChars (fun c => if Ascii.eqb c backslash then NORMAL_SEPARATOR else c) pathname.

Definition normalizeFolderPathname (pathname : string) : string :=
  let normalizedPathname := normalizePathname pathname in
  if String.eqb normalizedPathname EmptyString || endsWith normalizedPathname NORMAL_SEPARATOR
  then normalizedPathname
  else normalizedPathname ++ String NORMAL_SEPARATOR EmptyString.

Definition isFullFileName (s : string) : bool :=
  negb (String.eqb s EmptyString) && negb (String.eqb s CURRENT_FOLDER)
  && negb (String.eqb s PARENT_FOLDER) && (search SEPARATOR_REGEXP s =? -1)%Z.

Definition isFolderName (s : string) : bool :=
  negb (String.eqb s EmptyString)
  && (search SEPARATOR_REGEXP s =? Z.of_nat (String.length s) - 1)%Z
  && negb (isRootPath s) && negb (CURRENT_FOLDER_REGEXP s) && negb (PARENT_FOLDER_REGEXP s).

Definition isFolderPathname (pathname : string) : bool :=
  if String.eqb pathname CURRENT_FOLDER || String.eqb pathname PARENT_FOLDER
     || String.eqb pathname EmptyString
  then true
  else
    match lastChar pathname with
    | Some c => Ascii.eqb c backslash || Ascii.eqb c slash
    | None => false
    end.

Definition isAbsolutePathname (pathname : string) : bool := isAbsolute pathname.

Definition isResolvedPathname (pathname : string) : bool :=
  negb (String.eqb pathname CURRENT_FOLDER) && negb (String.eqb pathname PARENT_FOLDER)
  && negb (NAVIGATION_REGEXP pathname).

Inductive PathnameType : Type := FILE_PATHNAME | FOLDER_PATHNAME.

Record PathnameTraits : Type := {
  absolute : bool;
  resolved : bool;
  pathnameType : PathnameType;
  nameOnly : bool
}.

Definition printPathnameTraits (t : PathnameTraits) : string :=
  (if absolute t then "an absolute, " else "a relative, ")
  ++ (if resolved t then "resolved " else "unresolved ")
  ++ (match pathnameType t with FOLDER_PATHNAME => "folder " | FILE_PATHNAME => "file " end)
  ++ (if nameOnly t then "name" else "pathname").

Definition pathnameTraits (pathname : string) : PathnameTraits :=
  let pathnameType := if isFolderPathname pathname then FOLDER_PATHNAME else FILE_PATHNAME in
  {| absolute := isAbsolutePathname pathname;
     resolved := isResolvedPathname pathname;
     pathnameType := pathnameType;
     nameOnly := match pathnameType with
                 | FILE_PATHNAME => isFullFileName pathname
                 | FOLDER_PATHNAME => isFolderName pathname
                 end |}.

(** [None] when the pathname is what its name says, the traits found
    otherwise. *)
Definition assumeResolvedAbsoluteFolderPathname (pathname : string) : option PathnameTraits :=
  if isAbsolutePathname pathname && isResolvedPathname pathname
     && isFolderPathname pathname && negb (String.eqb pathname EmptyString)
  then None
  else Some (pathnameTraits pathname).

Definition assumeResolvedAbsoluteFilePathname (pathname : string) : option PathnameTraits :=
  if isAbsolutePathname pathname && isResolvedPathname pathname
     && negb (isFolderPathname pathname)
  then None
  else Some (pathnameTraits pathname).

End Pathname.

(** ** ts/02_path-items.ts (the absolute items, which the walker builds) *)

Module PathItems.
Import JsString Pathname.

(** [absolute: true, folder: true] *)
Record AbsoluteFolder : Type := { folderPathname : string }.

(** [absolute: true, folder: false] *)
Record AbsoluteFile : Type := {
  fileFolderPathname : string;
  fileName : string;
  extension : string
}.

Inductive AbsolutePathItem : Type :=
| FileItem (file : AbsoluteFile)
| FolderItem (folder : AbsoluteFolder).

Definition parseFullFileName (fullFileName : string) : string * string :=
  let offset := lastIndexOf dot fullFileName in
  if (offset =? -1)%Z then (fullFileName, EmptyString)
  else (substring 0 offset fullFileName, substringFrom (offset + 1) fullFileName).

(** The message of the [Error] thrown, or the item. *)
Definition asAbsoluteFile (resolvedAbsoluteFilePathname : string) : string + AbsoluteFile :=
  match assumeResolvedAbsoluteFilePathname resolvedAbsoluteFilePathname with
  | Some traits =>
      inl ("asAbsoluteFile is designed to build an AbsoluteFile with a resolvedAbsoluteFilePathname: got "
           ++ resolvedAbsoluteFilePathname ++ " which is " ++ printPathnameTraits traits)
  | None =>
      let fullFilePathname := normalizePathname resolvedAbsoluteFilePathname in
      let offset := lastIndexOf NORMAL_SEPARATOR fullFilePathname in
      let folderPathname := substring 0 (offset + 1) fullFilePathname in
      let fullFileName := substringFrom (offset + 1) fullFilePathname in
      let '(name, ext) := parseFullFileName fullFileName in
      inr {| fileFolderPathname := folderPathname; fileName := name; extension := ext |}
  end.

Definition asAbsoluteFolder (resolvedAbsoluteFolderPathname : string) : string + AbsoluteFolder :=
  match assumeResolvedAbsoluteFolderPathname resolvedAbsoluteFolderPathname with
  | Some traits =>
      inl ("asAbsoluteFolder is designed to build an AbsoluteFolder with a normalized resolvedAbsoluteFolderPathname: got "
           ++ resolvedAbsoluteFolderPathname ++ " which is " ++ printPathnameTraits traits)
  | None => inr {| folderPathname := normalizePathname resolvedAbsoluteFolderPathname |}
  end.

End PathItems.

(** ** ts/03-walk-folder.ts *)

Module WalkFolder.
Import JsString Pathname PathItems.

(** *** The file system, as [fs] and [path] of Node show it (POSIX) *)

Inductive EntryType : Type := IsFile | IsDirectory | IsOther.

Global Instance EntryType_eq_dec : EqDecision EntryType.
Proof. solve_decision. Defined.

Record Dirent : Type := { name : string; direntType : EntryType }.

Record Stats : Type := { statsType : EntryType; mtime : Z }.

Definition Dirent_isFile (d : Dirent) : bool := bool_decide (direntType d = IsFile).
Definition Dirent_isDirectory (d : Dirent) : bool := bool_decide (direntType d = IsDirectory).
Definition Stats_isFile (s : Stats) : bool := bool_decide (statsType s = IsFile).
Definition Stats_isDirectory (s : Stats) : bool := bool_decide (statsType s = IsDirectory).

(** An error of [fs], with its [code]. *)
Record FsError : Type := { code : string }.

Definition ENOENT : FsError := {| code := "ENOENT" |}.

(** [readdir] stands for [readdirSync] and for [readdir] with
    [withFileTypes]; [stat] for [stat]. *)
Record FileSystem : Type := {
  readdir : string -> FsError + list Dirent;
  stat : string -> FsError + Stats
}.

Definition sep : Ascii.ascii := slash.

(** [path.normalize] and [path.join] of POSIX, as Node writes them.

    [normalizeString] goes through the segments between the separators
    and keeps them one by one: an empty segment or [.] is dropped; [..]
    removes the segment kept last, unless there is none or it is [..]
    itself, and is then kept only above the root of a relative path. *)
Definition keepSegment (allowAboveRoot : bool) (kept : list string) (segment : string)
  : list string :=
  if String.eqb segment EmptyString || String.eqb segment "." then kept
  else if String.eqb segment ".." then
    match last kept with
    | Some previous =>
        if String.eqb previous ".." then
          (if allowAboveRoot then (kept ++ [".."])%list else kept)
        else removelast kept
    | None => if allowAboveRoot then [".."] else []
    end
  else (kept ++ [segment])%list.

Definition keptSegments (path : string) (allowAboveRoot : bool) : list string :=
  fold_left (keepSegment allowAboveRoot) (split sep path) [].

Definition normalizeString (path : string) (allowAboveRoot : bool) : string :=
  String.concat "/" (keptSegments path allowAboveRoot).

Definition normalize (path : string) : string :=
  if String.eqb path EmptyString then "."
  else
    let absolutePath := isAbsolute path in
    let trailingSeparator := endsWith path sep in
    let normalized := normalizeString path (negb absolutePath) in
    if String.eqb normalized EmptyString then
      (if absolutePath then "/" else if trailingSeparator then "./" else ".")
    else
      (if absolutePath then "/" else "")
      ++ normalized ++ (if trailingSeparator then "/" else "").

(** [path.join(pathname, name)]: the arguments that are not empty,
    joined by the separator, then normalized. *)
Definition join (pathname name : string) : string :=
  if String.eqb pathname EmptyString then
    (if String.eqb name EmptyString then "." else normalize name)
  else if String.eqb name EmptyString then normalize pathname
  else normalize (pathname ++ String sep name).

(** [array.sort(compare)]: the sort is stable, and an entry goes before
    another when [compare] is not positive.  With a comparator that
    orders the entries consistently every stable sort gives the same
    array; insertion from the right is the simplest one. *)
Fixpoint insertSorted {A} (compare : A -> A -> Z) (x : A) (l : list A) : list A :=
  match l with
  | [] => [x]
  | y :: l' => if (compare x y <=? 0)%Z then x :: l else y :: insertSorted compare x l'
  end.

Definition sort {A} (compare : A -> A -> Z) (l : list A) : list A :=
  foldr (insertSorted compare) [] l.

(** [array.filter(predicate)], the predicate seeing the index and the
    array. *)
Definition filterArray {A} (predicate : A -> nat -> list A -> bool) (l : list A) : list A :=
  omap (fun '(i, x) => if predicate x i l then Some x else None) (imap pair l).

(** *** The walker *)

(** The error a stream is destroyed with. *)
Inductive WalkerError : Type :=
| FsFailure (e : FsError)
| ThrownError (message : string).

Definition doesFolderExistSync (fs : FileSystem) (absoluteFolder : AbsoluteFolder)
  : WalkerError + option AbsoluteFolder :=
  match readdir fs (folderPathname absoluteFolder) with
  | inr _ => inr (Some absoluteFolder)
  | inl reason =>
      if String.eqb (code reason) "ENOENT" then inr None
      else inl (FsFailure reason)
  end.

Record FolderWalkerOptions : Type := {
  arraySortFunction : option (Dirent -> Dirent -> Z);
  arrayFilterFunction : option (Dirent -> nat -> list Dirent -> bool);
  depthLimit : option Z;
  itemFilter : option (string -> Stats -> bool)
}.

Definition sortFilesFirstThenAlphabetically (a b : Dirent) : Z :=
  let isDirectoryA := Dirent_isDirectory a in
  let isDirectoryB := Dirent_isDirectory b in
  if isDirectoryA && isDirectoryB then (-1 * compareStringsAscending (name a) (name b))%Z
  else if isDirectoryA then (-1)%Z
  else if isDirectoryB then 1%Z
  else (-1 * compareStringsAscending (name a) (name b))%Z.

Definition DEFAULT_FOLDER_WALKER_OPTIONS : FolderWalkerOptions :=
  {| arraySortFunction := Some sortFilesFirstThenAlphabetically;
     arrayFilterFunction := None;
     depthLimit := None;
     itemFilter := None |}.

(** [Partial<FolderWalkerOptions>]: [None] for a property that is not
    there. *)
Record PartialFolderWalkerOptions : Type := {
  arraySortFunction' : option (option (Dirent -> Dirent -> Z));
  arrayFilterFunction' : option (option (Dirent -> nat -> list Dirent -> bool));
  depthLimit' : option (option Z);
  itemFilter' : option (option (string -> Stats -> bool))
}.

Definition noOptions : PartialFolderWalkerOptions :=
  {| arraySortFunction' := None; arrayFilterFunction' := None;
     depthLimit' := None; itemFilter' := None |}.

(** [{ ...defaults, ...options }] *)
Definition spread (defaults : FolderWalkerOptions) (options : PartialFolderWalkerOptions)
  : FolderWalkerOptions :=
  {| arraySortFunction := default (arraySortFunction defaults) (arraySortFunction' options);
     arrayFilterFunction := default (arrayFilterFunction defaults) (arrayFilterFunction' options);
     depthLimit := default (depthLimit defaults) (depthLimit' options);
     itemFilter := default (itemFilter defaults) (itemFilter' options) |}.

Record FolderWalkerItem : Type := { pathname : string; fsStats : Stats }.

Definition fsStat (fs : FileSystem) (absoluteResolvedPathname : string) : FsError + Stats :=
  stat fs absoluteResolvedPathname.

(** The loop of [folderWalker_NextItem], on the array read from its end:
    what the promise settles with and what is left of the array. *)
Fixpoint nextItemFromEnd (fs : FileSystem) (itemFilter : option (string -> Stats -> bool))
  (fromEnd : list string) : (FsError + option FolderWalkerItem) * list string :=
  match fromEnd with
  | [] => (inr None, [])
  | pathname :: others =>
      match fsStat fs pathname with
      | inl reason => (inl reason, others)
      | inr fsStats =>
          let done :=
            match itemFilter with
            | None => true
            | Some f => negb (f pathname fsStats)
            end in
          if done then (inr (Some {| pathname := pathname; fsStats := fsStats |}), others)
          else nextItemFromEnd fs itemFilter others
      end
  end.

Definition folderWalker_NextItem (fs : FileSystem) (absoluteResolvedPathnames : list string)
  (itemFilter : option (string -> Stats -> bool))
  : (FsError + option FolderWalkerItem) * list string :=
  let '(settled, remaining) := nextItemFromEnd fs itemFilter (reverse absoluteResolvedPathnames) in
  (settled, reverse remaining).

Record FolderWalker : Type := {
  absoluteResolvedPathnames : list string;
  options : FolderWalkerOptions;
  absoluteLengthLimit : option Z
}.

Definition segmentCount (separator : Ascii.ascii) (pathname : string) : Z :=
  Z.of_nat (length (split separator pathname)).

(** The constructor; [inl] when [doesFolderExistSync] throws. *)
Definition newFolderWalker (fs : FileSystem) (absoluteFolder : AbsoluteFolder)
  (partialOptions : PartialFolderWalkerOptions) : WalkerError + FolderWalker :=
  let options := spread DEFAULT_FOLDER_WALKER_OPTIONS partialOptions in
  match doesFolderExistSync fs absoluteFolder with
  | inl thrown => inl thrown
  | inr (Some _) =>
      let rootDirectoryPathname := folderPathname absoluteFolder in
      inr {| absoluteResolvedPathnames := [rootDirectoryPathname];
             options := options;
             absoluteLengthLimit :=
               match depthLimit options with
               | Some limit =>
                   if (-1 <? limit)%Z
                   then Some (segmentCount NORMAL_SEPARATOR rootDirectoryPathname + limit)%Z
                   else None
               | None => None
               end |}
  | inr None =>
      inr {| absoluteResolvedPathnames := []; options := options; absoluteLengthLimit := None |}
  end.

(** What one call of [_read] does to the stream. *)
Inductive ReadEffect : Type :=
| Pushed (item : AbsolutePathItem)
| PushedNull
| PushedThenDestroyed (item : AbsolutePathItem) (reason : WalkerError)
| Destroyed (reason : WalkerError)
| Uncaught (message : string)
| NothingPushed.

(** The pathname an entry of [pathname] is pushed under, if it is. *)
Definition pushedPathname (pathname : string) (fsDirent : Dirent) : option string :=
  let absoluteResolvedPathname := join pathname (name fsDirent) in
  if Dirent_isFile fsDirent then Some absoluteResolvedPathname
  else if Dirent_isDirectory fsDirent then
    Some (if endsWith absoluteResolvedPathname sep then absoluteResolvedPathname
          else absoluteResolvedPathname ++ String sep EmptyString)
  else None.

(** The [forEach] of the [readdir] callback. *)
Definition pushEntries (pathname : string) (processedFsDirents : list Dirent)
  (stack : list string) : list string :=
  fold_left (fun (stack : list string) fsDirent =>
               match pushedPathname pathname fsDirent with
               | Some pushed => (stack ++ [pushed])%list
               | None => stack
               end)
            processedFsDirents stack.

Definition processFsDirents (options : FolderWalkerOptions) (fsDirents : list Dirent)
  : list Dirent :=
  let processedFsDirents :=
    match arrayFilterFunction options with
    | Some predicate => filterArray predicate fsDirents
    | None => fsDirents
    end in
  match arraySortFunction options with
  | Some compare => sort compare processedFsDirents
  | None => processedFsDirents
  end.

Definition overLimit (w : FolderWalker) (pathname : string) : bool :=
  match absoluteLengthLimit w with
  | Some limit => (limit <? segmentCount sep pathname)%Z
  | None => false
  end.

Definition withPathnames (w : FolderWalker) (stack : list string) : FolderWalker :=
  {| absoluteResolvedPathnames := stack; options := options w;
     absoluteLengthLimit := absoluteLengthLimit w |}.

(** The callback given to [readdir], for the folder [pathname] popped
    off the array, which now holds [stack].  An exception here is not
    caught. *)
Definition onReaddir (w : FolderWalker) (stack : list string) (pathname : string)
  (result : FsError + list Dirent) : ReadEffect * FolderWalker :=
  match result with
  | inl maybeError =>
      match asAbsoluteFolder pathname with
      | inr folder =>
          (PushedThenDestroyed (FolderItem folder) (FsFailure maybeError),
           withPathnames w stack)
      | inl message => (Uncaught message, withPathnames w stack)
      end
  | inr fsDirents =>
      let stack' := pushEntries pathname (processFsDirents (options w) fsDirents) stack in
      match asAbsoluteFolder pathname with
      | inr folder => (Pushed (FolderItem folder), withPathnames w stack')
      | inl message => (Uncaught message, withPathnames w stack')
      end
  end.

(** The callback given to [then], with what [folderWalker_NextItem]
    resolved to and left of the array.  An exception here is caught and
    destroys the stream. *)
Definition onNextItem (fs : FileSystem) (w : FolderWalker) (stack : list string)
  (folderWalkerItem : option FolderWalkerItem) : ReadEffect * FolderWalker :=
  match folderWalkerItem with
  | Some folderWalkerItem =>
      let pathname := pathname folderWalkerItem in
      let fsStats := fsStats folderWalkerItem in
      if Stats_isFile fsStats then
        match asAbsoluteFile pathname with
        | inr file => (Pushed (FileItem file), withPathnames w stack)
        | inl message => (Destroyed (ThrownError message), withPathnames w stack)
        end
      else if Stats_isDirectory fsStats then
        if overLimit w pathname then
          match asAbsoluteFolder pathname with
          | inr folder => (Pushed (FolderItem folder), withPathnames w stack)
          | inl message => (Destroyed (ThrownError message), withPathnames w stack)
          end
        else onReaddir w stack pathname (readdir fs pathname)
      else (NothingPushed, withPathnames w stack)
  | None => (PushedNull, withPathnames w stack)
  end.

(** [_read]: the effect on the stream and the walker afterwards. *)
Definition _read (fs : FileSystem) (w : FolderWalker) : ReadEffect * FolderWalker :=
  match folderWalker_NextItem fs (absoluteResolvedPathnames w) (itemFilter (options w)) with
  | (inl reason, stack) => (Destroyed (FsFailure reason), withPathnames w stack)
  | (inr folderWalkerItem, stack) => onNextItem fs w stack folderWalkerItem
  end.

(** How the stream stands when no [_read] will follow. *)
Inductive StreamEnd : Type :=
| Ended
| Errored (reason : WalkerError)
| UncaughtException (message : string)
| Waiting
| Flowing.

(** The stream read to its end: the items in the order they are pushed,
    and how it stops.  [_read] is called again after each push; [fuel]
    bounds the number of calls and [Flowing] means it ran out.
    [Waiting] is a stream whose [_read] pushed nothing. *)
Fixpoint walk (fuel : nat) (fs : FileSystem) (w : FolderWalker)
  : list AbsolutePathItem * StreamEnd :=
  match fuel with
  | O => ([], Flowing)
  | S fuel' =>
      match _read fs w with
      | (Pushed item, w') =>
          let '(items, finish) := walk fuel' fs w' in (item :: items, finish)
      | (PushedNull, _) => ([], Ended)
      | (PushedThenDestroyed item reason, _) => ([item], Errored reason)
      | (Destroyed reason, _) => ([], Errored reason)
      | (Uncaught message, _) => ([], UncaughtException message)
      | (NothingPushed, _) => ([], Waiting)
      end
  end.

Definition asPartial (o : FolderWalkerOptions) : PartialFolderWalkerOptions :=
  {| arraySortFunction' := Some (arraySortFunction o);
     arrayFilterFunction' := Some (arrayFilterFunction o);
     depthLimit' := Some (depthLimit o);
     itemFilter' := Some (itemFilter o) |}.

Definition walkFolder (fs : FileSystem) (absoluteFolder : AbsoluteFolder)
  (options : option PartialFolderWalkerOptions) : WalkerError + FolderWalker :=
  newFolderWalker fs absoluteFolder
    (asPartial (spread DEFAULT_FOLDER_WALKER_OPTIONS (default noOptions options))).

(** The items of a folder, enumerated with [fuel] calls of [_read]. *)
Definition enumerate (fuel : nat) (fs : FileSystem) (absoluteFolder : AbsoluteFolder)
  (options : option PartialFolderWalkerOptions)
  : WalkerError + (list AbsolutePathItem * StreamEnd) :=
  match walkFolder fs absoluteFolder options with
  | inl thrown => inl thrown
  | inr w => inr (walk fuel fs w)
  end.

(** *** A small file system to run the walker on

    [/root/] holds the file [a.txt] and the folder [b/]; [b/] holds what
    [inB] says. *)
Definition sampleFs (inB : list Dirent) : FileSystem :=
  {| readdir := fun p =>
       if String.eqb p "/root/" then
         inr [ {| name := "b"; direntType := IsDirectory |};
               {| name := "a.txt"; direntType := IsFile |} ]
       else if String.eqb p "/root/b/" then inr inB
       else inl ENOENT;
     stat := fun p =>
       if String.eqb p "/root/" then inr {| statsType := IsDirectory; mtime := 0 |}
       else if String.eqb p "/root/b/" then inr {| statsType := IsDirectory; mtime := 0 |}
       else if String.eqb p "/root/a.txt" then inr {| statsType := IsFile; mtime := 1000 |}
       else if String.eqb p "/root/b/c.js" then inr {| statsType := IsFile; mtime := 2000 |}
       else inl ENOENT |}.

Definition sampleRoot : AbsoluteFolder := {| folderPathname := "/root/" |}.



(** [/mixed/] holds two files, two folders and a symbolic link, which
    [readdir] lists in no particular order. *)
Definition mixedListing : list Dirent :=
  [ {| name := "z.txt"; direntType := IsFile |};
    {| name := "b"; direntType := IsDirectory |};
    {| name := "link"; direntType := IsOther |};
    {| name := "a.txt"; direntType := IsFile |};
    {| name := "a"; direntType := IsDirectory |} ].

Definition mixedFs : FileSystem :=
  {| readdir := fun p => if String.eqb p "/mixed/" then inr mixedListing else inr [];
     stat := fun p =>
       if String.eqb p "/mixed/" then inr {| statsType := IsDirectory; mtime := 0 |}
       else if endsWith p sep then inr {| statsType := IsDirectory; mtime := 0 |}
       else inr {| statsType := IsFile; mtime := 0 |} |}.

(** [makeTestFileChecker], of the module that runs the tests of a
    folder: the item filter that [onlyLastModified] installs. *)
Definition makeTestFileChecker (time maxExecutionAge : Z) : string -> Stats -> bool :=
  fun _pathname fsStats =>
    Stats_isFile fsStats && (maxExecutionAge <=? time - mtime fsStats)%Z.

(** A walker with the default options and the item filter [f], about to
    read [pathname]. *)
Definition filteringWalkerAt (f : string -> Stats -> bool) (pathname : string)
  : FolderWalker :=
  {| absoluteResolvedPathnames := [pathname];
     options := {| arraySortFunction := Some sortFilesFirstThenAlphabetically;
                   arrayFilterFunction := None;
                   depthLimit := None;
                   itemFilter := Some f |};
     absoluteLengthLimit := None |}.

Definition depthLimitOptions (limit : Z) : PartialFolderWalkerOptions :=
  {| arraySortFunction' := None; arrayFilterFunction' := None;
     depthLimit' := Some (Some limit); itemFilter' := None |}.

Definition aTxt : AbsolutePathItem :=
  FileItem {| fileFolderPathname := "/root/"; fileName := "a"; extension := "txt" |}.
Definition rootFolder : AbsolutePathItem := FolderItem {| folderPathname := "/root/" |}.
Definition bFolder : AbsolutePathItem := FolderItem {| folderPathname := "/root/b/" |}.

(** A walker with the default options about to read [pathname]. *)
Definition walkerAt (pathname : string) : FolderWalker :=
  {| absoluteResolvedPathnames := [pathname];
     options := DEFAULT_FOLDER_WALKER_OPTIONS;
     absoluteLengthLimit := None |}.

End WalkFolder.

(** * Vocabulary of the properties and sample inputs *)

Module Vocabulary.
Import TestCallEngine.

(** How a record is counted by the statistics. *)
Definition countsAsOk (e : TestCallExecution) : Prop :=
  testExecutionStatus e = DONE_EXECUTION ∧ passed e = true.

Definition countsAsSkipped (e : TestCallExecution) : Prop :=
  testExecutionStatus e = SKIPPED_EXECUTION.

Definition countsAsKo (e : TestCallExecution) : Prop :=
  ¬ countsAsOk e ∧ ¬ countsAsSkipped e.

Definition countOf (P : TestCallExecution → Prop) `{∀ e, Decision (P e)}
  (l : list TestCallExecution) : Z :=
  Z.of_nat (length (filter P l)).

(** A record the run went past without cancelling: the call was made
    and its result compared, or the call was skipped, which needs the
    option and an explicit timeout. *)
Definition wentPast (skip : bool) (e : TestCallExecution) : Prop :=
  testExecutionStatus e = DONE_EXECUTION
  ∨ (testExecutionStatus e = SKIPPED_EXECUTION
     ∧ skip = true ∧ timeoutDuration (testCall e) ≠ None).

Definition statuses (l : list TestCallExecution) : list TestExecutionStatus :=
  testExecutionStatus <$> l.

End Vocabulary.

Module WalkVocabulary.
Import WalkFolder.

(** What [readdir] gives: entries with names that are not empty and
    differ from one another. *)
Definition wellFormedListing (fsDirents : list Dirent) : Prop :=
  NoDup (name <$> fsDirents) ∧ Forall (λ d, name d ≠ EmptyString) fsDirents.

(** Strictly ascending lexicographic order by name. *)
Definition nameBefore (a b : Dirent) : Prop := String.ltb (name a) (name b) = true.

Definition isFileEntry (d : Dirent) : Prop := direntType d = IsFile.
Definition isDirectoryEntry (d : Dirent) : Prop := direntType d = IsDirectory.

(** The order in which [pop] returns the pathnames of the array. *)
Definition popOrder (stack : list string) : list string := reverse stack.

(** The pathnames some entries of [pathname] are pushed under. *)
Definition pathnamesIn (pathname : string) (entries : list Dirent) : list string :=
  omap (pushedPathname pathname) entries.

(** A name as a directory listing gives it: not empty, neither [.] nor
    [..], without the separator. *)
Definition isEntryName (s : string) : Prop :=
  s ≠ EmptyString ∧ s ≠ "." ∧ s ≠ ".."
  ∧ JsString.countChars (JsString.isChar sep) s = 0.

(** The pathname of a file of [pathname], and the pathname of a folder
    of [pathname], which ends with the separator. *)
Definition filePathnameOf (pathname : string) (d : Dirent) : string :=
  join pathname (name d).

Definition folderPathnameOf (pathname : string) (d : Dirent) : string :=
  if JsString.endsWith (join pathname (name d)) sep then join pathname (name d)
  else (join pathname (name d) ++ "/")%string.

(** Directories sort before the other entries. *)
Definition rank (d : Dirent) : nat := if Dirent_isDirectory d then 0 else 1.

(** [compare] lets [a] come before [b]. *)
Definition goesBefore {A} (compare : A → A → Z) (a b : A) : Prop := (compare a b ≤ 0)%Z.

(** An item filter lets the loop of [folderWalker_NextItem] stop at an
    item: there is no filter, or it returns [false]. *)
Definition stopsAt (itemFilter : option (string → Stats → bool))
  (pathname : string) (fsStats : Stats) : Prop :=
  match itemFilter with
  | None => True
  | Some f => f pathname fsStats = false
  end.

(** Read on from the array [stack], the stream yields [items] and then
    stands as [finish] says. *)
Definition walksTo (fs : FileSystem) (w : FolderWalker) (stack : list string)
  (items : list PathItems.AbsolutePathItem) (finish : StreamEnd) : Prop :=
  ∃ fuel, walk fuel fs (withPathnames w stack) = (items, finish).

End WalkVocabulary.

Module Samples.
Import TestCallEngine.

Definition quick : list JsValue → CallOutcome := fun _ => Returns (JsNumber 1).
Definition takes50 : list JsValue → CallOutcome := fun _ => FulfilsAfter 50 (JsNumber 2).
Definition takes500 : list JsValue → CallOutcome := fun _ => FulfilsAfter 500 (JsNumber 2).

(** Three tests; the second has a timeout of 10 and takes 50. *)
Definition timeoutInTheMiddle : list Registration :=
  [ {| regTimeout := None; regFn := quick; regValues := [];
       regExpectation := ExpectEquals (JsNumber 1) |};
    {| regTimeout := Some 10%Z; regFn := takes50; regValues := [];
       regExpectation := ExpectEquals (JsNumber 2) |};
    {| regTimeout := None; regFn := quick; regValues := [];
       regExpectation := ExpectEquals (JsNumber 1) |} ].

(** Three tests; the first has an explicit timeout, the second has none
    and takes longer than the default one. *)
Definition timeboxedThenSlow : list Registration :=
  [ {| regTimeout := Some 50%Z; regFn := quick; regValues := [];
       regExpectation := ExpectEquals (JsNumber 1) |};
    {| regTimeout := None; regFn := takes500; regValues := [];
       regExpectation := ExpectEquals (JsNumber 2) |};
    {| regTimeout := None; regFn := quick; regValues := [];
       regExpectation := ExpectEquals (JsNumber 1) |} ].

Definition registered (statements : list Registration) : TestCallSupervisor :=
  importTestFile statements makeTestCallSupervisor.

Definition skipping : TestExecutionOptions := {| skipTimeboxedTests := true |}.
Definition notSkipping : TestExecutionOptions := {| skipTimeboxedTests := false |}.

Definition MyError : JsClass := DerivedClass "MyError" ErrorClass.

(** A test of a function that throws [new MyError("boom")], expecting
    [new MyError(message)]. *)
Definition expectsMyError (message : string) : TestCallExecution :=
  initializeTestCallExecution (makeErrorTestCallResult (newErrorOf MyError message))
    {| fn := fun _ => Throws (newErrorOf MyError "boom"); values := [];
       timeoutDuration := None |}.

(** A test that expects the class [Error] of a function with the given
    outcome. *)
Definition expectsError (outcome : CallOutcome) : TestCallExecution :=
  initializeTestCallExecution (makeErrorTestCallResult (JsFunction ErrorClass))
    {| fn := fun _ => outcome; values := []; timeoutDuration := None |}.

(** A test of an asynchronous function that rejects with [null] after 5
    milliseconds, expecting the class [Error]. *)
Definition rejectsWithNull : TestCallExecution :=
  initializeTestCallExecution (makeErrorTestCallResult (JsFunction ErrorClass))
    {| fn := fun _ => RejectsAfter 5 JsNull; values := []; timeoutDuration := None |}.

End Samples.

(** ** ts/02_path-items.ts (from an item back to its pathname) *)

Module PathItemsText.
Import JsString Pathname PathItems.

(** The pattern of [isFileItem] matches the items with [folder: false],
    a [fileName] and an [extension]: the file items. *)
Definition isFileItem (pathItem : AbsolutePathItem) : bool :=
  match pathItem with
  | FileItem _ => true
  | FolderItem _ => false
  end.

Definition itemFolderPathname (pathItem : AbsolutePathItem) : string :=
  match pathItem with
  | FileItem file => fileFolderPathname file
  | FolderItem folder => folderPathname folder
  end.

Definition asPathname (pathItem : AbsolutePathItem) : string :=
  match pathItem with
  | FileItem file =>
      if String.eqb (extension file) EmptyString
      then fileFolderPathname file ++ fileName file
      else fileFolderPathname file ++ fileName file ++ String dot (extension file)
  | FolderItem folder => folderPathname folder
  end.

End PathItemsText.

(** ** The module that runs the tests of a folder *)

Module TestFolder.
Import TestCallEngine PathItems PathItemsText.

Definition hasJsLikeExtension (absoluteFile : AbsoluteFile) : bool :=
  String.eqb (extension absoluteFile) "js" || String.eqb (extension absoluteFile) "cjs"
  || String.eqb (extension absoluteFile) "mjs".

(** What is written on the console for a record, without the layout:
    the call, the error whose text is written, the texts of [pprint]. *)
Inductive Report : Type :=
| NotExecuted (reported : TestCall)
| CancelledExecution (reported : TestCall) (executionError : JsValue)
| FailedComparison (expectedText obtainedText : option string)
    (printedArguments : list (option string)).

(** [array.map(pprint)], which stops at the first exception. *)
Fixpoint mapPprint (l : list JsValue) : Completion (list (option string)) :=
  match l with
  | [] => Normal []
  | v :: l' =>
      match pprint v with
      | Throw thrown => Throw thrown
      | Normal text =>
          match mapPprint l' with
          | Throw thrown => Throw thrown
          | Normal texts => Normal (text :: texts)
          end
      end
  end.

(** Reading a property of [null] *)
Definition cannotRead (property : string) : JsValue :=
  newErrorOf TypeErrorClass
    ("Cannot read properties of null (reading '" ++ property ++ "')").

(** [reportFailedComparison], as far as it can throw: the three uses of
    [pprint], in the order of the source; the rows that show the code of
    the function are layout. *)
Definition reportFailedComparison (expectedTestCallResult : TestCallResult)
  (obtainedTestCallResult : option TestCallResult) (reported : TestCall)
  : Completion Report :=
  match pprint (match error expectedTestCallResult with
                | JsNull => value expectedTestCallResult
                | expectedError => expectedError
                end) with
  | Throw thrown => Throw thrown
  | Normal expectedValue =>
      match obtainedTestCallResult with
      | None => Throw (cannotRead "error")
      | Some obtainedTestCallResult =>
          match pprint (match error obtainedTestCallResult with
                        | JsNull => value obtainedTestCallResult
                        | obtainedError => obtainedError
                        end) with
          | Throw thrown => Throw thrown
          | Normal obtainedValue =>
              match mapPprint (values reported) with
              | Throw thrown => Throw thrown
              | Normal printedArguments =>
                  Normal (FailedComparison expectedValue obtainedValue printedArguments)
              end
          end
      end
  end.

(** [printTestCall], as far as it can throw: [pprint] of the values. *)
Definition printTestCall (reported : TestCall) : Completion (list (option string)) :=
  mapPprint (values reported).

(** [None]: nothing is written.  A cancelled record without an error,
    which [run] never makes, stops the report on reading the error,
    after the line of the call is written; that line is not kept. *)
Definition reportTestCallExecution (testCallExecution : TestCallExecution)
  : Completion (option Report) :=
  if bool_decide (testExecutionStatus testCallExecution = INITIALIZED_EXECUTION) then
    match printTestCall (testCall testCallExecution) with
    | Throw thrown => Throw thrown
    | Normal _ => Normal (Some (NotExecuted (testCall testCallExecution)))
    end
  else if bool_decide (testExecutionStatus testCallExecution = CANCELLED_EXECUTION) then
    match printTestCall (testCall testCallExecution) with
    | Throw thrown => Throw thrown
    | Normal _ =>
        match executionError testCallExecution with
        | Some e => Normal (Some (CancelledExecution (testCall testCallExecution) e))
        | None => Throw (cannotRead "toString")
        end
    end
  else if negb (bool_decide (testExecutionStatus testCallExecution = SKIPPED_EXECUTION))
          && negb (passed testCallExecution) then
    match reportFailedComparison (expected testCallExecution) (obtained testCallExecution)
            (testCall testCallExecution) with
    | Normal report => Normal (Some report)
    | Throw thrown => Throw thrown
    end
  else Normal None.

(** [testCallExecutions.forEach(reportTestCallExecution)]: what is
    written, and the exception that stopped the loop, if any. *)
Fixpoint reportAll (testCallExecutions : list TestCallExecution)
  : list Report * option JsValue :=
  match testCallExecutions with
  | [] => ([], None)
  | testCallExecution :: others =>
      match reportTestCallExecution testCallExecution with
      | Throw thrown => ([], Some thrown)
      | Normal report =>
          let '(reports, thrown) := reportAll others in
          ((option_list report ++ reports)%list, thrown)
      end
  end.

Definition AggregateErrorClass : JsClass := DerivedClass "AggregateError" ErrorClass.

(** [new AggregateError(errors)], the array [errors] as the properties
    0, 1, ... of the error. *)
Definition newAggregateError (errors : list JsValue) : JsValue :=
  JsObject (Some AggregateErrorClass) (imap (fun i e => (pretty i, e)) errors).

(** What [import()] of a test file does: it runs the statements of the
    file, which register tests, to the end, or up to a statement that
    throws [reason]; the tests registered before that one stay in the
    supervisor. *)
Inductive ImportOutcome : Type :=
| Registers (statements : list Registration)
| ImportFails (statements : list Registration) (reason : JsValue).

(** The promise of the function that [makeImportAndRunTestCalls]
    returns ([None]: not settled), the global statistics and the
    supervisor afterwards, and what [reportTestCallExecution] wrote.
    The line of [reportTestExecutionStatistics], which comes first and
    cannot fail, is not kept. *)
Record FileRun : Type := {
  settled : option (Completion unit);
  globalAfter : TestExecutionStatistics;
  supervisorAfter : TestCallSupervisor;
  written : list Report
}.

Definition failedToImport (absoluteFile : AbsoluteFile) (reason : JsValue) : JsValue :=
  newAggregateError
    [newError ("Failed to import " ++ asPathname (FileItem absoluteFile)); reason].

Definition failedToRun (absoluteFile : AbsoluteFile) (reason : JsValue) : JsValue :=
  newAggregateError
    [newError ("Failed to run the TestCalls from " ++ asPathname (FileItem absoluteFile));
     reason].

(** An exception of [reset] is thrown before the first [try]; what the
    inner [catch] throws is caught by the outer one. *)
Definition makeImportAndRunTestCalls (s : TestCallSupervisor) (absoluteFile : AbsoluteFile)
  (imported : ImportOutcome) (options : TestExecutionOptions)
  (globalTestExecutionStatistics : TestExecutionStatistics) : FileRun :=
  match reset s with
  | Throw thrown =>
      {| settled := Some (Throw thrown); globalAfter := globalTestExecutionStatistics;
         supervisorAfter := s; written := [] |}
  | Normal s0 =>
      match imported with
      | ImportFails statements reason =>
          {| settled := Some (Throw (failedToImport absoluteFile reason));
             globalAfter := globalTestExecutionStatistics;
             supervisorAfter := importTestFile statements s0; written := [] |}
      | Registers statements =>
          match run options (importTestFile statements s0) with
          | (Resolved testCallExecutions _, s1) =>
              let testExecutionStatistics := makeTestExecutionStatistics testCallExecutions in
              if (0 <? total testExecutionStatistics)%Z then
                let added :=
                  addTestExecutionStatistics globalTestExecutionStatistics
                    testExecutionStatistics in
                match reportAll testCallExecutions with
                | (reports, None) =>
                    {| settled := Some (Normal tt); globalAfter := added;
                       supervisorAfter := s1; written := reports |}
                | (reports, Some thrown) =>
                    {| settled :=
                         Some (Throw (failedToImport absoluteFile
                                        (failedToRun absoluteFile thrown)));
                       globalAfter := added; supervisorAfter := s1; written := reports |}
                end
              else
                {| settled := Some (Normal tt); globalAfter := globalTestExecutionStatistics;
                   supervisorAfter := s1; written := [] |}
          | (RejectedRun reason, s1) =>
              {| settled :=
                   Some (Throw (failedToImport absoluteFile (failedToRun absoluteFile reason)));
                 globalAfter := globalTestExecutionStatistics;
                 supervisorAfter := s1; written := [] |}
          | (StillRunning, s1) =>
              {| settled := None; globalAfter := globalTestExecutionStatistics;
                 supervisorAfter := s1; written := [] |}
          end
      end
  end.

End TestFolder.

(** ** ts/01-pathname.ts (the loop of [isRootPath]) *)

Module PathnameLoops.
Import JsString Pathname.

(** The [while] loop of [isRootPath] over the characters from [offset]
    on: it goes on while [count < 2] and returns [count]. *)
Fixpoint countSeparators (fromOffset : string) (count : nat) : nat :=
  match fromOffset with
  | EmptyString => count
  | String c others =>
      if (count <? 2)%nat then
        countSeparators others (if SEPARATOR_REGEXP c then S count else count)
      else count
  end.

(** [isRootPath], statement by statement. *)
Definition isRootPathByLoop (pathname : string) : bool :=
  if isAbsolute pathname then bool_decide (countSeparators pathname 0 = 1)
  else false.

End PathnameLoops.

(** * More vocabulary *)

Module RunVocabulary.
Import TestCallEngine.

(** The engine makes the call of a record, rather than skip it: it does
    unless the run skips the timeboxed tests and the call has an explicit
    timeout. *)
Definition isExecuted (skip : bool) (e : TestCallExecution) : Prop :=
  timeoutDuration (testCall e) = None ∨ skip = false.

(** The same call with the same expectation. *)
Definition sameTest (e e' : TestCallExecution) : Prop :=
  testCall e' = testCall e ∧ expected e' = expected e.

(** The timeout a call is run with. *)
Definition durationOf (e : TestCallExecution) : Z :=
  default DEFAULT_TIMEOUT_DURATION (timeoutDuration (testCall e)).

(** The record that a statement of a test file registers, if it does:
    the call as [makeTestCallSpecifier] captured it, with the
    expectation of [equals] or [throws]. *)
Definition recordOf (r : Registration) : option TestCallExecution :=
  let captured :=
    {| fn := regFn r; values := regValues r; timeoutDuration := regTimeout r |} in
  match regExpectation r with
  | NoExpectation => None
  | ExpectEquals v =>
      Some (initializeTestCallExecution (makeNormalTestCallResult v) captured)
  | ExpectThrows e =>
      Some (initializeTestCallExecution (makeErrorTestCallResult e) captured)
  end.

End RunVocabulary.

Module TreeVocabulary.
Import JsString Pathname PathItems WalkFolder WalkVocabulary.

(** The names [readdir] gives are names of entries, without a
    backslash. *)
Definition namesAreNames (fs : FileSystem) : Prop :=
  ∀ pathname fsDirents d,
    readdir fs pathname = inr fsDirents → d ∈ fsDirents →
    isEntryName (name d) ∧ countChars (isChar backslash) (name d) = 0.

(** [stat] does not find a folder where [readdir] listed a file. *)
Definition filesAreNotFolders (fs : FileSystem) : Prop :=
  ∀ pathname fsDirents d fsStats,
    readdir fs pathname = inr fsDirents → d ∈ fsDirents →
    direntType d = IsFile →
    stat fs (join pathname (name d)) = inr fsStats →
    statsType fsStats ≠ IsDirectory.

(** A pathname of the array that respects the limit of segments: it has
    at most one segment more and no backslash, and if it is the pathname
    of a folder it ends with the separator, is absolute and is left as
    it is by [path.normalize]. *)
Definition withinLimit (fs : FileSystem) (limit : Z) (pathname : string) : Prop :=
  (segmentCount sep pathname ≤ limit + 1)%Z
  ∧ countChars (isChar backslash) pathname = 0
  ∧ ∀ fsStats, stat fs pathname = inr fsStats → statsType fsStats = IsDirectory →
               endsWith pathname sep = true ∧ isAbsolute pathname = true
               ∧ normalize pathname = pathname.


(** [/root/] holds the folder [old./], which holds nothing. *)
Definition dottedFs : FileSystem :=
  {| readdir := fun p =>
       if String.eqb p "/root/" then inr [ {| name := "old."; direntType := IsDirectory |} ]
       else inr [];
     stat := fun _ => inr {| statsType := IsDirectory; mtime := 0 |} |}.

End TreeVocabulary.

(** * Properties *)

Local Close Scope string_scope.

(** ** Statistics *)

Section Statistics.
Import TestCallEngine Vocabulary.

Lemma addTestExecution_counts e stats :
  let stats' := addTestExecution e stats in
  ok stats' = (ok stats + countOf countsAsOk [e])%Z
  ∧ ko stats' = (ko stats + countOf countsAsKo [e])%Z
  ∧ skipped stats' = (skipped stats + countOf countsAsSkipped [e])%Z
  ∧ total stats' = (total stats + 1)%Z.
Proof.
  unfold addTestExecution, countOf, countsAsKo, countsAsOk, countsAsSkipped.
  destruct e as [tc status p o ex err]; simpl.
  destruct status, p; simpl; repeat split;
    rewrite ?filter_cons, ?filter_nil; simpl;
    repeat case_decide; simpl; try lia; intuition congruence.
Qed.

Lemma countOf_cons P `{∀ e, Decision (P e)} e l :
  countOf P (e :: l) = (countOf P [e] + countOf P l)%Z.
Proof.
  unfold countOf. rewrite !filter_cons, filter_nil.
  case_decide; simpl; lia.
Qed.

Lemma countOf_partition l :
  (countOf countsAsOk l + countOf countsAsKo l + countOf countsAsSkipped l
   = Z.of_nat (length l))%Z.
Proof.
  induction l as [|e l IH]; [reflexivity|].
  rewrite (countOf_cons countsAsOk e l), (countOf_cons countsAsKo e l),
    (countOf_cons countsAsSkipped e l), length_cons.
  enough (countOf countsAsOk [e] + countOf countsAsKo [e] + countOf countsAsSkipped [e] = 1)%Z
    by lia.
  unfold countOf. rewrite !filter_cons, !filter_nil.
  unfold countsAsKo, countsAsOk, countsAsSkipped.
  destruct e as [tc status p o ex err]; cbn.
  destruct status, p; repeat case_decide; cbn; try lia; intuition congruence.
Qed.

Lemma fold_addTestExecution_counts l : ∀ stats,
  let stats' := fold_left (fun stats e => addTestExecution e stats) l stats in
  ok stats' = (ok stats + countOf countsAsOk l)%Z
  ∧ ko stats' = (ko stats + countOf countsAsKo l)%Z
  ∧ skipped stats' = (skipped stats + countOf countsAsSkipped l)%Z
  ∧ total stats' = (total stats + Z.of_nat (length l))%Z.
Proof.
  induction l as [|e l IH]; intros stats; cbn zeta.
  - unfold countOf; cbn. repeat split; lia.
  - cbn [fold_left].
    destruct (IH (addTestExecution e stats)) as (Hok & Hko & Hsk & Htot).
    destruct (addTestExecution_counts e stats) as (Hok1 & Hko1 & Hsk1 & Htot1).
    rewrite Hok, Hko, Hsk, Htot, Hok1, Hko1, Hsk1, Htot1.
    rewrite (countOf_cons countsAsOk e l), (countOf_cons countsAsKo e l),
      (countOf_cons countsAsSkipped e l), length_cons.
    repeat split; lia.
Qed.

(** C7. For every list of execution records, the statistics have
    [ok + ko + skipped = total = number of records]; [ok] counts the
    records that are done and passed, [skipped] the skipped ones and
    [ko] all the others, whatever their status. *)
Theorem statistics_partition (l : list TestCallExecution) :
  let stats := makeTestExecutionStatistics l in
  (ok stats + ko stats + skipped stats = total stats)%Z
  ∧ total stats = Z.of_nat (length l)
  ∧ ok stats = countOf countsAsOk l
  ∧ skipped stats = countOf countsAsSkipped l
  ∧ ko stats = countOf countsAsKo l
  ∧ (∀ e,
       testExecutionStatus e = INITIALIZED_EXECUTION
       ∨ testExecutionStatus e = CANCELLED_EXECUTION
       ∨ (testExecutionStatus e = DONE_EXECUTION ∧ passed e = false) →
       countsAsKo e).
Proof.
  destruct (fold_addTestExecution_counts l newTestExecutionStatistics)
    as (Hok & Hko & Hsk & Htot).
  cbn zeta. unfold makeTestExecutionStatistics.
  rewrite Hok, Hko, Hsk, Htot. cbn [ok ko skipped total newTestExecutionStatistics].
  pose proof (countOf_partition l).
  split_and!; try lia.
  intros e Hstatus. unfold countsAsKo, countsAsOk, countsAsSkipped.
  intuition congruence.
Qed.

End Statistics.

(** ** The engine *)

Section Engine.
Import TestCallEngine Vocabulary.



Lemma setStatus_testCall st e : testCall (setStatus st e) = testCall e.
Proof. reflexivity. Qed.

Lemma compareWithObtainedError_status reason e e' u :
  compareWithObtainedError reason e = (e', Normal u) →
  testExecutionStatus e' = DONE_EXECUTION ∧ testCall e' = testCall e.
Proof.
  unfold compareWithObtainedError.
  repeat case_match; intros; simplify_eq; done.
Qed.

Lemma executeTestCall_timed_out e defaultDelay e' continuation :
  executeTestCall e defaultDelay = (e', continuation, true) →
  continuation = CancelExecution
  ∧ testExecutionStatus e' = CANCELLED_EXECUTION.
Proof.
  unfold executeTestCall, race, onFulfilled, onRejected.
  repeat case_match; intros; simplify_eq; done.
Qed.

Lemma executeTestCall_next e defaultDelay e' hasTimedOut :
  executeTestCall e defaultDelay = (e', ExecuteNextTestCall, hasTimedOut) →
  hasTimedOut = false
  ∧ testExecutionStatus e' = DONE_EXECUTION ∧ testCall e' = testCall e.
Proof.
  unfold executeTestCall, race, onFulfilled, onRejected.
  repeat case_match; intros; simplify_eq; try done.
  match goal with
  | H : compareWithObtainedError _ _ = _ |- _ =>
      apply compareWithObtainedError_status in H as [? ?]; auto
  end.
Qed.

(** With a unit of fuel per record left and one more, the loop returns. *)
Lemma executeNextTestCall_returns fuel defaultDelay skip : ∀ offset st,
  length (executions st) - offset < fuel →
  is_Some (executeNextTestCall fuel defaultDelay skip offset st).
Proof.
  induction fuel as [|fuel IH]; intros offset st Hfuel; [lia|].
  cbn [executeNextTestCall].
  case_bool_decide as Hoffset; [|by eexists].
  destruct (executions st !! offset) as [e|] eqn:He.
  - destruct (bool_decide (timeoutDuration (testCall e) = None) || negb skip).
    + destruct (executeTestCall e defaultDelay) as [[e' continuation] hasTimedOut].
      destruct continuation; [|by eexists].
      apply IH. cbn. rewrite length_insert. lia.
    + apply IH. cbn. rewrite length_insert. lia.
  - apply IH. lia.
Qed.

Lemma run_never_still_running options s : (run options s).1 ≠ StillRunning.
Proof.
  unfold run. destruct (running s); [done|].
  unfold executeTestCalls.
  destruct (executeNextTestCall_returns (S (length (testCallExecutions s)))
              DEFAULT_TIMEOUT_DURATION (skipTimeboxedTests options) 0
              {| executions := testCallExecutions s; events := [] |}) as [st ->];
    [cbn; lia|done].
Qed.

Lemma executeNextTestCall_spec fuel defaultDelay skip : ∀ offset st st',
  executeNextTestCall fuel defaultDelay skip offset st = Some st' →
  length (executions st') = length (executions st)
  ∧ (∀ i, i < offset → executions st' !! i = executions st !! i)
  ∧ ∃ new, events st' = events st ++ new
      ∧ ∀ k, TimerFired k ∈ new →
          offset ≤ k
          ∧ (∃ e, executions st' !! k = Some e
                  ∧ testExecutionStatus e = CANCELLED_EXECUTION)
          ∧ (∀ i, k < i → executions st' !! i = executions st !! i)
          ∧ (∀ i, offset ≤ i < k →
               ∃ e, executions st' !! i = Some e ∧ wentPast skip e).
Proof.
  induction fuel as [|fuel IH]; intros offset st st'; [discriminate|].
  cbn [executeNextTestCall].
  case_bool_decide as Hoffset.
  2:{ intros [= <-]. split_and!; [done..|].
      exists []. rewrite app_nil_r. split; [done|]. intros k Hk. inversion Hk. }
  destruct (executions st !! offset) as [e|] eqn:He.
  2:{ apply lookup_ge_None in He. lia. }
  destruct (bool_decide (timeoutDuration (testCall e) = None) || negb skip) eqn:Hexecuted.
  - destruct (executeTestCall e defaultDelay) as [[e' continuation] hasTimedOut] eqn:Hcall.
    destruct continuation.
    + apply executeTestCall_next in Hcall as (-> & Hdone & Htc).
      intros Hrun. apply IH in Hrun as (Hlen & Hbefore & new & Hevents & Hnew).
      cbn in Hlen, Hbefore, Hevents, Hnew. rewrite length_insert in Hlen.
      split_and!; [done| |].
      { intros i Hi. rewrite Hbefore by lia. apply list_lookup_insert_ne. lia. }
      exists (CallStarted offset :: new). split.
      { rewrite Hevents, <- app_assoc. done. }
      intros k Hk. apply elem_of_cons in Hk as [Hk|Hk]; [discriminate|].
      destruct (Hnew k Hk) as (Hle & Hcancelled & Hafter & Hrange).
      split_and!; [lia|done| |].
      { intros i Hi. rewrite Hafter by lia. apply list_lookup_insert_ne. lia. }
      intros i Hi. destruct (decide (i = offset)) as [->|Hne].
      * exists e'. split; [|by left].
        rewrite Hbefore by lia. by apply list_lookup_insert_eq.
      * apply Hrange. lia.
    + intros [= <-]. cbn. rewrite length_insert.
      split_and!; [done| |].
      { intros i Hi. apply list_lookup_insert_ne. lia. }
      eexists. split; [done|].
      intros k Hk. apply elem_of_cons in Hk as [Hk|Hk]; [discriminate|].
      destruct hasTimedOut; [|inversion Hk].
      apply list_elem_of_singleton in Hk as [= ->].
      apply executeTestCall_timed_out in Hcall as [_ Hcancelled].
      split_and!; [lia| | |].
      * exists e'. split; [|done]. by apply list_lookup_insert_eq.
      * intros i Hi. apply list_lookup_insert_ne. lia.
      * intros i Hi. lia.
  - apply orb_false_elim in Hexecuted as [Htimeout Hskip].
    apply bool_decide_eq_false in Htimeout. apply negb_false_iff in Hskip.
    intros Hrun. apply IH in Hrun as (Hlen & Hbefore & new & Hevents & Hnew).
    cbn in Hlen, Hbefore, Hevents, Hnew. rewrite length_insert in Hlen.
    split_and!; [done| |].
    { intros i Hi. rewrite Hbefore by lia. apply list_lookup_insert_ne. lia. }
    exists (CallSkipped offset :: new). split.
    { rewrite Hevents, <- app_assoc. done. }
    intros k Hk. apply elem_of_cons in Hk as [Hk|Hk]; [discriminate|].
    destruct (Hnew k Hk) as (Hle & Hcancelled & Hafter & Hrange).
    split_and!; [lia|done| |].
    { intros i Hi. rewrite Hafter by lia. apply list_lookup_insert_ne. lia. }
    intros i Hi. destruct (decide (i = offset)) as [->|Hne].
    * exists (setStatus SKIPPED_EXECUTION e). split; [|by right].
      rewrite Hbefore by lia. by apply list_lookup_insert_eq.
    * apply Hrange. lia.
Qed.

Lemma register_running r s : running (register r s) = running s.
Proof. unfold register. destruct (regTimeout r), (regExpectation r); reflexivity. Qed.

Lemma register_initialized r s :
  Forall (λ e, testExecutionStatus e = INITIALIZED_EXECUTION) (testCallExecutions s) →
  Forall (λ e, testExecutionStatus e = INITIALIZED_EXECUTION)
         (testCallExecutions (register r s)).
Proof.
  intros Hs. unfold register.
  destruct (regTimeout r), (regExpectation r); cbn; try done;
    apply Forall_app; split; try done; by repeat constructor.
Qed.

Lemma importTestFile_fresh statements : ∀ s,
  running (importTestFile statements s) = running s
  ∧ (Forall (λ e, testExecutionStatus e = INITIALIZED_EXECUTION) (testCallExecutions s) →
     Forall (λ e, testExecutionStatus e = INITIALIZED_EXECUTION)
            (testCallExecutions (importTestFile statements s))).
Proof.
  induction statements as [|r statements IH]; intros s; [done|].
  change (importTestFile (r :: statements) s)
    with (importTestFile statements (register r s)).
  destruct (IH (register r s)) as [Hrunning Hinit].
  rewrite Hrunning, register_running. split; [done|].
  intros Hs. by apply Hinit, register_initialized.
Qed.

Lemma importTestFile_app before after s :
  importTestFile (before ++ after) s = importTestFile after (importTestFile before s).
Proof. apply fold_left_app. Qed.

(** C1, as amended. In every run of registered tests in which the timer
    of the second call fires, the first record is done, or skipped when
    the run skips timeboxed tests and the first test has an explicit
    timeout; the second record is cancelled; every later record is as
    it was registered, still initialized. *)
Theorem timeout_aborts_the_remaining_run statements options result log s' :
  run options (importTestFile statements makeTestCallSupervisor) = (Resolved result log, s') →
  TimerFired 1 ∈ log →
  ∃ first second later,
    result = first :: second :: later
    ∧ wentPast (skipTimeboxedTests options) first
    ∧ testExecutionStatus second = CANCELLED_EXECUTION
    ∧ later = drop 2 (testCallExecutions (importTestFile statements makeTestCallSupervisor))
    ∧ Forall (λ e, testExecutionStatus e = INITIALIZED_EXECUTION) later.
Proof.
  destruct (importTestFile_fresh statements makeTestCallSupervisor) as [Hrunning Hinit].
  specialize (Hinit (Forall_nil_2 _)). cbn in Hrunning.
  unfold run. rewrite Hrunning. unfold executeTestCalls.
  destruct (executeNextTestCall _ _ _ _ _) as [st|] eqn:Hloop; [|discriminate].
  intros [= <- <- <-] Hfired.
  apply executeNextTestCall_spec in Hloop as (Hlen & _ & new & Hevents & Hnew).
  cbn in Hlen, Hevents, Hnew. rewrite Hevents in Hfired.
  destruct (Hnew 1 Hfired) as (_ & (second & Hsecond & Hcancelled) & Hafter & Hrange).
  destruct (Hrange 0) as (first & Hfirst & Hpast); [lia|].
  destruct (executions st) as [|first' [|second' later]] eqn:Hresult; try discriminate.
  cbn in Hfirst, Hsecond. simplify_eq.
  exists first, second, later.
  assert (later = drop 2 (testCallExecutions (importTestFile statements makeTestCallSupervisor)))
    as Hlater.
  { apply list_eq. intros i. rewrite lookup_drop, <- Hafter by lia. done. }
  split_and!; try done.
  rewrite Hlater. by apply Forall_drop.
Qed.

(** C9. A statement [$(fn, ...values)] or [$.stopPast(timeout, fn,
    ...values)] on which neither [equals] nor [throws] is called leaves
    the supervisor as it was, whatever comes before and after it in the
    test file, and [run] resolves with the records of the other
    statements only; alone in a file, it gives an empty result. *)
Theorem no_check_no_test timeout f vs before after options s :
  let unchecked :=
    {| regTimeout := timeout; regFn := f; regValues := vs; regExpectation := NoExpectation |} in
  (call f vs s).2 = s
  ∧ (∀ duration, (stopPast duration f vs s).2 = s)
  ∧ register unchecked s = s
  ∧ testCallExecutions (importTestFile (before ++ unchecked :: after) s)
    = testCallExecutions (importTestFile (before ++ after) s)
  ∧ run options (importTestFile (before ++ unchecked :: after) s)
    = run options (importTestFile (before ++ after) s)
  ∧ (run options (importTestFile [unchecked] makeTestCallSupervisor)).1 = Resolved [] [].
Proof.
  cbn zeta.
  assert (∀ s, register {| regTimeout := timeout; regFn := f; regValues := vs;
                           regExpectation := NoExpectation |} s = s) as Hregister.
  { intros s0. unfold register. by destruct timeout. }
  assert (importTestFile
            (before ++ {| regTimeout := timeout; regFn := f; regValues := vs;
                          regExpectation := NoExpectation |} :: after) s
          = importTestFile (before ++ after) s) as Himport.
  { rewrite !importTestFile_app. cbn. by rewrite Hregister. }
  split_and!; try done.
  - by rewrite Himport.
  - by rewrite Himport.
  - destruct timeout; reflexivity.
Qed.

Lemma timeout_aborts_the_remaining_run_witness :
  ∃ result log s',
    run Samples.notSkipping (Samples.registered Samples.timeoutInTheMiddle)
    = (Resolved result log, s')
    ∧ TimerFired 1 ∈ log
    ∧ ∃ first second later,
        result = first :: second :: later
        ∧ wentPast false first
        ∧ testExecutionStatus second = CANCELLED_EXECUTION
        ∧ later = drop 2 (testCallExecutions (Samples.registered Samples.timeoutInTheMiddle))
        ∧ Forall (λ e, testExecutionStatus e = INITIALIZED_EXECUTION) later.
Proof.
  eexists _, _, _. split; [reflexivity|].
  split; [by repeat constructor|].
  apply (timeout_aborts_the_remaining_run Samples.timeoutInTheMiddle Samples.notSkipping _ _ _
           eq_refl).
  by repeat constructor.
Defined.

(** C1, as stated, fails: with the option to skip timeboxed tests, a
    first test with an explicit timeout is skipped, not done, and the
    timer of the second call still fires. *)
Lemma first_record_skipped_before_timeout :
  ∃ result log s',
    run Samples.skipping (Samples.registered Samples.timeboxedThenSlow)
    = (Resolved result log, s')
    ∧ length (testCallExecutions (Samples.registered Samples.timeboxedThenSlow)) = 3
    ∧ TimerFired 1 ∈ log
    ∧ statuses result = [SKIPPED_EXECUTION; CANCELLED_EXECUTION; INITIALIZED_EXECUTION]
    ∧ statuses result !! 0 ≠ Some DONE_EXECUTION.
Proof.
  eexists _, _, _. split; [reflexivity|].
  split_and!; [reflexivity|by repeat constructor|reflexivity|discriminate].
Qed.

Lemma compareWithObtainedError_no_constructor reason e :
  reason = JsNull ∨ reason = JsUndefined →
  ∃ thrown e1,
    compareWithObtainedError reason e = (e1, Throw thrown)
    ∧ obtained e1 = obtained e.
Proof.
  intros [-> | ->]; unfold compareWithObtainedError;
    destruct (error (expected e)) as [| | | | | | | c |proto props]; cbn;
    repeat case_match; simplify_eq; eauto.
Qed.

(** C10. When the call of a test that the run executes returns a promise
    that rejects with [null] or [undefined] before the timer fires,
    recording the failure throws, the record ends cancelled with the
    exception as its error and nothing obtained, the run resolves at
    once with the later records untouched, and the timer has not
    fired. *)
Theorem rejection_without_constructor_cancels_the_run
  fuel defaultDelay skip offset st e delay reason :
  executions st !! offset = Some e →
  timeoutDuration (testCall e) = None ∨ skip = false →
  fn (testCall e) (values (testCall e)) = RejectsAfter delay reason →
  reason = JsNull ∨ reason = JsUndefined →
  (delay ≤ timerDelay (default defaultDelay (timeoutDuration (testCall e))))%Z →
  ∃ thrown e',
    (compareWithObtainedError reason e).2 = Throw thrown
    ∧ executeNextTestCall (S fuel) defaultDelay skip offset st
      = Some {| executions := <[offset := e']> (executions st);
                events := events st ++ [CallStarted offset] |}
    ∧ testExecutionStatus e' = CANCELLED_EXECUTION
    ∧ obtained e' = obtained e
    ∧ executionError e' = Some thrown
    ∧ instanceofError thrown = true.
Proof.
  intros He Hexecuted Hfn Hreason Hdelay.
  destruct (compareWithObtainedError_no_constructor reason e Hreason)
    as (thrown & e1 & Hcompare & Hobtained).
  assert (instanceofError thrown = true) as Hthrown.
  { revert Hcompare. unfold compareWithObtainedError.
    destruct Hreason as [-> | ->];
      destruct (error (expected e)) as [| | | | | | | c |proto props]; cbn;
      repeat case_match; intros; simplify_eq; reflexivity. }
  exists thrown, (cancelTestCallExecution thrown e1).
  split; [by rewrite Hcompare|].
  split.
  - cbn [executeNextTestCall].
    rewrite bool_decide_eq_true_2 by (by eapply lookup_lt_Some).
    rewrite He.
    assert (bool_decide (timeoutDuration (testCall e) = None) || negb skip = true) as ->.
    { destruct Hexecuted as [-> | ->]; [done|]. by rewrite orb_true_r. }
    unfold executeTestCall, race, promisedTestResult. rewrite Hfn.
    rewrite (proj2 (Z.leb_le _ _) Hdelay).
    unfold onRejected. rewrite Hcompare. done.
  - unfold cancelTestCallExecution. rewrite Hthrown. done.
Qed.

Lemma rejection_without_constructor_cancels_the_run_witness :
  ∃ thrown e',
    (compareWithObtainedError JsNull Samples.rejectsWithNull).2 = Throw thrown
    ∧ executeNextTestCall 3 200 false 0
        {| executions := [Samples.rejectsWithNull; Samples.expectsMyError "boom"];
           events := [] |}
      = Some {| executions := [e'; Samples.expectsMyError "boom"];
                events := [CallStarted 0] |}
    ∧ testExecutionStatus e' = CANCELLED_EXECUTION
    ∧ obtained e' = None
    ∧ executionError e' = Some thrown
    ∧ instanceofError thrown = true.
Proof.
  apply (rejection_without_constructor_cancels_the_run 2 200 false 0
           {| executions := [Samples.rejectsWithNull; Samples.expectsMyError "boom"];
              events := [] |}
           Samples.rejectsWithNull 5 JsNull).
  - reflexivity.
  - by left.
  - reflexivity.
  - by left.
  - vm_compute. discriminate.
Defined.



(** The same class with another message does not pass. *)
Example same_class_other_message :
  passed (executeTestCall (Samples.expectsMyError "bang") 200).1.1 = false
  ∧ testExecutionStatus (executeTestCall (Samples.expectsMyError "bang") 200).1.1
    = DONE_EXECUTION.
Proof. split; reflexivity. Qed.

(** The reason of a synchronous failure is what [errorFromReason] makes
    of the exception: a thrown string reaches the handler as an [Error],
    so a test that expects the class [Error] passes; rejected by a
    promise, the same string reaches the handler as it is and the test
    does not pass. *)
Example thrown_string_is_an_error :
  instanceofError
    (match race (testCall (Samples.expectsError (Throws (JsString "oops")))) 200 with
     | (Rejected reason, _) => reason
     | (Fulfilled v, _) => v
     end) = true
  ∧ passed (executeTestCall (Samples.expectsError (Throws (JsString "oops"))) 200).1.1 = true
  ∧ passed (executeTestCall (Samples.expectsError (RejectsAfter 5 (JsString "oops"))) 200).1.1
    = false.
Proof. repeat split; reflexivity. Qed.

End Engine.

(** ** The folder walker *)

Section Sorting.
Import WalkFolder WalkVocabulary.

Lemma string_compare_refl s : String.compare s s = Eq.
Proof.
  pose proof (String.compare_antisym s s) as H.
  destruct (String.compare s s); cbn in H; congruence.
Qed.

Lemma string_ltb_total a b : String.ltb a b = false → a ≠ b → String.ltb b a = true.
Proof.
  unfold String.ltb. rewrite (String.compare_antisym b a).
  destruct (String.compare a b) eqn:Hcompare; cbn; try done.
  apply String.compare_eq_iff in Hcompare. congruence.
Qed.

Lemma compareStringsAscending_compare a b :
  a ≠ EmptyString → b ≠ EmptyString →
  compareStringsAscending a b
  = match String.compare a b with Lt => (-1)%Z | Eq => 0%Z | Gt => 1%Z end.
Proof.
  intros Ha Hb. unfold compareStringsAscending.
  rewrite (proj2 (String.eqb_neq a _) Ha), (proj2 (String.eqb_neq b _) Hb). cbn.
  unfold String.ltb.
  destruct (String.compare a b) eqn:Hcompare; [|done|].
  - apply String.compare_eq_iff in Hcompare as ->. by rewrite String.eqb_refl.
  - destruct (String.eqb a b) eqn:Heq; [|done].
    apply String.eqb_eq in Heq as ->. by rewrite string_compare_refl in Hcompare.
Qed.

Lemma sortFilesFirstThenAlphabetically_spec a b :
  name a ≠ EmptyString → name b ≠ EmptyString →
  goesBefore sortFilesFirstThenAlphabetically a b
  ↔ rank a < rank b ∨ (rank a = rank b ∧ String.le (name b) (name a)).
Proof.
  intros Ha Hb. unfold goesBefore, sortFilesFirstThenAlphabetically, rank.
  assert ((-1 * compareStringsAscending (name a) (name b) ≤ 0)%Z
          ↔ String.le (name b) (name a)) as Hsame.
  { rewrite compareStringsAscending_compare by done.
    unfold String.le, String.leb. rewrite (String.compare_antisym (name b) (name a)).
    destruct (String.compare (name a) (name b)); cbn; split; intros; try done; lia. }
  destruct (Dirent_isDirectory a), (Dirent_isDirectory b); cbn [andb];
    rewrite ?Hsame; intuition lia.
Qed.

Lemma insertSorted_Permutation {A} (compare : A → A → Z) x l :
  insertSorted compare x l ≡ₚ x :: l.
Proof.
  induction l as [|y l IH]; cbn; [done|].
  destruct (compare x y <=? 0)%Z; [done|].
  rewrite IH. apply Permutation_swap.
Qed.

Lemma sort_Permutation {A} (compare : A → A → Z) l : sort compare l ≡ₚ l.
Proof.
  induction l as [|x l IH]; cbn; [done|].
  fold (sort compare l). by rewrite insertSorted_Permutation, IH.
Qed.

Section InsertionSort.
Context {A} (compare : A → A → Z) (P : A → Prop).
Hypothesis total : ∀ a b, P a → P b →
  ¬ goesBefore compare a b → goesBefore compare b a.
Hypothesis transitive : ∀ a b c, P a → P b → P c →
  goesBefore compare a b → goesBefore compare b c → goesBefore compare a c.

Lemma insertSorted_StronglySorted x l :
  P x → Forall P l →
  StronglySorted (goesBefore compare) l →
  StronglySorted (goesBefore compare) (insertSorted compare x l).
Proof.
  intros Hx HP Hsorted. induction Hsorted as [|y l Hsorted IH Hy]; cbn.
  { repeat constructor. }
  apply Forall_cons in HP as [HPy HPl].
  destruct (compare x y <=? 0)%Z eqn:Hxy.
  - apply Z.leb_le in Hxy.
    constructor; [by constructor|].
    constructor; [done|].
    rewrite Forall_forall in Hy, HPl |- *. intros z Hz.
    apply (transitive x y z); auto.
  - apply Z.leb_gt in Hxy.
    constructor; [by apply IH|].
    rewrite insertSorted_Permutation. constructor; [|done].
    apply total; [done..|]. unfold goesBefore. lia.
Qed.

Lemma sort_StronglySorted l :
  Forall P l → StronglySorted (goesBefore compare) (sort compare l).
Proof.
  induction 1 as [|x l Hx HP IH]; cbn; [constructor|].
  fold (sort compare l).
  apply insertSorted_StronglySorted; [done| |done].
  by rewrite sort_Permutation.
Qed.
End InsertionSort.

Lemma StronglySorted_reverse {A} (R : relation A) l :
  StronglySorted R l → StronglySorted (flip R) (reverse l).
Proof.
  induction 1 as [|x l Hsorted IH Hx]; [constructor|].
  rewrite reverse_cons. apply StronglySorted_app_2; [|done|repeat constructor].
  intros y x' Hy Hx'. apply list_elem_of_singleton in Hx' as ->.
  rewrite Forall_forall in Hx. apply Hx. by apply elem_of_reverse.
Qed.

(** The default comparator sorts a listing. *)
Lemma default_sort_StronglySorted fsDirents :
  Forall (λ d, name d ≠ EmptyString) fsDirents →
  StronglySorted (goesBefore sortFilesFirstThenAlphabetically)
    (sort sortFilesFirstThenAlphabetically fsDirents).
Proof.
  apply sort_StronglySorted.
  - intros a b Ha Hb.
    rewrite !sortFilesFirstThenAlphabetically_spec by done.
    intros Hnot.
    destruct (decide (rank b < rank a)) as [|Hranks]; [by left|].
    assert (rank a = rank b) as Hsame.
    { destruct (decide (rank a < rank b)); [exfalso; apply Hnot; by left|lia]. }
    right. split; [done|].
    destruct (total String.le (name a) (name b)) as [|Hle]; [done|].
    exfalso. apply Hnot. by right.
  - intros a b c Ha Hb Hc.
    rewrite !sortFilesFirstThenAlphabetically_spec by done.
    intros [Hab|[Hab Hnames]] [Hbc|[Hbc Hnames']]; try (left; lia).
    right. split; [lia|]. by etrans.
Qed.

End Sorting.

Section Walker.
Import JsString Pathname PathItems WalkFolder WalkVocabulary.

Lemma pushEntries_spec pathname fsDirents : ∀ stack,
  pushEntries pathname fsDirents stack = stack ++ pathnamesIn pathname fsDirents.
Proof.
  unfold pushEntries, pathnamesIn.
  induction fsDirents as [|d fsDirents IH]; intros stack; cbn.
  { by rewrite app_nil_r. }
  rewrite IH. destruct (pushedPathname pathname d); [|done].
  by rewrite <- app_assoc.
Qed.

Lemma folderWalker_NextItem_empty fs itemFilter :
  folderWalker_NextItem fs [] itemFilter = (inr None, []).
Proof. reflexivity. Qed.


Lemma folderWalker_NextItem_stops fs itemFilter stack pathname fsStats :
  stat fs pathname = inr fsStats →
  stopsAt itemFilter pathname fsStats →
  folderWalker_NextItem fs (stack ++ [pathname]) itemFilter
  = (inr (Some {| pathname := pathname; fsStats := fsStats |}), stack).
Proof.
  intros Hstat Hstops. unfold folderWalker_NextItem. rewrite reverse_snoc. cbn.
  unfold fsStat. rewrite Hstat.
  destruct itemFilter as [f|]; cbn in Hstops; [rewrite Hstops|];
    cbn; by rewrite reverse_involutive.
Qed.


Lemma direntType_rank a b : direntType a = direntType b → rank a = rank b.
Proof. unfold rank, Dirent_isDirectory. by intros ->. Qed.

Lemma same_kind_nameBefore a b :
  direntType a = direntType b →
  name a ≠ EmptyString → name b ≠ EmptyString → name a ≠ name b →
  goesBefore sortFilesFirstThenAlphabetically b a →
  nameBefore a b.
Proof.
  intros Hkind Ha Hb Hne.
  rewrite sortFilesFirstThenAlphabetically_spec by done.
  rewrite (direntType_rank a b Hkind).
  intros [?|[_ Hle]]; [lia|].
  unfold nameBefore, String.ltb. unfold String.le, String.leb in Hle.
  destruct (String.compare (name a) (name b)) eqn:Hcompare; try done.
  by apply String.compare_eq_iff in Hcompare.
Qed.

Lemma directory_goes_first a b :
  direntType b = IsDirectory →
  goesBefore sortFilesFirstThenAlphabetically a b →
  name a ≠ EmptyString → name b ≠ EmptyString →
  direntType a = IsDirectory.
Proof.
  intros Hb Hgoes Hna Hnb.
  apply sortFilesFirstThenAlphabetically_spec in Hgoes; [|done..].
  revert Hgoes. unfold rank, Dirent_isDirectory. rewrite Hb.
  rewrite (bool_decide_eq_true_2 (IsDirectory = IsDirectory)) by done.
  case_bool_decide; [done|]. lia.
Qed.

Lemma filter_all_directories l :
  Forall isDirectoryEntry l →
  filter isFileEntry l = [] ∧ filter isDirectoryEntry l = l.
Proof.
  unfold isDirectoryEntry, isFileEntry.
  induction 1 as [|d l Hd Hl [IHf IHd]]; [done|].
  rewrite !filter_cons. rewrite IHf, IHd.
  destruct (decide (direntType d = IsFile)); [congruence|].
  destruct (decide (direntType d = IsDirectory)); done.
Qed.

(** In an array that the default comparator sorted, read from its end,
    the files come before the directories. *)
Lemma pathnamesIn_files_then_directories pathname l :
  Forall (λ d, name d ≠ EmptyString) l →
  StronglySorted (flip (goesBefore sortFilesFirstThenAlphabetically)) l →
  pathnamesIn pathname l
  = pathnamesIn pathname (filter isFileEntry l ++ filter isDirectoryEntry l).
Proof.
  intros Hnames Hsorted.
  induction Hsorted as [|d l Hsorted IH Hd]; [done|].
  apply Forall_cons in Hnames as [Hname Hnames].
  specialize (IH Hnames).
  destruct (direntType d) eqn:Hkind.
  - rewrite (filter_cons_True isFileEntry) by done.
    rewrite (filter_cons_False isDirectoryEntry) by (unfold isDirectoryEntry; congruence).
    unfold pathnamesIn in *. cbn. by rewrite IH.
  - assert (Forall isDirectoryEntry l) as Hall.
    { rewrite Forall_forall in Hd, Hnames |- *. intros d' Hd'.
      eapply directory_goes_first; [exact Hkind|by apply Hd|by apply Hnames|done]. }
    destruct (filter_all_directories (d :: l)) as [-> ->]; [by constructor|done].
  - rewrite (filter_cons_False isFileEntry) by (unfold isFileEntry; congruence).
    rewrite (filter_cons_False isDirectoryEntry) by (unfold isDirectoryEntry; congruence).
    rewrite <- IH. unfold pathnamesIn, pushedPathname, Dirent_isFile, Dirent_isDirectory.
    cbn. rewrite Hkind. done.
Qed.

Lemma same_kind_sorted kind l :
  NoDup (name <$> l) →
  Forall (λ d, name d ≠ EmptyString) l →
  StronglySorted (flip (goesBefore sortFilesFirstThenAlphabetically)) l →
  StronglySorted nameBefore (filter (λ d, direntType d = kind) l).
Proof.
  intros Hnodup Hnames Hsorted.
  induction Hsorted as [|d l Hsorted IH Hd]; [constructor|].
  apply Forall_cons in Hnames as [Hname Hnames].
  rewrite fmap_cons in Hnodup. apply NoDup_cons in Hnodup as [Hfresh Hnodup].
  specialize (IH Hnodup Hnames).
  rewrite filter_cons. case_decide as Hkind; [|done].
  constructor; [done|].
  rewrite Forall_forall in Hd, Hnames |- *. intros d' Hd'.
  apply list_elem_of_filter in Hd' as [Hkind' Hd'].
  apply same_kind_nameBefore; [congruence|done|by apply Hnames| |by apply Hd].
  intros Heq. apply Hfresh. rewrite Heq. by apply list_elem_of_fmap_2.
Qed.

Lemma omap_reverse {A B} (f : A → option B) l : omap f (reverse l) = reverse (omap f l).
Proof.
  induction l as [|x l IH]; [done|].
  rewrite reverse_cons, omap_app, IH.
  change (omap f (x :: l))
    with (match f x with Some y => y :: omap f l | None => omap f l end).
  change (omap f [x]) with (match f x with Some y => [y] | None => [] end).
  destruct (f x); [by rewrite reverse_cons|by rewrite app_nil_r].
Qed.

Lemma read_directory fs w stack pathname fsStats fsDirents :
  absoluteResolvedPathnames w = stack ++ [pathname] →
  stat fs pathname = inr fsStats →
  stopsAt (itemFilter (options w)) pathname fsStats →
  statsType fsStats = IsDirectory →
  overLimit w pathname = false →
  readdir fs pathname = inr fsDirents →
  _read fs w
  = (match asAbsoluteFolder pathname with
     | inr folder => Pushed (FolderItem folder)
     | inl message => Uncaught message
     end,
     withPathnames w
       (stack ++ pathnamesIn pathname (processFsDirents (options w) fsDirents))).
Proof.
  intros Hstack Hstat Hstops Hkind Hlimit Hreaddir.
  unfold _read. rewrite Hstack, (folderWalker_NextItem_stops _ _ _ _ _ Hstat Hstops).
  unfold onNextItem, Stats_isFile, Stats_isDirectory. cbn. rewrite Hkind. cbn.
  rewrite Hlimit, Hreaddir. unfold onReaddir. rewrite pushEntries_spec.
  by destruct (asAbsoluteFolder pathname).
Qed.

(** *** The array is a stack: what lies under the pathnames read is
    left alone until they are all read *)

Lemma nextItemFromEnd_app fs itemFilter l1 l2 :
  nextItemFromEnd fs itemFilter (l1 ++ l2)
  = match nextItemFromEnd fs itemFilter l1 with
    | (inr None, _) => nextItemFromEnd fs itemFilter l2
    | (settled, remaining) => (settled, remaining ++ l2)
    end.
Proof.
  induction l1 as [|p l1 IH]; cbn; [done|].
  destruct (fsStat fs p) as [reason|fsStats]; [done|].
  destruct (match itemFilter with
            | Some f => negb (f p fsStats)
            | None => true
            end); [done|].
  exact IH.
Qed.

Lemma nextItemFromEnd_none fs itemFilter l remaining :
  nextItemFromEnd fs itemFilter l = (inr None, remaining) → remaining = [].
Proof.
  induction l as [|p l IH]; cbn; [by intros [= <-]|].
  repeat case_match; intros; simplify_eq; auto.
Qed.

Lemma folderWalker_NextItem_app fs itemFilter base top :
  folderWalker_NextItem fs (base ++ top) itemFilter
  = match folderWalker_NextItem fs top itemFilter with
    | (inr None, _) => folderWalker_NextItem fs base itemFilter
    | (settled, remaining) => (settled, base ++ remaining)
    end.
Proof.
  unfold folderWalker_NextItem. rewrite reverse_app, nextItemFromEnd_app.
  destruct (nextItemFromEnd fs itemFilter (reverse top)) as [[reason|[item|]] remaining];
    [|by rewrite reverse_app, reverse_involutive|done].
  by rewrite reverse_app, reverse_involutive.
Qed.

Lemma read_walker fs w :
  (_read fs w).2 = withPathnames w (absoluteResolvedPathnames (_read fs w).2).
Proof. unfold _read, onNextItem, onReaddir. repeat case_match; done. Qed.

Lemma read_frame fs w base top :
  _read fs (withPathnames w (base ++ top))
  = match _read fs (withPathnames w top) with
    | (PushedNull, _) => _read fs (withPathnames w base)
    | (effect, w') => (effect, withPathnames w (base ++ absoluteResolvedPathnames w'))
    end.
Proof.
  unfold _read. cbn [withPathnames absoluteResolvedPathnames options].
  rewrite folderWalker_NextItem_app.
  destruct (folderWalker_NextItem fs top (itemFilter (options w)))
    as [[reason|[item|]] remaining]; [done| |done].
  unfold onNextItem, onReaddir, overLimit.
  cbn [withPathnames absoluteResolvedPathnames options absoluteLengthLimit].
  repeat case_match; simplify_eq; cbn; rewrite ?pushEntries_spec, ?app_assoc; done.
Qed.

Lemma walk_frame fs w base : ∀ fuel top items finish,
  walk fuel fs (withPathnames w top) = (items, finish) →
  match finish with
  | Ended =>
      ∀ more, walk (length items + more) fs (withPathnames w (base ++ top))
              = ((items ++ (walk more fs (withPathnames w base)).1),
                 (walk more fs (withPathnames w base)).2)
  | _ => walk fuel fs (withPathnames w (base ++ top)) = (items, finish)
  end.
Proof.
  induction fuel as [|fuel IH]; intros top items finish.
  { intros [= <- <-]. done. }
  cbn [walk]. rewrite (read_frame fs w base top).
  destruct (_read fs (withPathnames w top)) as [effect w'] eqn:Hread.
  pose proof (read_walker fs (withPathnames w top)) as Hw'.
  rewrite Hread in Hw'. cbn [snd withPathnames] in Hw'.
  destruct effect; try (intros [= <- <-]; done).
  - destruct (walk fuel fs w') as [items' finish'] eqn:Hwalk.
    intros [= <- <-].
    change (withPathnames (withPathnames w top) (absoluteResolvedPathnames w'))
      with (withPathnames w (absoluteResolvedPathnames w')) in Hw'.
    rewrite Hw' in Hwalk. specialize (IH _ _ _ Hwalk).
    destruct finish'; try (by rewrite IH).
    intros more. cbn [length plus walk].
    rewrite (read_frame fs w base top), Hread.
    rewrite (IH more). done.
  - intros [= <- <-] more. cbn [length plus].
    destruct more as [|more]; [done|].
    cbn [walk]. rewrite (read_frame fs w base top), Hread.
    by destruct (_read fs (withPathnames w base)) as [[] ?];
      try destruct (walk more fs _).
Qed.

(** Pathnames on top of the array are read one after the other, each
    with all that its reading pushes, before anything under them. *)
Lemma walk_siblings fs w base siblings subtrees items finish :
  Forall2 (λ sibling itemsOfSibling, walksTo fs w [sibling] itemsOfSibling Ended)
          siblings subtrees →
  walksTo fs w base items finish →
  walksTo fs w (base ++ reverse siblings) (concat subtrees ++ items) finish.
Proof.
  intros Hsiblings Hbase.
  induction Hsiblings as [|sibling itemsOfSibling siblings subtrees [fuel Hsibling] _ IH].
  { by rewrite app_nil_r. }
  destruct IH as [more Hmore].
  rewrite reverse_cons, app_assoc.
  apply (walk_frame fs w (base ++ reverse siblings)) in Hsibling.
  exists (length itemsOfSibling + more).
  rewrite (Hsibling more), Hmore. cbn. by rewrite <- app_assoc.
Qed.

Lemma pathnamesIn_files pathname l :
  Forall isFileEntry l → pathnamesIn pathname l = filePathnameOf pathname <$> l.
Proof.
  induction 1 as [|d l Hd _ IH]; [done|].
  unfold pathnamesIn in *.
  change (omap (pushedPathname pathname) (d :: l))
    with (match pushedPathname pathname d with
          | Some p => p :: omap (pushedPathname pathname) l
          | None => omap (pushedPathname pathname) l
          end).
  rewrite IH. unfold pushedPathname, Dirent_isFile. rewrite Hd. done.
Qed.

Lemma pathnamesIn_directories pathname l :
  Forall isDirectoryEntry l → pathnamesIn pathname l = folderPathnameOf pathname <$> l.
Proof.
  induction 1 as [|d l Hd _ IH]; [done|].
  unfold pathnamesIn in *.
  change (omap (pushedPathname pathname) (d :: l))
    with (match pushedPathname pathname d with
          | Some p => p :: omap (pushedPathname pathname) l
          | None => omap (pushedPathname pathname) l
          end).
  rewrite IH. unfold pushedPathname, Dirent_isFile, Dirent_isDirectory. rewrite Hd. done.
Qed.

(** C2. When [_read] pops a folder whose entries have names that are not
    empty and differ, with the default comparator and no array filter,
    it leaves on top of the array one pathname for each file and one for
    each directory among the entries, and nothing for the other entries;
    these pathnames are popped in this order: those of the files, by
    strictly ascending name, then those of the directories, by strictly
    ascending name; the older pathnames come after them.  The pathname
    of a file is what [path.join] makes of the folder and the name; that
    of a directory ends with the separator.  The stream yields the item
    of the folder read, then what it yields from the array so left, and
    that follows the order above: the items of each of these siblings
    in turn (for a directory, all that reading it yields), then the
    items of the older pathnames. *)
Theorem default_order_of_siblings fs w stack pathname fsStats fsDirents :
  absoluteResolvedPathnames w = stack ++ [pathname] →
  arraySortFunction (options w) = Some sortFilesFirstThenAlphabetically →
  arrayFilterFunction (options w) = None →
  stat fs pathname = inr fsStats →
  stopsAt (itemFilter (options w)) pathname fsStats →
  statsType fsStats = IsDirectory →
  overLimit w pathname = false →
  readdir fs pathname = inr fsDirents →
  wellFormedListing fsDirents →
  ∃ files directories,
    popOrder (absoluteResolvedPathnames (_read fs w).2)
    = (filePathnameOf pathname <$> files)
      ++ (folderPathnameOf pathname <$> directories) ++ popOrder stack
    ∧ files ≡ₚ filter isFileEntry fsDirents
    ∧ directories ≡ₚ filter isDirectoryEntry fsDirents
    ∧ StronglySorted nameBefore files
    ∧ StronglySorted nameBefore directories
    ∧ (∀ fuel,
         walk (S fuel) fs w
         = match asAbsoluteFolder pathname with
           | inr folder =>
               (FolderItem folder :: (walk fuel fs (_read fs w).2).1,
                (walk fuel fs (_read fs w).2).2)
           | inl message => ([], UncaughtException message)
           end)
    ∧ ∀ subtrees items finish,
        Forall2 (λ sibling itemsOfSibling, walksTo fs w [sibling] itemsOfSibling Ended)
                ((filePathnameOf pathname <$> files)
                 ++ (folderPathnameOf pathname <$> directories)) subtrees →
        walksTo fs w stack items finish →
        walksTo fs w (absoluteResolvedPathnames (_read fs w).2)
                (concat subtrees ++ items) finish.
Proof.
  intros Hstack Hsort Hfilter Hstat Hstops Hkind Hlimit Hreaddir [Hnodup Hnames].
  rewrite (read_directory fs w stack pathname fsStats fsDirents) by done.
  unfold processFsDirents. rewrite Hsort, Hfilter.
  cbn [snd withPathnames absoluteResolvedPathnames].
  set (sorted := sort sortFilesFirstThenAlphabetically fsDirents).
  assert (reverse sorted ≡ₚ fsDirents) as Hperm.
  { unfold sorted. by rewrite reverse_Permutation, sort_Permutation. }
  assert (Forall (λ d, name d ≠ EmptyString) (reverse sorted)) as Hnames'.
  { by rewrite Hperm. }
  assert (NoDup (name <$> reverse sorted)) as Hnodup'.
  { by rewrite Hperm. }
  assert (StronglySorted (flip (goesBefore sortFilesFirstThenAlphabetically))
            (reverse sorted)) as Hsorted.
  { by apply StronglySorted_reverse, default_sort_StronglySorted. }
  assert (reverse (pathnamesIn pathname sorted)
          = (filePathnameOf pathname <$> filter isFileEntry (reverse sorted))
            ++ (folderPathnameOf pathname <$> filter isDirectoryEntry (reverse sorted)))
    as Horder.
  { unfold pathnamesIn at 1. rewrite <- omap_reverse.
    fold (pathnamesIn pathname (reverse sorted)).
    rewrite (pathnamesIn_files_then_directories pathname (reverse sorted)) by done.
    unfold pathnamesIn. rewrite omap_app.
    fold (pathnamesIn pathname (filter isFileEntry (reverse sorted))).
    fold (pathnamesIn pathname (filter isDirectoryEntry (reverse sorted))).
    rewrite pathnamesIn_files, pathnamesIn_directories; [done|..];
      apply Forall_forall; intros d Hd; by apply list_elem_of_filter in Hd as [? _]. }
  exists (filter isFileEntry (reverse sorted)), (filter isDirectoryEntry (reverse sorted)).
  split_and!.
  - unfold popOrder. by rewrite reverse_app, Horder, <- app_assoc.
  - by rewrite Hperm.
  - by rewrite Hperm.
  - by apply (same_kind_sorted IsFile).
  - by apply (same_kind_sorted IsDirectory).
  - intros fuel. cbn [walk].
    rewrite (read_directory fs w stack pathname fsStats fsDirents) by done.
    destruct (asAbsoluteFolder pathname) as [message|folder]; [done|].
    unfold processFsDirents. rewrite Hsort, Hfilter. fold sorted.
    by destruct (walk fuel fs _).
  - intros subtrees items finish Hsiblings Hstack'.
    rewrite <- (reverse_involutive (pathnamesIn pathname sorted)), Horder.
    by apply walk_siblings.
Qed.

Lemma default_order_of_siblings_witness :
  (∃ files directories,
     popOrder (absoluteResolvedPathnames (_read mixedFs (walkerAt "/mixed/")).2)
     = (filePathnameOf "/mixed/" <$> files)
       ++ (folderPathnameOf "/mixed/" <$> directories) ++ popOrder []
     ∧ files ≡ₚ filter isFileEntry mixedListing
     ∧ directories ≡ₚ filter isDirectoryEntry mixedListing
     ∧ StronglySorted nameBefore files
     ∧ StronglySorted nameBefore directories
     ∧ (∀ fuel,
          walk (S fuel) mixedFs (walkerAt "/mixed/")
          = match asAbsoluteFolder "/mixed/" with
            | inr folder =>
                (FolderItem folder
                   :: (walk fuel mixedFs (_read mixedFs (walkerAt "/mixed/")).2).1,
                 (walk fuel mixedFs (_read mixedFs (walkerAt "/mixed/")).2).2)
            | inl message => ([], UncaughtException message)
            end)
     ∧ ∀ subtrees items finish,
         Forall2 (λ sibling itemsOfSibling,
                    walksTo mixedFs (walkerAt "/mixed/") [sibling] itemsOfSibling Ended)
                 ((filePathnameOf "/mixed/" <$> files)
                  ++ (folderPathnameOf "/mixed/" <$> directories)) subtrees →
         walksTo mixedFs (walkerAt "/mixed/") [] items finish →
         walksTo mixedFs (walkerAt "/mixed/")
                 (absoluteResolvedPathnames (_read mixedFs (walkerAt "/mixed/")).2)
                 (concat subtrees ++ items) finish)
  ∧ walksTo mixedFs (walkerAt "/mixed/")
      (absoluteResolvedPathnames (_read mixedFs (walkerAt "/mixed/")).2)
      [ FileItem {| fileFolderPathname := "/mixed/"; fileName := "a"; extension := "txt" |};
        FileItem {| fileFolderPathname := "/mixed/"; fileName := "z"; extension := "txt" |};
        FolderItem {| folderPathname := "/mixed/a/" |};
        FolderItem {| folderPathname := "/mixed/b/" |} ] Ended.
Proof.
  assert (wellFormedListing mixedListing) as Hlisting.
  { split.
    - apply (bool_decide_unpack _). vm_compute. exact I.
    - repeat constructor; discriminate. }
  pose proof (default_order_of_siblings mixedFs (walkerAt "/mixed/") [] "/mixed/"
                {| statsType := IsDirectory; mtime := 0 |} mixedListing
                eq_refl eq_refl eq_refl eq_refl I eq_refl eq_refl eq_refl Hlisting)
    as Hsiblings.
  split; [exact Hsiblings|].
  destruct Hsiblings as (files & directories & Horder & _ & _ & _ & _ & _ & Hwalk).
  rewrite app_assoc, app_nil_r in Horder.
  specialize (Hwalk [ [FileItem {| fileFolderPathname := "/mixed/"; fileName := "a";
                                   extension := "txt" |}];
                      [FileItem {| fileFolderPathname := "/mixed/"; fileName := "z";
                                   extension := "txt" |}];
                      [FolderItem {| folderPathname := "/mixed/a/" |}];
                      [FolderItem {| folderPathname := "/mixed/b/" |}] ] [] Ended).
  rewrite <- Horder in Hwalk. apply Hwalk.
  - repeat constructor; by exists 2.
  - by exists 1.
Defined.

(** The comparator itself puts the directories first and the names in
    descending order, which popping from the end of the array undoes. *)
Example mixed_sorted :
  name <$> sort sortFilesFirstThenAlphabetically mixedListing
  = ["b"; "a"; "z.txt"; "link"; "a.txt"]%string.
Proof. reflexivity. Qed.

(** The same step, computed: the files, then the directories, each by
    ascending name; the link is not pushed. *)
Example mixed_pop_order :
  popOrder (absoluteResolvedPathnames (_read mixedFs (walkerAt "/mixed/")).2)
  = ["/mixed/a.txt"; "/mixed/z.txt"; "/mixed/a/"; "/mixed/b/"]%string
  ∧ (enumerate 10 mixedFs {| folderPathname := "/mixed/" |} None
     = inr ([ FolderItem {| folderPathname := "/mixed/" |};
              FileItem {| fileFolderPathname := "/mixed/"; fileName := "a";
                          extension := "txt" |};
              FileItem {| fileFolderPathname := "/mixed/"; fileName := "z";
                          extension := "txt" |};
              FolderItem {| folderPathname := "/mixed/a/" |};
              FolderItem {| folderPathname := "/mixed/b/" |} ], Ended)).
Proof. split; reflexivity. Qed.

Lemma read_file fs w stack pathname fsStats :
  absoluteResolvedPathnames w = stack ++ [pathname] →
  stat fs pathname = inr fsStats →
  stopsAt (itemFilter (options w)) pathname fsStats →
  statsType fsStats = IsFile →
  _read fs w
  = (match asAbsoluteFile pathname with
     | inr file => Pushed (FileItem file)
     | inl message => Destroyed (ThrownError message)
     end,
     withPathnames w stack).
Proof.
  intros Hstack Hstat Hstops Hkind.
  unfold _read. rewrite Hstack, (folderWalker_NextItem_stops _ _ _ _ _ Hstat Hstops).
  unfold onNextItem, Stats_isFile. cbn. rewrite Hkind. cbn.
  by destruct (asAbsoluteFile pathname).
Qed.

Lemma read_leaf fs w stack pathname fsStats :
  absoluteResolvedPathnames w = stack ++ [pathname] →
  stat fs pathname = inr fsStats →
  stopsAt (itemFilter (options w)) pathname fsStats →
  statsType fsStats = IsDirectory →
  overLimit w pathname = true →
  _read fs w
  = (match asAbsoluteFolder pathname with
     | inr folder => Pushed (FolderItem folder)
     | inl message => Destroyed (ThrownError message)
     end,
     withPathnames w stack).
Proof.
  intros Hstack Hstat Hstops Hkind Hlimit.
  unfold _read. rewrite Hstack, (folderWalker_NextItem_stops _ _ _ _ _ Hstat Hstops).
  unfold onNextItem, Stats_isFile, Stats_isDirectory. cbn. rewrite Hkind. cbn.
  rewrite Hlimit. by destruct (asAbsoluteFolder pathname).
Qed.

Lemma read_end fs w :
  absoluteResolvedPathnames w = [] →
  _read fs w = (PushedNull, withPathnames w []).
Proof. intros Hstack. unfold _read. by rewrite Hstack. Qed.

(** C8. When the probe of the root fails with [ENOENT], the walker is
    built without an exception, and the stream ends at its first read
    without an item and without an error. *)
Theorem missing_root_yields_nothing fs absoluteFolder options reason fuel :
  readdir fs (folderPathname absoluteFolder) = inl reason →
  code reason = "ENOENT"%string →
  enumerate (S fuel) fs absoluteFolder options = inr ([], Ended).
Proof.
  intros Hreaddir Hcode.
  unfold enumerate, walkFolder, newFolderWalker, doesFolderExistSync.
  rewrite Hreaddir, Hcode. reflexivity.
Qed.

Lemma missing_root_yields_nothing_witness :
  enumerate 1 (sampleFs []) {| folderPathname := "/nowhere/" |} None = inr ([], Ended).
Proof.
  apply (missing_root_yields_nothing (sampleFs []) {| folderPathname := "/nowhere/" |}
           None ENOENT 0); reflexivity.
Defined.




(** The filter of [onlyLastModified] returns [true] on a file that is
    too old, which is skipped, and [false] on a recent one, which is
    pushed: [a.txt] was modified at 1000. *)
Example old_file_is_skipped :
  makeTestFileChecker 5000 1800 "/root/a.txt" {| statsType := IsFile; mtime := 1000 |} = true
  ∧ (_read (sampleFs []) (filteringWalkerAt (makeTestFileChecker 5000 1800) "/root/a.txt")).1
    = PushedNull
  ∧ makeTestFileChecker 2000 1800 "/root/a.txt" {| statsType := IsFile; mtime := 1000 |} = false
  ∧ (_read (sampleFs []) (filteringWalkerAt (makeTestFileChecker 2000 1800) "/root/a.txt")).1
    = Pushed aTxt.
Proof. repeat split; reflexivity. Qed.

(** C3, as amended. For a root folder [/root/] that holds exactly the
    file [a.txt] and the empty folder [b/], whatever the order in which
    [readdir] lists them, the enumeration with the default options
    yields exactly three items in this order: the root folder, the file
    [a.txt], the folder [b/]; then the stream ends. *)
Theorem root_then_file_then_folder fs fuel listing rootStats fileStats folderStats :
  readdir fs "/root/" = inr listing →
  listing ≡ₚ [ {| name := "a.txt"; direntType := IsFile |};
               {| name := "b"; direntType := IsDirectory |} ] →
  readdir fs "/root/b/" = inr [] →
  stat fs "/root/" = inr rootStats → statsType rootStats = IsDirectory →
  stat fs "/root/a.txt" = inr fileStats → statsType fileStats = IsFile →
  stat fs "/root/b/" = inr folderStats → statsType folderStats = IsDirectory →
  enumerate (4 + fuel) fs sampleRoot None = inr ([rootFolder; aTxt; bFolder], Ended).
Proof.
  intros Hroot Hlisting Hb HrootStat HrootKind HfileStat HfileKind HfolderStat HfolderKind.
  assert (walkFolder fs sampleRoot None = inr (walkerAt "/root/")) as Hwalker.
  { unfold walkFolder, newFolderWalker, doesFolderExistSync.
    cbn [folderPathname sampleRoot]. by rewrite Hroot. }
  unfold enumerate. rewrite Hwalker.
  cbn [plus walk].
  erewrite (read_directory fs (walkerAt "/root/") [] "/root/");
    [|reflexivity|done|exact I|done|reflexivity|done].
  assert (pathnamesIn "/root/" (processFsDirents DEFAULT_FOLDER_WALKER_OPTIONS listing)
          = ["/root/b/"; "/root/a.txt"]%string) as Hpushed.
  { symmetry in Hlisting.
    apply Permutation_length_2_inv in Hlisting as [-> | ->]; reflexivity. }
  change (options (walkerAt "/root/")) with DEFAULT_FOLDER_WALKER_OPTIONS.
  rewrite Hpushed.
  change (asAbsoluteFolder "/root/") with (@inr string _ {| folderPathname := "/root/" |}).
  cbn iota.
  erewrite (read_file fs _ ["/root/b/"%string] "/root/a.txt");
    [|reflexivity|done|exact I|done].
  change (asAbsoluteFile "/root/a.txt")
    with (@inr string _ {| fileFolderPathname := "/root/"; fileName := "a";
                           extension := "txt" |}).
  cbn iota.
  erewrite (read_directory fs _ [] "/root/b/"); [|reflexivity|done|exact I|done|reflexivity|done].
  change (asAbsoluteFolder "/root/b/") with (@inr string _ {| folderPathname := "/root/b/" |}).
  cbn iota.
  erewrite read_end; [|reflexivity].
  reflexivity.
Qed.

Lemma root_then_file_then_folder_witness :
  enumerate 4 (sampleFs []) sampleRoot None = inr ([rootFolder; aTxt; bFolder], Ended).
Proof.
  apply (root_then_file_then_folder (sampleFs []) 0
           [ {| name := "b"; direntType := IsDirectory |};
             {| name := "a.txt"; direntType := IsFile |} ]
           {| statsType := IsDirectory; mtime := 0 |}
           {| statsType := IsFile; mtime := 1000 |}
           {| statsType := IsDirectory; mtime := 0 |});
    try reflexivity.
  apply Permutation_swap.
Defined.

(** C3, as stated, fails: the items do not come in the order file,
    folder, root, whatever the number of reads. *)
Lemma root_is_not_pushed_last :
  ¬ ∃ fuel finish,
      enumerate fuel (sampleFs []) sampleRoot None
      = inr ([aTxt; bFolder; rootFolder], finish).
Proof.
  intros (fuel & finish & Henumerate).
  destruct fuel as [|fuel]; [discriminate|].
  destruct fuel as [|[|[|[|fuel]]]]; discriminate.
Qed.

(** *** Segments of a pathname *)

Lemma split_length c s : length (split c s) = S (countChars (isChar c) s).
Proof.
  induction s as [|d s IH]; [done|]. cbn. unfold isChar at 1.
  destruct (Ascii.eqb d c); cbn; [by rewrite IH|].
  destruct (split c s); cbn in *; lia.
Qed.

Lemma countChars_app P a b :
  countChars P (a ++ b)%string = countChars P a + countChars P b.
Proof.
  induction a as [|d a IH]; [done|].
  change (String d a +:+ b) with (String d (a +:+ b)).
  cbn [countChars]. rewrite IH. lia.
Qed.

Lemma lastChar_app a b : b ≠ EmptyString → lastChar (a ++ b)%string = lastChar b.
Proof.
  intros Hb. induction a as [|d a IH]; [done|].
  change (String d a +:+ b) with (String d (a +:+ b)).
  cbn [lastChar]. rewrite IH. destruct (a +:+ b) eqn:Happ; [|done].
  destruct a, b; done.
Qed.

Lemma endsWith_countChars s c : endsWith s c = true → 1 ≤ countChars (isChar c) s.
Proof.
  unfold endsWith. induction s as [|d s IH]; [done|].
  cbn. destruct s as [|d' s].
  - unfold isChar. intros ->. cbn. lia.
  - intros H. specialize (IH H). lia.
Qed.

Lemma countChars_cons_same c s :
  countChars (isChar c) (String c s) = S (countChars (isChar c) s).
Proof. cbn [countChars]. unfold isChar at 1. by rewrite Ascii.eqb_refl. Qed.

(** *** [path.join] on a normalized pathname and a name *)

Lemma string_app_cons d a b : (String d a ++ b)%string = String d (a ++ b)%string.
Proof. reflexivity. Qed.

Lemma string_app_nil_r a : (a ++ EmptyString)%string = a.
Proof. induction a as [|d a IH]; [done|]. by rewrite string_app_cons, IH. Qed.

Lemma string_app_assoc a b c : ((a ++ b) ++ c)%string = (a ++ (b ++ c))%string.
Proof. induction a as [|d a IH]; [done|]. by rewrite !string_app_cons, IH. Qed.

Lemma string_app_empty a b : (a ++ b)%string = EmptyString → a = EmptyString ∧ b = EmptyString.
Proof. destruct a; [done|]. by rewrite string_app_cons. Qed.

Lemma endsWith_none c s : countChars (isChar c) s = 0 → endsWith s c = false.
Proof.
  intros Hs. destruct (endsWith s c) eqn:Hends; [|done].
  apply endsWith_countChars in Hends. lia.
Qed.

Lemma endsWith_snoc s c : endsWith s c = true → ∃ q, s = (q ++ String c EmptyString)%string.
Proof.
  unfold endsWith. induction s as [|d s IH]; [done|].
  destruct s as [|e s].
  - cbn. intros Hd. apply Ascii.eqb_eq in Hd as ->. by exists EmptyString.
  - intros Hlast. destruct (IH Hlast) as [q Hq]. exists (String d q).
    by rewrite string_app_cons, <- Hq.
Qed.

Lemma split_without c s : countChars (isChar c) s = 0 → split c s = [s].
Proof.
  induction s as [|d s IH]; [done|]. cbn [countChars split]. unfold isChar at 1.
  destruct (Ascii.eqb d c); [done|]. intros Hs. by rewrite IH.
Qed.

Lemma split_cons_nonempty c s : split c s ≠ [].
Proof.
  destruct s as [|d s]; [done|]. cbn. destruct (Ascii.eqb d c); [done|].
  by destruct (split c s).
Qed.

Lemma split_app c a b :
  split c (a ++ String c b)%string = split c a ++ split c b.
Proof.
  induction a as [|d a IH].
  - change (EmptyString ++ String c b)%string with (String c b).
    cbn. by rewrite Ascii.eqb_refl.
  - rewrite string_app_cons. cbn [split]. rewrite IH.
    destruct (Ascii.eqb d c); [done|].
    pose proof (split_cons_nonempty c a).
    by destruct (split c a).
Qed.

Lemma keepSegment_name allow kept s :
  s ≠ EmptyString → s ≠ "."%string → s ≠ ".."%string →
  keepSegment allow kept s = kept ++ [s].
Proof.
  intros Hempty Hcurrent Hparent. unfold keepSegment.
  by rewrite (proj2 (String.eqb_neq _ _) Hempty), (proj2 (String.eqb_neq _ _) Hcurrent),
    (proj2 (String.eqb_neq _ _) Hparent).
Qed.

Lemma keepSegment_nonempty allow kept segment :
  Forall (λ s, s ≠ EmptyString) kept →
  Forall (λ s, s ≠ EmptyString) (keepSegment allow kept segment).
Proof.
  intros Hkept. unfold keepSegment.
  destruct (String.eqb segment EmptyString) eqn:Hempty; [done|]. cbn [orb].
  destruct (String.eqb segment ".") eqn:Hcurrent; [done|].
  apply String.eqb_neq in Hempty.
  destruct (String.eqb segment "..") eqn:Hparent.
  - destruct (last kept) as [previous|].
    + destruct (String.eqb previous "..").
      * destruct allow; [|done]. apply Forall_app. split; [done|]. by repeat constructor.
      * clear -Hkept. induction Hkept as [|x kept Hx Hkept IH]; [constructor|].
        destruct kept; [constructor|]. cbn in *. by constructor.
    + destruct allow; by repeat constructor.
  - apply Forall_app. split; [done|]. by repeat constructor.
Qed.

Lemma keptSegments_nonempty path allow :
  Forall (λ s, s ≠ EmptyString) (keptSegments path allow).
Proof.
  unfold keptSegments.
  assert (∀ segments kept,
            Forall (λ s, s ≠ EmptyString) kept →
            Forall (λ s, s ≠ EmptyString) (fold_left (keepSegment allow) segments kept))
    as Hfold.
  { induction segments as [|s segments IH]; intros kept Hkept; [done|].
    cbn. by apply IH, keepSegment_nonempty. }
  by apply Hfold.
Qed.

Lemma keptSegments_separator path allow :
  keptSegments (path ++ String sep EmptyString)%string allow = keptSegments path allow.
Proof.
  unfold keptSegments. rewrite split_app, fold_left_app. done.
Qed.

Lemma keptSegments_name path allow s :
  s ≠ EmptyString → s ≠ "."%string → s ≠ ".."%string →
  countChars (isChar sep) s = 0 →
  keptSegments (path ++ String sep s)%string allow = keptSegments path allow ++ [s].
Proof.
  intros Hempty Hcurrent Hparent Hsep.
  unfold keptSegments. rewrite split_app, fold_left_app, (split_without sep s) by done.
  cbn [fold_left]. by apply keepSegment_name.
Qed.

Lemma concat_snoc separator kept s :
  String.concat separator (kept ++ [s])
  = match kept with
    | [] => s
    | _ => (String.concat separator kept ++ separator ++ s)%string
    end.
Proof.
  induction kept as [|x kept IH]; [done|].
  change ((x :: kept) ++ [s]) with (x :: (kept ++ [s])).
  destruct kept as [|y kept]; [done|].
  change (String.concat separator (x :: (y :: kept) ++ [s]))
    with (x ++ separator ++ String.concat separator ((y :: kept) ++ [s]))%string.
  rewrite IH.
  change (String.concat separator (x :: y :: kept))
    with (x ++ separator ++ String.concat separator (y :: kept))%string.
  by rewrite !string_app_assoc.
Qed.

Lemma concat_nonempty separator kept :
  Forall (λ s, s ≠ EmptyString) kept → kept ≠ [] →
  String.concat separator kept ≠ EmptyString.
Proof.
  intros Hkept Hsome. destruct Hkept as [|x kept Hx Hkept]; [done|].
  destruct kept as [|y kept]; [done|].
  change (String.concat separator (x :: y :: kept))
    with (x ++ separator ++ String.concat separator (y :: kept))%string.
  intros Hempty. by apply string_app_empty in Hempty as [? _].
Qed.

(** An absolute pathname that [path.normalize] leaves as it is: the
    separator, then the segments kept, then the separator again if the
    pathname ends with it. *)
Lemma normalized_absolute p :
  isAbsolute p = true → normalize p = p →
  p = match keptSegments p false with
      | [] => "/"%string
      | kept => (("/" ++ String.concat "/" kept)
                 ++ (if endsWith p sep then "/" else ""))%string
      end.
Proof.
  intros Habsolute Hsame. unfold normalize in Hsame.
  destruct (String.eqb p EmptyString) eqn:Hempty.
  { apply String.eqb_eq in Hempty as ->. done. }
  rewrite Habsolute in Hsame. cbn [negb] in Hsame. unfold normalizeString in Hsame.
  pose proof (keptSegments_nonempty p false) as Hkept.
  destruct (keptSegments p false) as [|x kept] eqn:Hsegments.
  { cbn in Hsame. done. }
  destruct (String.eqb (String.concat "/" (x :: kept)) EmptyString) eqn:Hnone.
  { apply String.eqb_eq in Hnone. by apply concat_nonempty in Hnone. }
  rewrite <- Hsame at 1. by rewrite string_app_assoc.
Qed.

(** [path.normalize] of an absolute pathname, or of nothing, followed by
    the separator and a name, and then the separator or not. *)
Lemma normalize_name before s (trailing : bool) :
  before = EmptyString ∨ isAbsolute before = true →
  s ≠ EmptyString → s ≠ "."%string → s ≠ ".."%string →
  countChars (isChar sep) s = 0 →
  normalize (before ++ String sep (s ++ (if trailing then "/" else "")))%string
  = (("/" ++ String.concat "/" (keptSegments before false ++ [s]))
     ++ (if trailing then "/" else ""))%string.
Proof.
  intros Habsolute Hempty Hcurrent Hparent Hsep.
  set (full := (before ++ String sep (s ++ (if trailing then "/" else "")))%string).
  assert (keptSegments full false = keptSegments before false ++ [s]) as Hkept.
  { unfold full. destruct trailing.
    - change (before ++ String sep (s ++ "/"))%string
        with (before ++ (String sep s ++ String sep EmptyString))%string.
      rewrite <- string_app_assoc, keptSegments_separator. by apply keptSegments_name.
    - rewrite string_app_nil_r. by apply keptSegments_name. }
  assert (isAbsolute full = true) as Hfull.
  { unfold full. destruct Habsolute as [-> | Habsolute]; [done|]. by destruct before. }
  assert (endsWith full sep = trailing) as Hends.
  { unfold full, endsWith. rewrite lastChar_app by done.
    destruct trailing.
    - change (String sep (s ++ "/"))%string with ((String sep s) ++ "/")%string.
      by rewrite lastChar_app.
    - rewrite string_app_nil_r.
      assert (lastChar (String sep s) = lastChar s) as -> by (by destruct s).
      apply (endsWith_none sep s Hsep). }
  unfold normalize, normalizeString.
  assert (String.eqb full EmptyString = false) as -> by (by destruct full).
  rewrite Hfull, Hends. cbn [negb]. rewrite Hkept.
  destruct (String.eqb (String.concat "/" (keptSegments before false ++ [s]))
              EmptyString) eqn:Hnone.
  { apply String.eqb_eq in Hnone. apply concat_nonempty in Hnone; [done| |].
    - apply Forall_app. split; [apply keptSegments_nonempty|by repeat constructor].
    - by destruct (keptSegments before false). }
  by rewrite string_app_assoc.
Qed.

(** On an absolute pathname that [path.normalize] leaves as it is and
    the name of an entry, [path.join] only puts the two together. *)
Lemma join_name p s :
  isAbsolute p = true → normalize p = p → isEntryName s →
  join p s = if endsWith p sep then (p ++ s)%string else (p ++ String sep s)%string.
Proof.
  intros Habsolute Hsame (Hempty & Hcurrent & Hparent & Hsep).
  unfold join.
  assert (String.eqb p EmptyString = false) as -> by (by destruct p).
  rewrite (proj2 (String.eqb_neq _ _) Hempty).
  pose proof (normalize_name p s false (or_intror Habsolute) Hempty Hcurrent Hparent Hsep)
    as Hjoined.
  rewrite !string_app_nil_r in Hjoined. rewrite Hjoined, concat_snoc.
  pose proof (normalized_absolute p Habsolute Hsame) as Hp.
  destruct (keptSegments p false) as [|x kept].
  - rewrite Hp. done.
  - destruct (endsWith p sep); rewrite Hp;
      rewrite ?string_app_nil_r, ?string_app_assoc; done.
Qed.

(** The pathname pushed for a directory of such a pathname is absolute
    and left as it is by [path.normalize] too. *)
Lemma normalize_child p s :
  isAbsolute p = true → normalize p = p → endsWith p sep = true →
  isEntryName s →
  normalize (p ++ s ++ "/")%string = (p ++ s ++ "/")%string
  ∧ isAbsolute (p ++ s ++ "/")%string = true.
Proof.
  intros Habsolute Hsame Hends (Hempty & Hcurrent & Hparent & Hsep).
  split; [|by destruct p].
  pose proof (normalized_absolute p Habsolute Hsame) as Hp. rewrite Hends in Hp.
  destruct (endsWith_snoc p sep Hends) as [q Hq].
  assert (keptSegments q false = keptSegments p false) as Hkept.
  { by rewrite Hq, keptSegments_separator. }
  assert ((p ++ s ++ "/")%string = (q ++ String sep (s ++ "/"))%string) as ->.
  { rewrite Hq, string_app_assoc. done. }
  assert (q = EmptyString ∨ isAbsolute q = true) as Hq_absolute.
  { destruct q; [by left|right; by subst p]. }
  rewrite (normalize_name q s true) by done.
  rewrite Hkept, concat_snoc.
  assert ((q ++ String sep (s ++ "/"))%string = (p ++ s ++ "/")%string) as ->.
  { rewrite Hq, string_app_assoc. done. }
  destruct (keptSegments p false) as [|x kept]; rewrite Hp;
    by rewrite ?string_app_assoc.
Qed.

(** The pathname pushed for a directory entry named as a listing names
    it, of an
    absolute pathname that [path.normalize] leaves as it is: what
    [path.join] gives, then the separator; it has at least one segment
    more than the pathname. *)
Lemma pushed_directory_segments pathname d :
  isAbsolute pathname = true → normalize pathname = pathname →
  direntType d = IsDirectory → isEntryName (name d) →
  pushedPathname pathname d = Some (join pathname (name d) ++ "/")%string
  ∧ (segmentCount sep pathname + 1
     ≤ segmentCount sep (join pathname (name d) ++ "/")%string)%Z.
Proof.
  intros Habsolute Hsame Hkind Hname.
  pose proof Hname as (Hempty & _ & _ & Hsep).
  assert (endsWith (join pathname (name d)) sep = false
          ∧ countChars (isChar sep) pathname
            ≤ countChars (isChar sep) (join pathname (name d))) as [Hends Hcount].
  { rewrite (join_name pathname (name d)) by done.
    destruct (endsWith pathname sep); unfold endsWith;
      rewrite lastChar_app by done.
    - split; [apply (endsWith_none sep (name d) Hsep)|]. rewrite countChars_app. lia.
    - assert (lastChar (String sep (name d)) = lastChar (name d)) as ->
        by (by destruct (name d)).
      split; [apply (endsWith_none sep (name d) Hsep)|].
      rewrite countChars_app, countChars_cons_same. lia. }
  split.
  - unfold pushedPathname, Dirent_isFile, Dirent_isDirectory.
    rewrite Hkind, Hends. done.
  - unfold segmentCount. rewrite !split_length, countChars_app.
    change (countChars (isChar sep) "/") with 1. lia.
Qed.








(** With [depthLimit] at 0, the file [c.js] of [/root/b/] is not
    listed; without a limit it is. *)
Example depth_limit_zero_lists_children_only :
  enumerate 10 (sampleFs [ {| name := "c.js"; direntType := IsFile |} ]) sampleRoot
    (Some (depthLimitOptions 0))
  = inr ([rootFolder; aTxt; bFolder], Ended)
  ∧ enumerate 10 (sampleFs [ {| name := "c.js"; direntType := IsFile |} ]) sampleRoot None
    = inr ([rootFolder; aTxt; bFolder;
            FileItem {| fileFolderPathname := "/root/b/"; fileName := "c";
                        extension := "js" |}], Ended).
Proof. split; reflexivity. Qed.

End Walker.

(** * Further properties

    The functions around the ones above: what they do at the edges, what
    they keep, and how they compose. *)

(** ** Statistics of several files *)

Section StatisticsOfFiles.
Import TestCallEngine Vocabulary.

Lemma countOf_app P `{∀ e, Decision (P e)} l1 l2 :
  countOf P (l1 ++ l2) = (countOf P l1 + countOf P l2)%Z.
Proof. unfold countOf. rewrite filter_app, length_app. lia. Qed.

Lemma TestExecutionStatistics_eq (a b : TestExecutionStatistics) :
  ok a = ok b → ko a = ko b → skipped a = skipped b → total a = total b → a = b.
Proof. destruct a, b; cbn; congruence. Qed.

(** X1. The statistics of the records of two runs put together are the
    sum, made by [addTestExecutionStatistics], of the statistics of
    each. *)
Theorem statistics_of_concatenation (l1 l2 : list TestCallExecution) :
  makeTestExecutionStatistics (l1 ++ l2)
  = addTestExecutionStatistics (makeTestExecutionStatistics l1)
      (makeTestExecutionStatistics l2).
Proof.
  unfold makeTestExecutionStatistics.
  destruct (fold_addTestExecution_counts (l1 ++ l2) newTestExecutionStatistics)
    as (Hok & Hko & Hsk & Htot).
  destruct (fold_addTestExecution_counts l1 newTestExecutionStatistics)
    as (Hok1 & Hko1 & Hsk1 & Htot1).
  destruct (fold_addTestExecution_counts l2 newTestExecutionStatistics)
    as (Hok2 & Hko2 & Hsk2 & Htot2).
  apply TestExecutionStatistics_eq; cbn [addTestExecutionStatistics ok ko skipped total].
  - rewrite Hok, Hok1, Hok2, (countOf_app countsAsOk l1 l2). cbn. lia.
  - rewrite Hko, Hko1, Hko2, (countOf_app countsAsKo l1 l2). cbn. lia.
  - rewrite Hsk, Hsk1, Hsk2, (countOf_app countsAsSkipped l1 l2). cbn. lia.
  - rewrite Htot, Htot1, Htot2, length_app. cbn. lia.
Qed.

End StatisticsOfFiles.

(** ** A run, record by record *)

Section EngineBehaviour.
Import TestCallEngine Vocabulary RunVocabulary.

Lemma isExecuted_bool skip e :
  bool_decide (timeoutDuration (testCall e) = None) || negb skip = true ↔ isExecuted skip e.
Proof.
  unfold isExecuted. rewrite orb_true_iff, bool_decide_eq_true, negb_true_iff. done.
Qed.

Lemma executeTestCall_sameTest e defaultDelay e' continuation hasTimedOut :
  executeTestCall e defaultDelay = (e', continuation, hasTimedOut) → sameTest e e'.
Proof.
  unfold executeTestCall, race, onFulfilled, onRejected, compareWithObtainedError, sameTest.
  repeat case_match; intros; simplify_eq; done.
Qed.

Lemma cancelTestCallExecution_error reason e :
  testExecutionStatus (cancelTestCallExecution reason e) = CANCELLED_EXECUTION
  ∧ ∃ err, executionError (cancelTestCallExecution reason e) = Some err
           ∧ instanceofError err = true.
Proof.
  unfold cancelTestCallExecution. cbn. split; [done|].
  destruct (instanceofError reason) eqn:Hreason; eauto.
Qed.

Lemma executeTestCall_cancel e defaultDelay e' hasTimedOut :
  executeTestCall e defaultDelay = (e', CancelExecution, hasTimedOut) →
  testExecutionStatus e' = CANCELLED_EXECUTION
  ∧ ∃ err, executionError e' = Some err ∧ instanceofError err = true.
Proof.
  unfold executeTestCall, onFulfilled, onRejected.
  repeat case_match; intros; simplify_eq; apply cancelTestCallExecution_error.
Qed.

Lemma executeTestCall_obtained e defaultDelay e' hasTimedOut :
  executeTestCall e defaultDelay = (e', ExecuteNextTestCall, hasTimedOut) →
  is_Some (obtained e').
Proof.
  unfold executeTestCall, onFulfilled, onRejected, compareWithObtainedError.
  repeat case_match; intros; simplify_eq; by eexists.
Qed.

(** The loop, from [offset] to the record [stop] where it ends: the
    records before [stop] are skipped or their call is made and compared;
    the call of the record at [stop], if there is one, cancels the run;
    the others are not touched. *)
Lemma executeNextTestCall_steps fuel defaultDelay skip : ∀ offset st st',
  executeNextTestCall fuel defaultDelay skip offset st = Some st' →
  ∃ stop new,
    offset ≤ stop
    ∧ events st' = events st ++ new
    ∧ length (executions st') = length (executions st)
    ∧ (∀ i, i < offset ∨ stop < i → executions st' !! i = executions st !! i)
    ∧ (∀ i e, offset ≤ i < stop → executions st !! i = Some e →
         (isExecuted skip e
          ∧ ∃ e', executeTestCall e defaultDelay = (e', ExecuteNextTestCall, false)
                  ∧ executions st' !! i = Some e')
         ∨ (¬ isExecuted skip e
            ∧ executions st' !! i = Some (setStatus SKIPPED_EXECUTION e)))
    ∧ (∀ e, executions st !! stop = Some e →
         isExecuted skip e
         ∧ ∃ e' hasTimedOut,
             executeTestCall e defaultDelay = (e', CancelExecution, hasTimedOut)
             ∧ executions st' !! stop = Some e')
    ∧ (∀ i, CallStarted i ∈ new ∨ TimerFired i ∈ new →
         offset ≤ i ≤ stop
         ∧ ∃ e, executions st !! i = Some e ∧ isExecuted skip e).
Proof.
  induction fuel as [|fuel IH]; intros offset st st'; [discriminate|].
  cbn [executeNextTestCall].
  case_bool_decide as Hoffset.
  2:{ intros [= <-]. exists offset, []. rewrite app_nil_r.
      split_and!; try done.
      - intros i e Hi. lia.
      - intros e He. apply lookup_lt_Some in He. lia.
      - intros i [Hi|Hi]; inversion Hi. }
  destruct (executions st !! offset) as [e|] eqn:He.
  2:{ apply lookup_ge_None in He. lia. }
  destruct (bool_decide (timeoutDuration (testCall e) = None) || negb skip) eqn:Hexecuted.
  - apply isExecuted_bool in Hexecuted.
    destruct (executeTestCall e defaultDelay) as [[e' continuation] hasTimedOut] eqn:Hcall.
    destruct continuation.
    + destruct (executeTestCall_next _ _ _ _ Hcall) as (-> & _ & _).
      intros Hrun.
      apply IH in Hrun as (stop & new & Hstop & Hevents & Hlen & Hsame & Hrange & Hend & Hlog).
      cbn in Hevents, Hlen, Hsame, Hrange, Hend, Hlog. rewrite length_insert in Hlen.
      exists stop, (CallStarted offset :: new).
      split_and!; [lia| |done| | | |].
      * rewrite Hevents, <- app_assoc. done.
      * intros i Hi. rewrite Hsame by lia. apply list_lookup_insert_ne. lia.
      * intros i e0 Hi He0. destruct (decide (i = offset)) as [->|Hne].
        -- left. simplify_eq. split; [done|]. exists e'. split; [done|].
           rewrite Hsame by lia. by apply list_lookup_insert_eq.
        -- apply Hrange; [lia|]. rewrite list_lookup_insert_ne by lia. done.
      * intros e0 He0. apply Hend. rewrite list_lookup_insert_ne by lia. done.
      * intros i Hi.
        assert (i = offset ∨ (CallStarted i ∈ new ∨ TimerFired i ∈ new)) as [->|Hnew].
        { destruct Hi as [Hi|Hi]; apply elem_of_cons in Hi as [Hi|Hi];
            simplify_eq; auto. }
        -- split; [lia|]. by exists e.
        -- destruct (Hlog i Hnew) as (Hle & e0 & He0 & Hex).
           split; [lia|]. exists e0. split; [|done].
           rewrite list_lookup_insert_ne in He0 by lia. done.
    + intros [= <-]. cbn. rewrite length_insert.
      exists offset, (CallStarted offset :: (if hasTimedOut then [TimerFired offset] else [])).
      split_and!; try done.
      * intros i Hi. apply list_lookup_insert_ne. lia.
      * intros i e0 Hi. lia.
      * intros e0 He0. simplify_eq. split; [done|]. exists e', hasTimedOut.
        split; [done|]. by apply list_lookup_insert_eq.
      * intros i Hi.
        assert (i = offset) as ->.
        { destruct Hi as [Hi|Hi]; apply elem_of_cons in Hi as [Hi|Hi];
            simplify_eq; try done;
            destruct hasTimedOut; try (by inversion Hi);
            apply list_elem_of_singleton in Hi; by simplify_eq. }
        split; [lia|]. by exists e.
  - assert (¬ isExecuted skip e) as Hskipped.
    { rewrite <- isExecuted_bool, Hexecuted. done. }
    intros Hrun.
    apply IH in Hrun as (stop & new & Hstop & Hevents & Hlen & Hsame & Hrange & Hend & Hlog).
    cbn in Hevents, Hlen, Hsame, Hrange, Hend, Hlog. rewrite length_insert in Hlen.
    exists stop, (CallSkipped offset :: new).
    split_and!; [lia| |done| | | |].
    * rewrite Hevents, <- app_assoc. done.
    * intros i Hi. rewrite Hsame by lia. apply list_lookup_insert_ne. lia.
    * intros i e0 Hi He0. destruct (decide (i = offset)) as [->|Hne].
      -- right. simplify_eq. split; [done|].
         rewrite Hsame by lia. by apply list_lookup_insert_eq.
      -- apply Hrange; [lia|]. rewrite list_lookup_insert_ne by lia. done.
    * intros e0 He0. apply Hend. rewrite list_lookup_insert_ne by lia. done.
    * intros i Hi.
      assert (CallStarted i ∈ new ∨ TimerFired i ∈ new) as Hnew.
      { destruct Hi as [Hi|Hi]; apply elem_of_cons in Hi as [Hi|Hi];
          simplify_eq; auto. }
      destruct (Hlog i Hnew) as (Hle & e0 & He0 & Hex).
      split; [lia|]. exists e0. split; [|done].
      rewrite list_lookup_insert_ne in He0 by lia. done.
Qed.

(** A run that starts resolves, and what it does is what the loop does
    from the first record. *)
Lemma run_steps options s :
  running s = false →
  ∃ st, run options s
        = (Resolved (executions st) (events st),
           {| running := false; testCallExecutions := executions st |})
    ∧ executeNextTestCall (S (length (testCallExecutions s))) DEFAULT_TIMEOUT_DURATION
        (skipTimeboxedTests options) 0
        {| executions := testCallExecutions s; events := [] |} = Some st.
Proof.
  intros Hrunning. unfold run, executeTestCalls. rewrite Hrunning.
  destruct (executeNextTestCall_returns (S (length (testCallExecutions s)))
              DEFAULT_TIMEOUT_DURATION (skipTimeboxedTests options) 0
              {| executions := testCallExecutions s; events := [] |}) as [st Hst];
    [cbn; lia|].
  exists st. by rewrite Hst.
Qed.

(** X2. A run neither adds, removes nor reorders records, and it leaves
    the call and the expectation of every record as they were
    registered; the supervisor keeps the records of the result and is
    not running any more.  A run asked of a supervisor that is running
    is rejected and changes nothing. *)
Theorem run_keeps_the_registered_calls options s :
  match run options s with
  | (Resolved result log, s') =>
      running s = false
      ∧ Forall2 sameTest (testCallExecutions s) result
      ∧ s' = {| running := false; testCallExecutions := result |}
  | (RejectedRun reason, s') =>
      running s = true ∧ s' = s
      ∧ reason = newError "`run()` has already been called"
  | (StillRunning, _) => False
  end.
Proof.
  destruct (running s) eqn:Hrunning.
  { unfold run. rewrite Hrunning. done. }
  destruct (run_steps options s Hrunning) as (st & -> & Hloop).
  split; [done|]. split; [|done].
  apply executeNextTestCall_steps in Hloop
    as (stop & new & _ & _ & Hlen & Hsame & Hrange & Hend & _).
  cbn in Hlen, Hsame, Hrange, Hend.
  apply Forall2_same_length_lookup. split; [done|].
  intros i e e' He He'.
  destruct (decide (i < stop)) as [Hbefore|Hafter].
  - destruct (Hrange i e) as [(_ & e1 & Hcall & He1)|(_ & He1)]; [lia|done| |].
    + simplify_eq. by eapply executeTestCall_sameTest.
    + simplify_eq. done.
  - destruct (decide (i = stop)) as [->|Hne].
    + destruct (Hend e He) as (_ & e1 & h & Hcall & He1).
      simplify_eq. by eapply executeTestCall_sameTest.
    + rewrite Hsame in He' by lia. simplify_eq. done.
Qed.

(** X3. The records of a run, in order: first the records the run went
    past, each done or, with the option, skipped; then at most one
    cancelled record, which carries an [Error]; then the records the run
    never reached, exactly as they were.  A done record holds what was
    obtained. *)
Theorem run_result_shape options s :
  running s = false →
  ∃ result log s' stop,
    run options s = (Resolved result log, s')
    ∧ (∀ i e', i < stop → result !! i = Some e' →
         wentPast (skipTimeboxedTests options) e'
         ∧ (testExecutionStatus e' = DONE_EXECUTION → is_Some (obtained e')))
    ∧ (∀ e', result !! stop = Some e' →
         testExecutionStatus e' = CANCELLED_EXECUTION
         ∧ ∃ err, executionError e' = Some err ∧ instanceofError err = true)
    ∧ (∀ i, stop < i → result !! i = testCallExecutions s !! i).
Proof.
  intros Hrunning.
  destruct (run_steps options s Hrunning) as (st & Hrun & Hloop).
  apply executeNextTestCall_steps in Hloop
    as (stop & new & _ & _ & Hlen & Hsame & Hrange & Hend & _).
  cbn in Hlen, Hsame, Hrange, Hend.
  eexists _, _, _, stop. split; [exact Hrun|]. split_and!.
  - intros i e' Hi He'.
    destruct (lookup_lt_is_Some_2 (testCallExecutions s) i) as [e He].
    { rewrite <- Hlen. by eapply lookup_lt_Some. }
    destruct (Hrange i e) as [(_ & e1 & Hcall & He1)|(Hskipped & He1)]; [lia|done| |].
    + simplify_eq. split.
      * left. by apply executeTestCall_next in Hcall as (_ & ? & _).
      * intros _. by eapply executeTestCall_obtained.
    + simplify_eq. split; [|done].
      right. cbn. unfold isExecuted in Hskipped.
      destruct (skipTimeboxedTests options); [|tauto].
      split_and!; [done..|]. tauto.
  - intros e' He'.
    destruct (lookup_lt_is_Some_2 (testCallExecutions s) stop) as [e He].
    { rewrite <- Hlen. by eapply lookup_lt_Some. }
    destruct (Hend e He) as (_ & e1 & h & Hcall & He1).
    simplify_eq. by eapply executeTestCall_cancel.
  - intros i Hi. apply Hsame. lia.
Qed.

Lemma run_result_shape_witness :
  ∃ result log s' stop,
    run Samples.notSkipping (Samples.registered Samples.timeoutInTheMiddle)
    = (Resolved result log, s')
    ∧ (∀ i e', i < stop → result !! i = Some e' →
         wentPast false e'
         ∧ (testExecutionStatus e' = DONE_EXECUTION → is_Some (obtained e')))
    ∧ (∀ e', result !! stop = Some e' →
         testExecutionStatus e' = CANCELLED_EXECUTION
         ∧ ∃ err, executionError e' = Some err ∧ instanceofError err = true)
    ∧ (∀ i, stop < i →
         result !! i
         = testCallExecutions (Samples.registered Samples.timeoutInTheMiddle) !! i).
Proof.
  exact (run_result_shape Samples.notSkipping
           (Samples.registered Samples.timeoutInTheMiddle) eq_refl).
Defined.

(** X4. When the run skips the timeboxed tests, the call of a record
    with an explicit timeout is never made and its timer never set: the
    record comes out skipped, or as it was when the run was cancelled
    before reaching it; it is skipped whenever no record before it comes
    out cancelled. *)
Theorem timeboxed_calls_never_start_when_skipping s i e :
  running s = false →
  testCallExecutions s !! i = Some e →
  timeoutDuration (testCall e) ≠ None →
  ∃ result log s',
    run {| skipTimeboxedTests := true |} s = (Resolved result log, s')
    ∧ (CallStarted i ∉ log) ∧ (TimerFired i ∉ log)
    ∧ (result !! i = Some (setStatus SKIPPED_EXECUTION e) ∨ result !! i = Some e)
    ∧ ((∀ j e', j < i → result !! j = Some e' →
          testExecutionStatus e' ≠ CANCELLED_EXECUTION) →
       result !! i = Some (setStatus SKIPPED_EXECUTION e)).
Proof.
  intros Hrunning He Htimeout.
  destruct (run_steps {| skipTimeboxedTests := true |} s Hrunning) as (st & Hrun & Hloop).
  apply executeNextTestCall_steps in Hloop
    as (stop & new & _ & Hevents & Hlen & Hsame & Hrange & Hend & Hlog).
  cbn in Hevents, Hlen, Hsame, Hrange, Hend, Hlog.
  assert (¬ isExecuted true e) as Hskipped.
  { unfold isExecuted. intros [?|?]; done. }
  assert (i ≠ stop) as Hstop.
  { intros ->. by destruct (Hend e He) as [? _]. }
  eexists _, _, _. split; [exact Hrun|].
  rewrite Hevents. split_and!.
  - intros Hin. destruct (Hlog i (or_introl Hin)) as (_ & e0 & He0 & Hex).
    by simplify_eq.
  - intros Hin. destruct (Hlog i (or_intror Hin)) as (_ & e0 & He0 & Hex).
    by simplify_eq.
  - destruct (decide (i < stop)) as [Hbefore|Hafter].
    + destruct (Hrange i e) as [(? & _)|(_ & ?)]; [lia|done|done|by left].
    + right. rewrite Hsame by lia. done.
  - intros Hnone.
    destruct (decide (i < stop)) as [Hbefore|Hafter].
    + destruct (Hrange i e) as [(? & _)|(_ & ?)]; [lia|done|done|done].
    + exfalso.
      destruct (lookup_lt_is_Some_2 (testCallExecutions s) stop) as [e0 He0].
      { apply lookup_lt_Some in He. lia. }
      destruct (Hend e0 He0) as (_ & e1 & h & Hcall & He1).
      apply (Hnone stop e1); [lia|done|].
      by apply executeTestCall_cancel in Hcall as [? _].
Qed.

Lemma timeboxed_calls_never_start_when_skipping_witness :
  let s := Samples.registered Samples.timeboxedThenSlow in
  ∃ e, testCallExecutions s !! 0 = Some e
    ∧ timeoutDuration (testCall e) ≠ None
    ∧ ∃ result log s',
        run {| skipTimeboxedTests := true |} s = (Resolved result log, s')
        ∧ (CallStarted 0 ∉ log) ∧ (TimerFired 0 ∉ log)
        ∧ (result !! 0 = Some (setStatus SKIPPED_EXECUTION e) ∨ result !! 0 = Some e)
        ∧ ((∀ j e', j < 0 → result !! j = Some e' →
              testExecutionStatus e' ≠ CANCELLED_EXECUTION) →
           result !! 0 = Some (setStatus SKIPPED_EXECUTION e)).
Proof.
  eexists. split; [reflexivity|]. split; [discriminate|].
  apply (timeboxed_calls_never_start_when_skipping
           (Samples.registered Samples.timeboxedThenSlow) 0 _ eq_refl eq_refl).
  discriminate.
Defined.





Lemma timerDelay_positive duration : (1 ≤ timerDelay duration ≤ 2147483647)%Z.
Proof.
  unfold timerDelay.
  destruct (duration <? 1)%Z eqn:Hlow; cbn; [lia|].
  destruct (2147483647 <? duration)%Z eqn:Hhigh; lia.
Qed.

(** X6. The timer of a call fires exactly when the function returns a
    promise that settles later than the delay of the timer, or never: a
    function that returns a plain value or throws cannot time out,
    whatever its timeout.  When the timer fires, the record is cancelled
    with the time-out error and the run stops. *)
Theorem timer_fires_on_late_promises_only e defaultDelay :
  let duration := default defaultDelay (timeoutDuration (testCall e)) in
  let '(e', continuation, hasTimedOut) := executeTestCall e defaultDelay in
  (hasTimedOut = true
   ↔ match fn (testCall e) (values (testCall e)) with
     | Returns _ | Throws _ => False
     | FulfilsAfter delay _ | RejectsAfter delay _ => (timerDelay duration < delay)%Z
     | NeverSettles => True
     end)
  ∧ (hasTimedOut = true →
     continuation = CancelExecution
     ∧ e' = cancelTestCallExecution (timeoutError duration) e).
Proof.
  cbn zeta. unfold executeTestCall, race, promisedTestResult.
  pose proof (timerDelay_positive (default defaultDelay (timeoutDuration (testCall e)))).
  destruct (fn (testCall e) (values (testCall e))) as [v|reason|delay v|delay reason|];
    repeat case_match; simplify_eq; cbn;
    repeat match goal with
    | H : (_ <=? _)%Z = true |- _ => apply Z.leb_le in H
    | H : (_ <=? _)%Z = false |- _ => apply Z.leb_gt in H
    end;
    (split; [split; intros; try done; try lia|intros; try done; try lia]);
    unfold onRejected in *; simplify_eq; done.
Qed.

End EngineBehaviour.

(** ** Utilities *)

Section UtilitiesBehaviour.


Lemma compareStringsAscending_le a b :
  (compareStringsAscending a b ≤ 0)%Z
  ↔ b = EmptyString ∨ (a ≠ EmptyString ∧ String.le a b).
Proof.
  destruct (decide (a = EmptyString)) as [->|Ha], (decide (b = EmptyString)) as [->|Hb].
  - cbn. intuition lia.
  - unfold compareStringsAscending. rewrite (proj2 (String.eqb_neq b _) Hb). cbn.
    split; [lia|]. intros [?|[? _]]; done.
  - unfold compareStringsAscending. rewrite (proj2 (String.eqb_neq a _) Ha). cbn.
    split; [by left|lia].
  - rewrite compareStringsAscending_compare by done.
    unfold String.le, String.leb.
    destruct (String.compare a b); cbn; split; try lia; try (intros _; by right);
      intros [?|[_ ?]]; done.
Qed.

(** X8. [compareStringsAscending] is a consistent comparator: swapping
    the arguments flips the sign, the result is 0 for equal strings
    only, going before is transitive, and the empty string comes after
    every other string. *)
Theorem compareStringsAscending_consistent :
  (∀ a b, compareStringsAscending a b = (- compareStringsAscending b a)%Z)
  ∧ (∀ a b, compareStringsAscending a b = 0%Z ↔ a = b)
  ∧ (∀ a b c, (compareStringsAscending a b ≤ 0)%Z → (compareStringsAscending b c ≤ 0)%Z →
       (compareStringsAscending a c ≤ 0)%Z)
  ∧ (∀ a, a ≠ EmptyString →
       compareStringsAscending a EmptyString = (-1)%Z
       ∧ compareStringsAscending EmptyString a = 1%Z).
Proof.
  assert (∀ a b, a ≠ EmptyString → b = EmptyString → compareStringsAscending a b = (-1)%Z)
    as Hlast.
  { intros a b Ha ->. unfold compareStringsAscending.
    rewrite (proj2 (String.eqb_neq a _) Ha). done. }
  assert (∀ a b, a = EmptyString → b ≠ EmptyString → compareStringsAscending a b = 1%Z)
    as Hfirst.
  { intros a b -> Hb. unfold compareStringsAscending.
    rewrite (proj2 (String.eqb_neq b _) Hb). done. }
  split_and!.
  - intros a b.
    destruct (decide (a = EmptyString)) as [Ha|Ha], (decide (b = EmptyString)) as [Hb|Hb].
    + by subst.
    + rewrite (Hfirst a b), (Hlast b a) by done. done.
    + rewrite (Hfirst b a), (Hlast a b) by done. done.
    + rewrite !compareStringsAscending_compare by done.
      rewrite (String.compare_antisym a b).
      destruct (String.compare b a); done.
  - intros a b.
    destruct (decide (a = EmptyString)) as [Ha|Ha], (decide (b = EmptyString)) as [Hb|Hb].
    + by subst.
    + rewrite (Hfirst a b) by done. split; [done|congruence].
    + rewrite (Hlast a b) by done. split; [done|congruence].
    + rewrite compareStringsAscending_compare by done.
      destruct (String.compare a b) eqn:Hcompare.
      * apply String.compare_eq_iff in Hcompare. done.
      * split; [done|]. intros ->. by rewrite string_compare_refl in Hcompare.
      * split; [done|]. intros ->. by rewrite string_compare_refl in Hcompare.
  - intros a b c. rewrite !compareStringsAscending_le.
    intros [->|[Ha Hab]] [->|[Hb Hbc]]; auto; try done.
    right. split; [done|]. by etrans.
  - intros a Ha. by rewrite (Hlast a EmptyString), (Hfirst EmptyString a).
Qed.

End UtilitiesBehaviour.

(** ** Pathnames and path items *)

Section PathnameBehaviour.
Import JsString Pathname PathItems PathItemsText.

Local Notation "'toSlash'" :=
  (fun c : Ascii.ascii => if Ascii.eqb c backslash then NORMAL_SEPARATOR else c).

Lemma toSlash_not_backslash c : Ascii.eqb (toSlash c) backslash = false.
Proof. cbn beta. destruct (Ascii.eqb c backslash) eqn:Hc; done. Qed.

Lemma toSlash_separator c : Ascii.eqb (toSlash c) slash = SEPARATOR_REGEXP c.
Proof.
  unfold SEPARATOR_REGEXP. cbn beta.
  destruct (Ascii.eqb c backslash) eqn:Hc; [|by rewrite orb_false_r].
  by rewrite orb_true_r.
Qed.

Lemma toSlash_dot c : Ascii.eqb (toSlash c) dot = Ascii.eqb c dot.
Proof.
  cbn beta. destruct (Ascii.eqb c backslash) eqn:Hc; [|done].
  apply Ascii.eqb_eq in Hc as ->. done.
Qed.

Lemma SEPARATOR_REGEXP_toSlash c : SEPARATOR_REGEXP (toSlash c) = SEPARATOR_REGEXP c.
Proof.
  unfold SEPARATOR_REGEXP at 1.
  rewrite toSlash_separator, toSlash_not_backslash. apply orb_false_r.
Qed.

Lemma mapChars_app f a b :
  mapChars f (a ++ b)%string = (mapChars f a ++ mapChars f b)%string.
Proof. induction a as [|d a IH]; [done|]. rewrite string_app_cons. cbn. by rewrite IH. Qed.

Lemma lastChar_mapChars f s : lastChar (mapChars f s) = f <$> lastChar s.
Proof.
  induction s as [|c s IH]; [done|]. cbn [mapChars lastChar].
  destruct s as [|d s]; [done|]. exact IH.
Qed.

Lemma mapChars_length f s : String.length (mapChars f s) = String.length s.
Proof. induction s as [|c s IH]; [done|]. cbn. by rewrite IH. Qed.

Lemma mapChars_id f s :
  (∀ c, f (f c) = f c) → mapChars f (mapChars f s) = mapChars f s.
Proof. intros Hf. induction s as [|c s IH]; [done|]. cbn. by rewrite Hf, IH. Qed.

Lemma countChars_backslash_normalizePathname p :
  countChars (isChar backslash) (normalizePathname p) = 0.
Proof.
  unfold normalizePathname. induction p as [|c p IH]; [done|].
  cbn [mapChars countChars]. unfold isChar at 1.
  rewrite toSlash_not_backslash, IH. done.
Qed.

Lemma normalizePathname_without_backslash p :
  countChars (isChar backslash) p = 0 → normalizePathname p = p.
Proof.
  unfold normalizePathname. induction p as [|c p IH]; [done|].
  cbn [mapChars countChars]. unfold isChar at 1.
  destruct (Ascii.eqb c backslash); [done|]. intros H. by rewrite IH.
Qed.

Lemma normalizeFolderPathname_ends pathname :
  countChars (isChar backslash) (normalizeFolderPathname pathname) = 0
  ∧ (normalizeFolderPathname pathname = EmptyString
     ∨ endsWith (normalizeFolderPathname pathname) NORMAL_SEPARATOR = true).
Proof.
  pose proof (countChars_backslash_normalizePathname pathname) as Hclean.
  unfold normalizeFolderPathname.
  destruct (String.eqb (normalizePathname pathname) EmptyString) eqn:Hempty; cbn [orb].
  { apply String.eqb_eq in Hempty. auto. }
  destruct (endsWith (normalizePathname pathname) NORMAL_SEPARATOR) eqn:Hends.
  { auto. }
  rewrite countChars_app, Hclean. split; [done|]. right.
  unfold endsWith. rewrite lastChar_app by done. done.
Qed.

(** X9. [normalizePathname] leaves no backslash and keeps the length;
    [normalizeFolderPathname] moreover gives a folder pathname, empty
    for the empty pathname only.  Both leave a pathname they produced as
    it is. *)
Theorem normalized_pathnames_are_stable pathname :
  let normalized := normalizePathname pathname in
  let folder := normalizeFolderPathname pathname in
  countChars (isChar backslash) normalized = 0
  ∧ String.length normalized = String.length pathname
  ∧ normalizePathname normalized = normalized
  ∧ countChars (isChar backslash) folder = 0
  ∧ isFolderPathname folder = true
  ∧ (folder = EmptyString ↔ pathname = EmptyString)
  ∧ normalizeFolderPathname folder = folder.
Proof.
  cbn zeta.
  pose proof (countChars_backslash_normalizePathname pathname) as Hclean.
  destruct (normalizeFolderPathname_ends pathname) as [Hfolder Hends].
  split_and!; [done|apply mapChars_length| |done|..].
  - by apply normalizePathname_without_backslash.
  - unfold isFolderPathname. destruct Hends as [->|Hends]; [done|].
    unfold endsWith, NORMAL_SEPARATOR in Hends.
    destruct (lastChar (normalizeFolderPathname pathname)); [|done].
    rewrite Hends, orb_true_r. by destruct (_ || _).
  - unfold normalizeFolderPathname, normalizePathname.
    destruct pathname as [|c p]; [cbn; done|]. cbn [mapChars].
    split; [|done]. destruct (_ || _); rewrite ?string_app_cons; done.
  - generalize dependent (normalizeFolderPathname pathname). intros folder Hfolder Hends.
    unfold normalizeFolderPathname.
    rewrite (normalizePathname_without_backslash folder Hfolder).
    destruct Hends as [-> | ->]; [done|]. by rewrite orb_true_r.
Qed.

(** X10. [asAbsoluteFile] and [asAbsoluteFolder] never both accept a
    pathname: a pathname that is absolute and resolved makes exactly one
    item, a folder when it is a folder pathname and a file otherwise;
    any other pathname is refused by both. *)
Theorem one_kind_of_item_per_pathname pathname :
  match asAbsoluteFile pathname, asAbsoluteFolder pathname with
  | inr _, inr _ => False
  | inr _, inl _ =>
      isAbsolutePathname pathname = true ∧ isResolvedPathname pathname = true
      ∧ isFolderPathname pathname = false
  | inl _, inr _ =>
      isAbsolutePathname pathname = true ∧ isResolvedPathname pathname = true
      ∧ isFolderPathname pathname = true
  | inl _, inl _ =>
      isAbsolutePathname pathname = false ∨ isResolvedPathname pathname = false
  end.
Proof.
  unfold asAbsoluteFile, asAbsoluteFolder, assumeResolvedAbsoluteFilePathname,
    assumeResolvedAbsoluteFolderPathname.
  destruct (isAbsolutePathname pathname) eqn:Habsolute; cbn [andb]; [|by left].
  destruct (isResolvedPathname pathname) eqn:Hresolved; cbn [andb]; [|by right].
  destruct (isFolderPathname pathname) eqn:Hfolder; cbn [andb negb].
  - assert (String.eqb pathname EmptyString = false) as ->.
    { apply String.eqb_neq. intros ->. done. }
    done.
  - destruct (parseFullFileName _). done.
Qed.

(** [s.lastIndexOf(c)] cuts [s] in two around the last [c]. *)
Lemma lastIndexOf_split c s :
  (lastIndexOf c s = (-1)%Z ∧ countChars (isChar c) s = 0)
  ∨ ∃ a b, s = (a ++ String c b)%string
           ∧ lastIndexOf c s = Z.of_nat (String.length a)
           ∧ countChars (isChar c) b = 0.
Proof.
  induction s as [|d s IH]; [by left|].
  cbn [lastIndexOf countChars]. unfold isChar at 1 3.
  destruct IH as [[-> Hnone]|(a & b & -> & -> & Hb)].
  - cbn [Z.eqb]. destruct (Ascii.eqb d c) eqn:Hd.
    + right. apply Ascii.eqb_eq in Hd as ->. exists EmptyString, s. done.
    + left. by rewrite Hnone.
  - right. exists (String d a), b. rewrite string_app_cons. split; [done|]. split; [|done].
    destruct (Z.of_nat (String.length a) =? -1)%Z eqn:Hminus.
    { apply Z.eqb_eq in Hminus. lia. }
    cbn [String.length]. lia.
Qed.

Lemma lastIndexOf_app c a b :
  countChars (isChar c) b = 0 →
  lastIndexOf c (a ++ String c b)%string = Z.of_nat (String.length a).
Proof.
  intros Hb. destruct (lastIndexOf_split c (a ++ String c b)%string)
    as [[_ Hnone]|(a' & b' & Hsame & -> & Hb')].
  { rewrite countChars_app, countChars_cons_same in Hnone. lia. }
  f_equal. revert a' Hsame. induction a as [|d a IH]; intros [|d' a']; cbn.
  - done.
  - rewrite string_app_cons. intros [= <- ->].
    rewrite countChars_app, countChars_cons_same in Hb. lia.
  - rewrite string_app_cons. intros [= -> <-].
    rewrite countChars_app, countChars_cons_same in Hb'. lia.
  - rewrite !string_app_cons. intros [= <- Hrest]. f_equal. by apply IH.
Qed.

Lemma lastIndexOf_none c s : countChars (isChar c) s = 0 → lastIndexOf c s = (-1)%Z.
Proof.
  intros Hs. destruct (lastIndexOf_split c s) as [[-> _]|(a & b & -> & _ & _)]; [done|].
  rewrite countChars_app, countChars_cons_same in Hs. lia.
Qed.

Lemma substring_prefix a b :
  String.substring 0 (String.length a) (a ++ b)%string = a.
Proof.
  induction a as [|d a IH].
  - change (EmptyString ++ b)%string with b. by destruct b.
  - rewrite string_app_cons. cbn. by rewrite IH.
Qed.

Lemma substring_suffix a b :
  String.substring (String.length a) (String.length b) (a ++ b)%string = b.
Proof.
  induction a as [|d a IH].
  - change (EmptyString ++ b)%string with b. cbn.
    induction b as [|d b IH]; [done|]. cbn. by rewrite IH.
  - rewrite string_app_cons. cbn. exact IH.
Qed.

Lemma append_length a b :
  String.length (a ++ b)%string = String.length a + String.length b.
Proof. induction a as [|d a IH]; [done|]. rewrite string_app_cons. cbn. by rewrite IH. Qed.

(** The three cuts the path items make at the last [c] of
    [a ++ c :: b]. *)
Lemma cuts_at_last c a b :
  countChars (isChar c) b = 0 →
  let s := (a ++ String c b)%string in
  let offset := lastIndexOf c s in
  substring 0 offset s = a
  ∧ substring 0 (offset + 1) s = (a ++ String c EmptyString)%string
  ∧ substringFrom (offset + 1) s = b.
Proof.
  intros Hb. cbn zeta. rewrite lastIndexOf_app by done.
  unfold substring, substringFrom.
  replace (Z.to_nat 0) with 0 by done.
  replace (Z.to_nat (Z.of_nat (String.length a) + 1)) with (String.length a + 1) by lia.
  rewrite Nat2Z.id, !Nat.sub_0_r. split_and!.
  - apply substring_prefix.
  - change (a ++ String c b)%string with (a ++ (String c EmptyString ++ b))%string.
    rewrite <- string_app_assoc.
    replace (String.length a + 1) with (String.length (a ++ String c EmptyString)%string).
    { apply substring_prefix. }
    rewrite append_length. done.
  - change (a ++ String c b)%string with (a ++ (String c EmptyString ++ b))%string.
    rewrite <- string_app_assoc.
    replace (String.length a + 1) with (String.length (a ++ String c EmptyString)%string)
      by (by rewrite append_length).
    replace (String.length ((a ++ String c EmptyString) ++ b)%string
             - String.length (a ++ String c EmptyString)%string)
      with (String.length b) by (rewrite (append_length (a ++ _)%string b); lia).
    apply substring_suffix.
Qed.

Lemma parseFullFileName_cut stem ext :
  countChars (isChar dot) ext = 0 →
  parseFullFileName (stem ++ String dot ext)%string = (stem, ext).
Proof.
  intros Hext. unfold parseFullFileName.
  destruct (cuts_at_last dot stem ext Hext) as (Hstem & _ & Hrest).
  cbn zeta in Hstem, Hrest. rewrite Hstem, Hrest.
  rewrite lastIndexOf_app by done.
  destruct (Z.of_nat (String.length stem) =? -1)%Z eqn:Hminus; [|done].
  apply Z.eqb_eq in Hminus. lia.
Qed.

Lemma parseFullFileName_parts fullFileName :
  let '(name, ext) := parseFullFileName fullFileName in
  countChars (isChar dot) ext = 0
  ∧ ((ext = EmptyString ∧ fullFileName = name ∧ countChars (isChar dot) name = 0)
     ∨ fullFileName = (name ++ String dot ext)%string).
Proof.
  destruct (lastIndexOf_split dot fullFileName) as [[Hminus Hnone]|(a & b & -> & _ & Hb)].
  - unfold parseFullFileName. rewrite Hminus. cbn. auto.
  - rewrite parseFullFileName_cut by done. auto.
Qed.

(** X11. [parseFullFileName] cuts at the last dot: a name without a dot
    is all file name; [stem.ext] with no dot in [ext] gives back [stem]
    and [ext]; and in every case the extension holds no dot and the name
    read is the file name alone or the file name, a dot and the
    extension. *)
Theorem parseFullFileName_round_trip :
  (∀ fullFileName, countChars (isChar dot) fullFileName = 0 →
     parseFullFileName fullFileName = (fullFileName, EmptyString))
  ∧ (∀ stem ext, countChars (isChar dot) ext = 0 →
       parseFullFileName (stem ++ String dot ext)%string = (stem, ext))
  ∧ (∀ fullFileName,
       let '(name, ext) := parseFullFileName fullFileName in
       countChars (isChar dot) ext = 0
       ∧ ((ext = EmptyString ∧ fullFileName = name ∧ countChars (isChar dot) name = 0)
          ∨ fullFileName = (name ++ String dot ext)%string)).
Proof.
  split_and!.
  - intros fullFileName Hnone. unfold parseFullFileName.
    by rewrite lastIndexOf_none.
  - apply parseFullFileName_cut.
  - apply parseFullFileName_parts.
Qed.

Lemma isAbsolute_normalizePathname p :
  isAbsolute p = true → isAbsolute (normalizePathname p) = true.
Proof.
  destruct p as [|c p]; [done|]. cbn [normalizePathname mapChars isAbsolute].
  unfold normalizePathname. cbn [mapChars isAbsolute].
  rewrite toSlash_separator. unfold SEPARATOR_REGEXP. intros ->. done.
Qed.

Lemma NAVIGATION_REGEXP_normalizePathname p :
  NAVIGATION_REGEXP (normalizePathname p) = NAVIGATION_REGEXP p.
Proof.
  unfold normalizePathname. induction p as [|c p IH]; [done|].
  destruct p as [|d p]; [done|].
  change (NAVIGATION_REGEXP (String c (String d p)))
    with ((Ascii.eqb c dot && SEPARATOR_REGEXP d) || NAVIGATION_REGEXP (String d p)).
  rewrite <- IH. cbn [mapChars NAVIGATION_REGEXP].
  by rewrite toSlash_dot, SEPARATOR_REGEXP_toSlash.
Qed.

Lemma eqb_normalizePathname p s :
  countChars (isChar backslash) s = 0 → countChars (isChar slash) s = 0 →
  String.eqb (normalizePathname p) s = String.eqb p s.
Proof.
  unfold normalizePathname. revert s. induction p as [|c p IH]; intros [|d s]; try done.
  cbn [mapChars countChars String.eqb]. unfold isChar at 1 3.
  destruct (Ascii.eqb d backslash) eqn:Hd1; [done|].
  destruct (Ascii.eqb d slash) eqn:Hd2; [done|].
  intros Hs1 Hs2. rewrite IH by done. f_equal.
  destruct (Ascii.eqb c backslash) eqn:Hc; [|done].
  apply Ascii.eqb_eq in Hc as ->. unfold NORMAL_SEPARATOR.
  rewrite (Ascii.eqb_sym slash d), (Ascii.eqb_sym backslash d), Hd1, Hd2. done.
Qed.

Lemma isResolvedPathname_normalizePathname p :
  isResolvedPathname (normalizePathname p) = isResolvedPathname p.
Proof.
  unfold isResolvedPathname.
  by rewrite NAVIGATION_REGEXP_normalizePathname, !eqb_normalizePathname.
Qed.

Lemma isFolderPathname_normalizePathname p :
  isFolderPathname (normalizePathname p) = isFolderPathname p.
Proof.
  unfold isFolderPathname. rewrite !eqb_normalizePathname by done.
  destruct (_ || _); [done|].
  unfold normalizePathname. rewrite lastChar_mapChars.
  destruct (lastChar p) as [c|]; [|done]. cbn [fmap option_fmap option_map].
  rewrite toSlash_not_backslash, toSlash_separator. unfold SEPARATOR_REGEXP.
  cbn [orb]. apply orb_comm.
Qed.

Lemma endsWith_normalizePathname p c :
  Ascii.eqb c backslash = false →
  endsWith (normalizePathname p) c
  = endsWith p c || (Ascii.eqb c slash && endsWith p backslash).
Proof.
  intros Hc. unfold endsWith, normalizePathname. rewrite lastChar_mapChars.
  destruct (lastChar p) as [d|]; [|by rewrite andb_false_r].
  cbn [fmap option_fmap option_map].
  destruct (Ascii.eqb d backslash) eqn:Hd.
  - apply Ascii.eqb_eq in Hd as ->. unfold NORMAL_SEPARATOR.
    rewrite (Ascii.eqb_sym backslash c), Hc, (Ascii.eqb_sym slash c), andb_true_r. done.
  - by rewrite andb_false_r, orb_false_r.
Qed.

(** X12. The folder that [asAbsoluteFolder] makes of a pathname holds
    the normalized pathname, which ends with the separator, and
    [asPathname] gives it back; the pathname of the item makes the same
    item again. *)
Theorem asAbsoluteFolder_round_trip pathname folder :
  asAbsoluteFolder pathname = inr folder →
  asPathname (FolderItem folder) = normalizePathname pathname
  ∧ endsWith (asPathname (FolderItem folder)) NORMAL_SEPARATOR = true
  ∧ asAbsoluteFolder (asPathname (FolderItem folder)) = inr folder.
Proof.
  unfold asAbsoluteFolder, assumeResolvedAbsoluteFolderPathname, isAbsolutePathname.
  destruct (isAbsolute pathname) eqn:Habsolute; [|done].
  destruct (isResolvedPathname pathname) eqn:Hresolved; [|done].
  destruct (isFolderPathname pathname) eqn:Hfolder; [|done].
  destruct (String.eqb pathname EmptyString) eqn:Hempty; [done|].
  cbn [andb negb]. intros [= <-]. cbn [asPathname folderPathname].
  split; [done|]. split.
  - rewrite endsWith_normalizePathname by done.
    unfold isFolderPathname in Hfolder. rewrite Hempty in Hfolder.
    destruct pathname as [|c p]; [done|]. cbn [isAbsolute] in Habsolute.
    apply Ascii.eqb_eq in Habsolute as ->.
    assert (String.eqb (String slash p) CURRENT_FOLDER = false) as Hcurrent by done.
    assert (String.eqb (String slash p) PARENT_FOLDER = false) as Hparent by done.
    rewrite Hcurrent, Hparent in Hfolder. cbn [orb] in Hfolder.
    unfold endsWith, NORMAL_SEPARATOR.
    destruct (lastChar (String slash p)) as [d|]; [|done].
    rewrite Ascii.eqb_refl. cbn [andb]. by rewrite orb_comm.
  - rewrite isAbsolute_normalizePathname, isResolvedPathname_normalizePathname,
      isFolderPathname_normalizePathname, Hresolved, Hfolder by done.
    rewrite eqb_normalizePathname, Hempty by done. cbn [andb negb].
    do 2 f_equal. apply normalizePathname_without_backslash,
      countChars_backslash_normalizePathname.
Qed.

Lemma asAbsoluteFolder_round_trip_witness :
  let folder := {| folderPathname := "/root/b/" |} in
  asAbsoluteFolder "/root/b/" = inr folder
  ∧ asPathname (FolderItem folder) = normalizePathname "/root/b/"
  ∧ endsWith (asPathname (FolderItem folder)) NORMAL_SEPARATOR = true
  ∧ asAbsoluteFolder (asPathname (FolderItem folder)) = inr folder.
Proof.
  split; [reflexivity|].
  exact (asAbsoluteFolder_round_trip "/root/b/" {| folderPathname := "/root/b/" |}
           eq_refl).
Defined.

(** What is left of a pathname once the dot it ends with is cut. *)
Lemma file_pathname_parts a b name ext :
  countChars (isChar slash) b = 0 →
  parseFullFileName b = (name, ext) →
  let file := {| fileFolderPathname := (a ++ String slash EmptyString)%string;
                 fileName := name; extension := ext |} in
  (if endsWith (a ++ String slash b)%string dot
   then (asPathname (FileItem file) ++ String dot EmptyString)%string
   else asPathname (FileItem file)) = (a ++ String slash b)%string
  ∧ countChars (isChar slash) name = 0
  ∧ countChars (isChar slash) ext = 0
  ∧ countChars (isChar dot) ext = 0.
Proof.
  intros Hb Hparse. cbn zeta.
  pose proof (parseFullFileName_parts b) as Hparts. rewrite Hparse in Hparts.
  destruct Hparts as [Hext Hparts].
  assert (endsWith (a ++ String slash b)%string dot = endsWith b dot) as ->.
  { unfold endsWith. rewrite lastChar_app by done.
    destruct b as [|d b]; [done|]. done. }
  cbn [asPathname fileFolderPathname fileName extension].
  rewrite !string_app_assoc. change (String slash EmptyString ++ ?x)%string with (String slash x).
  destruct Hparts as [(-> & <- & Hname) | ->].
  - rewrite (endsWith_none dot b Hname). cbn. by rewrite Hb.
  - rewrite countChars_app in Hb. cbn [countChars] in Hb.
    assert (countChars (isChar slash) name = 0 ∧ countChars (isChar slash) ext = 0)
      as [Hname Hslash] by lia.
    destruct ext as [|d ext].
    + cbn [String.eqb].
      assert (endsWith (name ++ String dot EmptyString)%string dot = true) as ->.
      { unfold endsWith. rewrite lastChar_app by done. cbn. apply Ascii.eqb_refl. }
      rewrite string_app_assoc. done.
    + assert (endsWith (name ++ String dot (String d ext))%string dot = false) as ->.
      { unfold endsWith. rewrite lastChar_app by done.
        change (lastChar (String dot (String d ext))) with (lastChar (String d ext)).
        apply (endsWith_none dot (String d ext) Hext). }
      cbn [String.eqb]. done.
Qed.

(** [asAbsoluteFile] cuts the normalized pathname at its last separator
    and the rest at its last dot. *)
Lemma asAbsoluteFile_cut pathname file :
  asAbsoluteFile pathname = inr file →
  ∃ a b, normalizePathname pathname = (a ++ String NORMAL_SEPARATOR b)%string
         ∧ countChars (isChar NORMAL_SEPARATOR) b = 0
         ∧ file = {| fileFolderPathname := (a ++ String NORMAL_SEPARATOR EmptyString)%string;
                     fileName := (parseFullFileName b).1;
                     extension := (parseFullFileName b).2 |}.
Proof.
  unfold asAbsoluteFile, assumeResolvedAbsoluteFilePathname, isAbsolutePathname.
  destruct (isAbsolute pathname) eqn:Habsolute; [|done].
  destruct (isResolvedPathname pathname) eqn:Hresolved; [|done].
  destruct (isFolderPathname pathname) eqn:Hfolder; [done|].
  cbn [andb negb].
  apply isAbsolute_normalizePathname in Habsolute.
  destruct (lastIndexOf_split NORMAL_SEPARATOR (normalizePathname pathname))
    as [[_ Hnone]|(a & b & Hsplit & _ & Hb)].
  { destruct (normalizePathname pathname) as [|c q]; [done|].
    cbn [isAbsolute] in Habsolute. cbn [countChars] in Hnone.
    unfold isChar at 1, NORMAL_SEPARATOR in Hnone. rewrite Habsolute in Hnone. lia. }
  rewrite Hsplit.
  destruct (cuts_at_last NORMAL_SEPARATOR a b Hb) as (_ & -> & ->).
  destruct (parseFullFileName b) as [name ext] eqn:Hparse.
  intros [= <-]. exists a, b. by rewrite Hparse.
Qed.

(** X13. The file that [asAbsoluteFile] makes of a pathname gives the
    normalized pathname back through [asPathname], except that a dot at
    the very end of the pathname is lost; its folder pathname ends with
    the separator, and neither its name nor its extension holds a
    separator, nor its extension a dot. *)
Theorem asPathname_asAbsoluteFile pathname file :
  asAbsoluteFile pathname = inr file →
  (if endsWith pathname dot
   then (asPathname (FileItem file) ++ String dot EmptyString)%string
   else asPathname (FileItem file)) = normalizePathname pathname
  ∧ endsWith (fileFolderPathname file) NORMAL_SEPARATOR = true
  ∧ countChars (isChar NORMAL_SEPARATOR) (fileName file) = 0
  ∧ countChars (isChar NORMAL_SEPARATOR) (extension file) = 0
  ∧ countChars (isChar dot) (extension file) = 0.
Proof.
  intros Hfile.
  assert (endsWith pathname dot = endsWith (normalizePathname pathname) dot) as ->.
  { rewrite endsWith_normalizePathname by done. cbn. by rewrite orb_false_r. }
  apply asAbsoluteFile_cut in Hfile as (a & b & -> & Hb & ->).
  cbn [fileFolderPathname fileName extension].
  destruct (parseFullFileName b) as [name ext] eqn:Hparse.
  destruct (file_pathname_parts a b name ext Hb Hparse) as (Hback & Hname & Hext & Hdot).
  split_and!; try done.
  unfold endsWith. rewrite lastChar_app by done. done.
Qed.

Lemma asPathname_asAbsoluteFile_witness :
  let file := {| fileFolderPathname := "/root/"; fileName := "notes"; extension := "" |} in
  asAbsoluteFile "/root/notes." = inr file
  ∧ (if endsWith "/root/notes." dot
     then (asPathname (FileItem file) ++ String dot EmptyString)%string
     else asPathname (FileItem file)) = normalizePathname "/root/notes."
  ∧ endsWith (fileFolderPathname file) NORMAL_SEPARATOR = true
  ∧ countChars (isChar NORMAL_SEPARATOR) (fileName file) = 0
  ∧ countChars (isChar NORMAL_SEPARATOR) (extension file) = 0
  ∧ countChars (isChar dot) (extension file) = 0.
Proof.
  split; [reflexivity|].
  exact (asPathname_asAbsoluteFile "/root/notes."
           {| fileFolderPathname := "/root/"; fileName := "notes"; extension := "" |}
           eq_refl).
Defined.

Lemma cut_before_suffix c a b x y :
  countChars (isChar c) y = 0 →
  (a ++ String c b)%string = (x ++ y)%string →
  ∃ rest, x = (a ++ String c rest)%string ∧ b = (rest ++ y)%string.
Proof.
  intros Hy. revert x. induction a as [|d a IH]; intros [|d' x].
  - change (EmptyString ++ y)%string with y. intros <-.
    rewrite countChars_app, countChars_cons_same in Hy. lia.
  - rewrite string_app_cons. change (EmptyString ++ String c b)%string with (String c b).
    intros [= <- ->]. by exists x.
  - change (EmptyString ++ y)%string with y. intros <-.
    rewrite string_app_cons in Hy. cbn [countChars] in Hy.
    rewrite countChars_app, countChars_cons_same in Hy. lia.
  - rewrite !string_app_cons. intros [= <- Hrest].
    destruct (IH x Hrest) as (rest & -> & ->). by exists rest.
Qed.

Lemma extension_of_suffix pathname file stem ext :
  asAbsoluteFile pathname = inr file →
  countChars (isChar dot) ext = 0 → countChars (isChar slash) ext = 0 →
  normalizePathname pathname = (stem ++ String dot ext)%string →
  extension file = ext.
Proof.
  intros Hfile Hdot Hslash Hsuffix.
  apply asAbsoluteFile_cut in Hfile as (a & b & Hcut & Hb & ->).
  cbn [extension]. rewrite Hsuffix in Hcut.
  destruct (cut_before_suffix NORMAL_SEPARATOR a b stem (String dot ext))
    as (rest & -> & ->); [|done|].
  { unfold NORMAL_SEPARATOR. cbn [countChars]. by rewrite Hslash. }
  by rewrite parseFullFileName_cut.
Qed.

Lemma suffix_of_extension pathname file :
  asAbsoluteFile pathname = inr file →
  extension file ≠ EmptyString →
  ∃ stem, normalizePathname pathname = (stem ++ String dot (extension file))%string.
Proof.
  intros Hfile.
  apply asAbsoluteFile_cut in Hfile as (a & b & -> & Hb & ->).
  cbn [extension]. intros Hext.
  pose proof (parseFullFileName_parts b) as Hparts.
  destruct (parseFullFileName b) as [name ext]. cbn [snd] in Hext |- *.
  destruct Hparts as [_ [(? & _)| ->]]; [done|].
  exists (a ++ String NORMAL_SEPARATOR name)%string.
  rewrite string_app_assoc. done.
Qed.

(** X14. The files whose tests are run are the files whose pathname ends
    with [.js], [.cjs] or [.mjs]: [hasJsLikeExtension] holds of the file
    that [asAbsoluteFile] makes of a pathname exactly then. *)
Theorem js_like_files_by_suffix pathname file :
  asAbsoluteFile pathname = inr file →
  TestFolder.hasJsLikeExtension file = true
  ↔ ∃ stem, normalizePathname pathname = (stem ++ ".js")%string
            ∨ normalizePathname pathname = (stem ++ ".cjs")%string
            ∨ normalizePathname pathname = (stem ++ ".mjs")%string.
Proof.
  intros Hfile. unfold TestFolder.hasJsLikeExtension. split.
  - intros Hjs.
    destruct (suffix_of_extension pathname file Hfile) as [stem Hstem].
    { intros Hempty. rewrite Hempty in Hjs. done. }
    exists stem. rewrite Hstem.
    apply orb_prop in Hjs as [Hjs|Hjs]; [apply orb_prop in Hjs as [Hjs|Hjs]|];
      apply String.eqb_eq in Hjs as ->; auto.
  - intros [stem [Hstem|[Hstem|Hstem]]].
    + by rewrite (extension_of_suffix pathname file stem "js" Hfile eq_refl eq_refl Hstem).
    + by rewrite (extension_of_suffix pathname file stem "cjs" Hfile eq_refl eq_refl Hstem).
    + by rewrite (extension_of_suffix pathname file stem "mjs" Hfile eq_refl eq_refl Hstem).
Qed.

Lemma js_like_files_by_suffix_witness :
  let file := {| fileFolderPathname := "/root/b/"; fileName := "c.test"; extension := "js" |} in
  asAbsoluteFile "/root/b/c.test.js" = inr file
  ∧ (TestFolder.hasJsLikeExtension file = true
     ↔ ∃ stem, normalizePathname "/root/b/c.test.js" = (stem ++ ".js")%string
               ∨ normalizePathname "/root/b/c.test.js" = (stem ++ ".cjs")%string
               ∨ normalizePathname "/root/b/c.test.js" = (stem ++ ".mjs")%string).
Proof.
  split; [reflexivity|].
  exact (js_like_files_by_suffix "/root/b/c.test.js"
           {| fileFolderPathname := "/root/b/"; fileName := "c.test"; extension := "js" |}
           eq_refl).
Defined.

End PathnameBehaviour.

(** ** The walker, from one read to a whole walk *)

Section WalkerBehaviour.
Import JsString Pathname PathItems PathItemsText WalkFolder WalkVocabulary TreeVocabulary.



Lemma spread_asPartial defaults o : spread defaults (asPartial o) = o.
Proof. by destruct o. Qed.

Lemma processFsDirents_nil o : processFsDirents o [] = [].
Proof.
  unfold processFsDirents.
  destruct (arrayFilterFunction o), (arraySortFunction o); done.
Qed.

(** X16. The enumeration of a folder that exists and holds nothing
    yields the folder itself and ends, whatever the options, as long as
    the item filter does not skip the folder. *)
Theorem empty_folder_yields_itself fs absoluteFolder options fsStats fuel :
  readdir fs (folderPathname absoluteFolder) = inr [] →
  stat fs (folderPathname absoluteFolder) = inr fsStats →
  statsType fsStats = IsDirectory →
  asAbsoluteFolder (folderPathname absoluteFolder) = inr absoluteFolder →
  stopsAt (itemFilter (spread DEFAULT_FOLDER_WALKER_OPTIONS (default noOptions options)))
    (folderPathname absoluteFolder) fsStats →
  enumerate (S (S fuel)) fs absoluteFolder options
  = inr ([FolderItem absoluteFolder], Ended).
Proof.
  intros Hreaddir Hstat Hkind Hfolder Hstops.
  unfold enumerate, walkFolder, newFolderWalker, doesFolderExistSync.
  rewrite Hreaddir, spread_asPartial.
  set (resolved := spread DEFAULT_FOLDER_WALKER_OPTIONS (default noOptions options)) in *.
  match goal with
  | |- inr (walk _ _ ?walker) = _ => set (w := walker)
  end.
  assert (overLimit w (folderPathname absoluteFolder) = false) as Hlimit.
  { unfold overLimit, w. cbn [absoluteLengthLimit].
    destruct (depthLimit resolved) as [limit|]; [|done].
    destruct (-1 <? limit)%Z eqn:Hpositive; [|done].
    apply Z.ltb_lt in Hpositive. apply Z.ltb_ge. unfold NORMAL_SEPARATOR, sep. lia. }
  f_equal. cbn [walk].
  rewrite (read_directory fs w [] (folderPathname absoluteFolder) fsStats [])
    by done.
  rewrite Hfolder, processFsDirents_nil. cbn [pathnamesIn omap app].
  by rewrite read_end.
Qed.

Lemma empty_folder_yields_itself_witness :
  enumerate 2 (sampleFs []) {| folderPathname := "/root/b/" |} None
  = inr ([FolderItem {| folderPathname := "/root/b/" |}], Ended).
Proof.
  exact (empty_folder_yields_itself (sampleFs []) {| folderPathname := "/root/b/" |} None
           {| statsType := IsDirectory; mtime := 0 |} 0 eq_refl eq_refl eq_refl eq_refl I).
Defined.



Lemma NAVIGATION_REGEXP_dot_separator a c b :
  SEPARATOR_REGEXP c = true →
  NAVIGATION_REGEXP (a ++ String dot (String c b))%string = true.
Proof.
  intros Hc. induction a as [|d a IH].
  - change (EmptyString ++ ?x)%string with x. cbn [NAVIGATION_REGEXP].
    by rewrite Ascii.eqb_refl, Hc.
  - rewrite string_app_cons. destruct a as [|e a].
    + change (EmptyString ++ ?x)%string with x in *.
      cbn [NAVIGATION_REGEXP] in *. rewrite IH. apply orb_true_r.
    + rewrite string_app_cons in *.
      change (NAVIGATION_REGEXP (String d (String e (a ++ String dot (String c b))%string)))
        with ((Ascii.eqb d dot && SEPARATOR_REGEXP e)
              || NAVIGATION_REGEXP (String e (a ++ String dot (String c b))%string)).
      rewrite IH. apply orb_true_r.
Qed.

(** X18. A pathname with a dot right before a separator, such as the
    pathname of a folder whose name ends with a dot, is not resolved for
    [isResolvedPathname], so no item can be made of it; when the walker
    pops such a folder, no item is pushed for it and the walk stops:
    with an exception that nothing catches, raised in the callback of
    [readdir], or, for a folder over the depth limit, with the stream
    destroyed. *)
Theorem folder_with_a_dot_before_the_separator_stops_the_walk
  fs w stack a c b fsStats fuel :
  let pathname := (a ++ String dot (String c b))%string in
  SEPARATOR_REGEXP c = true →
  absoluteResolvedPathnames w = stack ++ [pathname] →
  stat fs pathname = inr fsStats →
  stopsAt (itemFilter (options w)) pathname fsStats →
  statsType fsStats = IsDirectory →
  isResolvedPathname pathname = false
  ∧ ∃ message,
      asAbsoluteFolder pathname = inl message
      ∧ walk (S fuel) fs w
        = ([], if overLimit w pathname then Errored (ThrownError message)
               else UncaughtException message).
Proof.
  intros pathname Hc Hstack Hstat Hstops Hkind.
  assert (isResolvedPathname pathname = false) as Hresolved.
  { unfold isResolvedPathname, pathname.
    rewrite NAVIGATION_REGEXP_dot_separator by done. apply andb_false_r. }
  split; [done|].
  assert (∃ message, asAbsoluteFolder pathname = inl message) as [message Hfolder].
  { unfold asAbsoluteFolder, assumeResolvedAbsoluteFolderPathname.
    rewrite Hresolved, andb_false_r. cbn [andb]. by eexists. }
  exists message. split; [done|]. cbn [walk].
  destruct (overLimit w pathname) eqn:Hlimit.
  - rewrite (read_leaf fs w stack pathname fsStats) by done. by rewrite Hfolder.
  - unfold _read. rewrite Hstack, (folderWalker_NextItem_stops _ _ _ _ _ Hstat Hstops).
    unfold onNextItem, Stats_isFile, Stats_isDirectory. cbn. rewrite Hkind. cbn.
    rewrite Hlimit. unfold onReaddir. rewrite Hfolder.
    by destruct (readdir fs pathname).
Qed.

Lemma folder_with_a_dot_before_the_separator_stops_the_walk_witness :
  isResolvedPathname "/root/old./" = false
  ∧ ∃ message,
      asAbsoluteFolder "/root/old./" = inl message
      ∧ walk 1 dottedFs (walkerAt "/root/old./")
        = ([], if overLimit (walkerAt "/root/old./") "/root/old./"
               then Errored (ThrownError message)
               else UncaughtException message).
Proof.
  exact (folder_with_a_dot_before_the_separator_stops_the_walk dottedFs
           (walkerAt "/root/old./") [] "/root/old" slash EmptyString
           {| statsType := IsDirectory; mtime := 0 |} 0 eq_refl eq_refl eq_refl I eq_refl).
Defined.

Lemma same_name_same_entry (l : list Dirent) a b :
  NoDup (name <$> l) → a ∈ l → b ∈ l → name a = name b → a = b.
Proof.
  induction l as [|d l IH]; [by intros _ Ha; inversion Ha|].
  rewrite fmap_cons, NoDup_cons. intros [Hd Hl] Ha Hb Hname.
  apply elem_of_cons in Ha as [->|Ha], Hb as [->|Hb]; auto.
  - exfalso. apply Hd. rewrite Hname. by apply list_elem_of_fmap_2.
  - exfalso. apply Hd. rewrite <- Hname. by apply list_elem_of_fmap_2.
Qed.

(** X19. With the default comparator the order in which [readdir] lists
    the entries of a folder does not matter: two listings of the same
    entries are sorted into the same array, so the folder is walked in
    the same order. *)
Theorem default_order_ignores_the_listing_order (listing listing' : list Dirent) :
  wellFormedListing listing →
  listing ≡ₚ listing' →
  processFsDirents DEFAULT_FOLDER_WALKER_OPTIONS listing
  = processFsDirents DEFAULT_FOLDER_WALKER_OPTIONS listing'.
Proof.
  intros [Hdistinct Hnames] Hsame.
  unfold processFsDirents. cbn [DEFAULT_FOLDER_WALKER_OPTIONS arrayFilterFunction
                                  arraySortFunction].
  apply (StronglySorted_unique_strong (goesBefore sortFilesFirstThenAlphabetically)).
  - intros x1 x2 Hx1 Hx2.
    rewrite sort_Permutation in Hx1, Hx2. rewrite <- Hsame in Hx2.
    rewrite Forall_forall in Hnames.
    rewrite !sortFilesFirstThenAlphabetically_spec by auto.
    intros [Hlt|[Heq Hle]] [Hlt'|[Heq' Hle']]; try lia.
    apply (same_name_same_entry listing); try done.
    by apply (anti_symm String.le).
  - by apply default_sort_StronglySorted.
  - apply default_sort_StronglySorted. by rewrite <- Hsame.
  - by rewrite !sort_Permutation.
Qed.

Lemma default_order_ignores_the_listing_order_witness :
  processFsDirents DEFAULT_FOLDER_WALKER_OPTIONS mixedListing
  = processFsDirents DEFAULT_FOLDER_WALKER_OPTIONS (reverse mixedListing).
Proof.
  apply (default_order_ignores_the_listing_order mixedListing (reverse mixedListing)).
  - split; [apply (bool_decide_unpack _); vm_compute; exact I|].
    repeat constructor; discriminate.
  - apply Permutation_sym, reverse_Permutation.
Defined.

Lemma nextItemFromEnd_sound fs itemFilter fromEnd settled remaining :
  nextItemFromEnd fs itemFilter fromEnd = (settled, remaining) →
  (∃ popped, fromEnd = popped ++ remaining)
  ∧ match settled with
    | inr (Some item) => pathname item ∈ fromEnd ∧ stat fs (pathname item) = inr (fsStats item)
    | _ => True
    end.
Proof.
  revert settled remaining.
  induction fromEnd as [|p fromEnd IH]; intros settled remaining; cbn.
  { intros [= <- <-]. split; [by exists []|done]. }
  unfold fsStat. destruct (stat fs p) as [reason|stats] eqn:Hstat.
  { intros [= <- <-]. split; [by exists [p]|done]. }
  destruct (match itemFilter with Some f => negb (f p stats) | None => true end).
  - intros [= <- <-]. split; [by exists [p]|]. cbn. split; [by left|done].
  - intros Hrest. destruct (IH _ _ Hrest) as [[popped ->] Hitem].
    split; [by exists (p :: popped)|].
    destruct settled as [|[item|]]; try done.
    destruct Hitem as [Hin Hstats]. split; [by right|done].
Qed.

Lemma folderWalker_NextItem_sound fs stack itemFilter settled remaining :
  folderWalker_NextItem fs stack itemFilter = (settled, remaining) →
  (∃ popped, stack = remaining ++ popped)
  ∧ match settled with
    | inr (Some item) => pathname item ∈ stack ∧ stat fs (pathname item) = inr (fsStats item)
    | _ => True
    end.
Proof.
  unfold folderWalker_NextItem.
  destruct (nextItemFromEnd fs itemFilter (reverse stack)) as [settled' fromEnd] eqn:Hloop.
  intros [= <- <-].
  apply nextItemFromEnd_sound in Hloop as [[popped Hpopped] Hitem]. split.
  - exists (reverse popped).
    by rewrite <- (reverse_involutive stack), Hpopped, reverse_app.
  - destruct settled' as [|[item|]]; try done.
    destruct Hitem as [Hin Hstats]. split; [|done]. by apply elem_of_reverse.
Qed.

Lemma processFsDirents_subset o fsDirents d :
  d ∈ processFsDirents o fsDirents → d ∈ fsDirents.
Proof.
  unfold processFsDirents.
  assert (∀ l : list Dirent,
            d ∈ match arrayFilterFunction o with
                | Some predicate => filterArray predicate l
                | None => l
                end → d ∈ l) as Hfilter.
  { intros l. destruct (arrayFilterFunction o) as [predicate|]; [|done].
    unfold filterArray. rewrite list_elem_of_omap.
    intros ([i x] & Hin & Hkept). apply elem_of_lookup_imap in Hin as (j & y & [= -> ->] & Hy).
    destruct (predicate y j l); simplify_eq. by eapply list_elem_of_lookup_2. }
  destruct (arraySortFunction o) as [compare|]; [|apply Hfilter].
  rewrite sort_Permutation. apply Hfilter.
Qed.

Lemma segmentCount_countChars c s :
  segmentCount c s = (Z.of_nat (countChars (isChar c) s) + 1)%Z.
Proof. unfold segmentCount. rewrite split_length. lia. Qed.

Lemma asAbsoluteFolder_pathname pathname folder :
  asAbsoluteFolder pathname = inr folder →
  asPathname (FolderItem folder) = normalizePathname pathname.
Proof.
  unfold asAbsoluteFolder.
  destruct (assumeResolvedAbsoluteFolderPathname pathname); [done|]. by intros [= <-].
Qed.

Lemma asAbsoluteFile_segments pathname file :
  asAbsoluteFile pathname = inr file →
  countChars (isChar sep) (asPathname (FileItem file))
  = countChars (isChar sep) (normalizePathname pathname).
Proof.
  intros Hfile. apply asAbsoluteFile_cut in Hfile as (a & b & -> & Hb & ->).
  destruct (parseFullFileName b) as [fileName ext] eqn:Hparse.
  destruct (file_pathname_parts a b fileName ext Hb Hparse) as (Hback & _).
  cbn [fst snd]. change NORMAL_SEPARATOR with slash in *. cbv zeta in Hback.
  set (text := asPathname _) in *.
  destruct (endsWith (a ++ String slash b)%string dot); rewrite <- Hback; [|done].
  rewrite countChars_app. change (countChars (isChar sep) (String dot "")) with 0. lia.
Qed.

(** What is pushed for an entry of a folder within the limit. *)
Lemma pushed_child fs limit pathname fsDirents d child :
  namesAreNames fs → filesAreNotFolders fs →
  readdir fs pathname = inr fsDirents → d ∈ fsDirents →
  endsWith pathname sep = true → isAbsolute pathname = true →
  normalize pathname = pathname →
  countChars (isChar backslash) pathname = 0 →
  (segmentCount sep pathname ≤ limit)%Z →
  pushedPathname pathname d = Some child →
  withinLimit fs limit child.
Proof.
  intros Hnames Hfiles Hreaddir Hd Hends Habsolute Hsame Hclean Hcount.
  destruct (Hnames _ _ _ Hreaddir Hd) as [Hname Hbackslash].
  pose proof Hname as (Hempty & _ & _ & Hsep).
  pose proof (join_name pathname (name d) Habsolute Hsame Hname) as Hjoin.
  rewrite Hends in Hjoin.
  rewrite segmentCount_countChars in Hcount.
  destruct (direntType d) eqn:Hkind.
  - unfold pushedPathname, Dirent_isFile. rewrite Hkind. cbn. intros [= <-].
    split_and!.
    + rewrite Hjoin, segmentCount_countChars, countChars_app, Hsep. lia.
    + rewrite Hjoin, countChars_app, Hclean, Hbackslash. done.
    + intros fsStats Hstat Hfolder.
      by destruct (Hfiles _ _ _ _ Hreaddir Hd Hkind Hstat).
  - destruct (pushed_directory_segments pathname d Habsolute Hsame Hkind Hname)
      as [-> _].
    intros [= <-]. rewrite Hjoin, string_app_assoc.
    destruct (normalize_child pathname (name d) Habsolute Hsame Hends Hname)
      as [Hnormalized Hchild].
    split_and!.
    + rewrite segmentCount_countChars, !countChars_app, Hsep.
      change (countChars (isChar sep) "/") with 1. lia.
    + rewrite !countChars_app, Hclean, Hbackslash. done.
    + intros _ _ _. split_and!; [|done|done].
      unfold endsWith. rewrite <- string_app_assoc, lastChar_app by done. done.
  - unfold pushedPathname, Dirent_isFile, Dirent_isDirectory. by rewrite Hkind.
Qed.

(** The items pushed from an array of pathnames within the limit have
    pathnames within the limit. *)
Lemma walk_within_limit fs limit :
  namesAreNames fs → filesAreNotFolders fs →
  ∀ fuel w,
    absoluteLengthLimit w = Some limit →
    Forall (withinLimit fs limit) (absoluteResolvedPathnames w) →
    Forall (λ item, (segmentCount sep (asPathname item) ≤ limit + 1)%Z)
      (walk fuel fs w).1.
Proof.
  intros Hnames Hfiles.
  induction fuel as [|fuel IH]; intros w Hlimit Hstack; [constructor|].
  cbn [walk]. unfold _read.
  destruct (folderWalker_NextItem fs (absoluteResolvedPathnames w) (itemFilter (options w)))
    as [settled remaining] eqn:Hnext.
  apply folderWalker_NextItem_sound in Hnext as [[popped Hpopped] Hitem].
  assert (Forall (withinLimit fs limit) remaining) as Hremaining.
  { rewrite Hpopped in Hstack. by apply Forall_app in Hstack as [? _]. }
  destruct settled as [reason|[item|]]; [constructor| |constructor].
  destruct Hitem as [Hin Hstat].
  rewrite Forall_forall in Hstack.
  destruct (Hstack _ Hin) as (Hcount & Hclean & Hfolder).
  assert (∀ file, asAbsoluteFile (pathname item) = inr file →
                  (segmentCount sep (asPathname (FileItem file)) ≤ limit + 1)%Z)
    as Hfile_item.
  { intros file Hfile. rewrite segmentCount_countChars in Hcount |- *.
    rewrite (asAbsoluteFile_segments _ _ Hfile).
    by rewrite (normalizePathname_without_backslash _ Hclean). }
  assert (∀ folder, asAbsoluteFolder (pathname item) = inr folder →
                    (segmentCount sep (asPathname (FolderItem folder)) ≤ limit + 1)%Z)
    as Hfolder_item.
  { intros folder Hmade. rewrite (asAbsoluteFolder_pathname _ _ Hmade).
    by rewrite (normalizePathname_without_backslash _ Hclean). }
  assert (∀ stack' item',
            (segmentCount sep (asPathname item') ≤ limit + 1)%Z →
            Forall (withinLimit fs limit) stack' →
            Forall (λ item, (segmentCount sep (asPathname item) ≤ limit + 1)%Z)
              (let '(items, finish) := walk fuel fs (withPathnames w stack') in
               (item' :: items, finish)).1) as Hpushed.
  { intros stack' item' Hitem' Hstack'.
    specialize (IH (withPathnames w stack') Hlimit Hstack').
    destruct (walk fuel fs (withPathnames w stack')) as [items finish].
    by constructor. }
  unfold onNextItem.
  destruct (Stats_isFile (fsStats item)).
  { destruct (asAbsoluteFile (pathname item)) as [message|file] eqn:Hfile; [constructor|].
    apply Hpushed; [|done]. by apply Hfile_item. }
  destruct (Stats_isDirectory (fsStats item)) eqn:Hkind; [|constructor].
  apply bool_decide_eq_true in Hkind.
  destruct (Hfolder (fsStats item) Hstat Hkind) as (Hends & Habsolute & Hsame).
  destruct (overLimit w (pathname item)) eqn:Hover.
  { destruct (asAbsoluteFolder (pathname item)) as [message|folder] eqn:Hmade; [constructor|].
    apply Hpushed; [|done]. by apply Hfolder_item. }
  unfold onReaddir.
  destruct (readdir fs (pathname item)) as [reason|fsDirents] eqn:Hreaddir.
  { destruct (asAbsoluteFolder (pathname item)) as [message|folder] eqn:Hmade; [constructor|].
    cbn. constructor; [|constructor]. by apply Hfolder_item. }
  destruct (asAbsoluteFolder (pathname item)) as [message|folder] eqn:Hmade; [constructor|].
  apply Hpushed; [by apply Hfolder_item|].
  rewrite pushEntries_spec. apply Forall_app. split; [done|].
  apply Forall_forall. intros child Hchild.
  unfold pathnamesIn in Hchild. apply list_elem_of_omap in Hchild as (d & Hd & Hchild).
  apply processFsDirents_subset in Hd.
  apply (pushed_child fs limit (pathname item) fsDirents d child); try done.
  unfold overLimit in Hover. rewrite Hlimit in Hover. by apply Z.ltb_ge in Hover.
Qed.

(** X20. With a depth limit that is not negative, a folder whose
    pathname is absolute, left as it is by [path.normalize], without a
    backslash and ends with the separator, and a file system whose
    entries are named as a listing names them, without a backslash, and
    whose files are not folders, no item of
    the enumeration of the folder lies deeper than one level under the
    limit: the pathname that [asPathname] gives of each item has at most
    [depthLimit + 1] segments more than the pathname of the folder. *)
Theorem depth_limit_bounds_the_items fs absoluteFolder limit fuel :
  (0 ≤ limit)%Z →
  isAbsolute (folderPathname absoluteFolder) = true →
  normalize (folderPathname absoluteFolder) = folderPathname absoluteFolder →
  endsWith (folderPathname absoluteFolder) sep = true →
  countChars (isChar backslash) (folderPathname absoluteFolder) = 0 →
  namesAreNames fs → filesAreNotFolders fs →
  match enumerate fuel fs absoluteFolder (Some (depthLimitOptions limit)) with
  | inr (items, _) =>
      Forall (λ item,
                (segmentCount sep (asPathname item)
                 ≤ segmentCount sep (folderPathname absoluteFolder) + limit + 1)%Z) items
  | inl _ => True
  end.
Proof.
  intros Hlimit Habsolute Hsame Hends Hclean Hnames Hfiles.
  unfold enumerate, walkFolder, newFolderWalker.
  destruct (doesFolderExistSync fs absoluteFolder) as [thrown|[found|]]; [done| |].
  - match goal with
    | |- context [walk fuel fs ?walker] => set (w := walker)
    end.
    pose proof (walk_within_limit fs
                  (segmentCount sep (folderPathname absoluteFolder) + limit)
                  Hnames Hfiles fuel w) as Hwalk.
    destruct (walk fuel fs w) as [items finish]. apply Hwalk.
    + unfold w. cbn.
      destruct (-1 <? limit)%Z eqn:Hpositive; [done|]. apply Z.ltb_ge in Hpositive. lia.
    + unfold w. cbn. constructor; [|constructor]. split_and!; [lia|done|done].
  - destruct fuel; cbn; constructor.
Qed.

Lemma sampleFs_namesAreNames : namesAreNames (sampleFs [{| name := "c.js"; direntType := IsFile |}]).
Proof.
  intros p fsDirents d Hreaddir Hd. cbn in Hreaddir.
  destruct (String.eqb p "/root/"); [|destruct (String.eqb p "/root/b/")]; simplify_eq;
    repeat (apply elem_of_cons in Hd as [->|Hd]); try (by inversion Hd);
    by repeat split.
Defined.

Lemma sampleFs_filesAreNotFolders :
  filesAreNotFolders (sampleFs [{| name := "c.js"; direntType := IsFile |}]).
Proof.
  intros p fsDirents d fsStats Hreaddir Hd Hkind. cbn in Hreaddir.
  destruct (String.eqb p "/root/") eqn:Hroot;
    [apply String.eqb_eq in Hroot as ->
    |destruct (String.eqb p "/root/b/") eqn:Hb; [apply String.eqb_eq in Hb as ->|]];
    simplify_eq;
    repeat (apply elem_of_cons in Hd as [->|Hd]); try (by inversion Hd); try done;
    vm_compute; intros [= <-]; done.
Defined.

Lemma depth_limit_bounds_the_items_witness :
  match enumerate 5 (sampleFs [{| name := "c.js"; direntType := IsFile |}]) sampleRoot
          (Some (depthLimitOptions 0)) with
  | inr (items, _) =>
      Forall (λ item,
                (segmentCount sep (asPathname item)
                 ≤ segmentCount sep (folderPathname sampleRoot) + 0 + 1)%Z) items
  | inl _ => True
  end.
Proof.
  apply (depth_limit_bounds_the_items
           (sampleFs [{| name := "c.js"; direntType := IsFile |}]) sampleRoot 0 5).
  - lia.
  - reflexivity.
  - reflexivity.
  - reflexivity.
  - reflexivity.
  - apply sampleFs_namesAreNames.
  - apply sampleFs_filesAreNotFolders.
Defined.
End WalkerBehaviour.

(** ** The tests of a file *)

Section TestFolderBehaviour.
Import TestCallEngine Vocabulary RunVocabulary PathItems TestFolder.

(** X21. A record is reported exactly when the statistics count it as
    failed: [reportTestCallExecution] writes something, or stops on an
    exception of [pprint], for the records that [addTestExecution]
    counts in [ko], and it writes nothing for the others. *)
Theorem reported_iff_counted_as_failed e stats :
  match reportTestCallExecution e with
  | Normal None => ko (addTestExecution e stats) = ko stats
  | Normal (Some _) | Throw _ => ko (addTestExecution e stats) = (ko stats + 1)%Z
  end.
Proof.
  unfold reportTestCallExecution, addTestExecution.
  destruct e as [tc status p o ex err]; cbn.
  destruct status, p; cbn; repeat case_match; done.
Qed.

Lemma reset_fresh s : running s = false → reset s = Normal makeTestCallSupervisor.
Proof. unfold reset. by intros ->. Qed.

Lemma no_test_no_statistics l :
  (total (makeTestExecutionStatistics l) ≤ 0)%Z →
  makeTestExecutionStatistics l = newTestExecutionStatistics.
Proof.
  unfold makeTestExecutionStatistics.
  destruct (fold_addTestExecution_counts l newTestExecutionStatistics) as (_ & _ & _ & ->).
  destruct l; [done|]. cbn. lia.
Qed.

Lemma addTestExecutionStatistics_new stats :
  addTestExecutionStatistics stats newTestExecutionStatistics = stats.
Proof.
  apply TestExecutionStatistics_eq; cbn; lia.
Qed.

(** X22. The tests of a file are run in isolation: whatever the
    supervisor held before, provided it is not running, the function
    made by [makeImportAndRunTestCalls] leaves in it the records of a
    run of the tests that the file registers, alone, and it has added
    their statistics to the global ones, also when the report of a
    record then fails.  When the import fails, the promise is rejected,
    the global statistics are as before, and the supervisor holds the
    tests that the file registered before it failed, alone, none of
    them run. *)
Theorem a_file_is_run_in_isolation s absoluteFile imported options global :
  running s = false →
  let fileRun := makeImportAndRunTestCalls s absoluteFile imported options global in
  match imported with
  | Registers statements =>
      ∃ result log,
        run options (importTestFile statements makeTestCallSupervisor)
        = (Resolved result log, supervisorAfter fileRun)
        ∧ testCallExecutions (supervisorAfter fileRun) = result
        ∧ globalAfter fileRun
          = addTestExecutionStatistics global (makeTestExecutionStatistics result)
        ∧ (settled fileRun = Some (Normal tt)
           ∨ ∃ e thrown,
               e ∈ result ∧ reportTestCallExecution e = Throw thrown
               ∧ settled fileRun
                 = Some (Throw (failedToImport absoluteFile
                                  (failedToRun absoluteFile thrown))))
  | ImportFails statements reason =>
      settled fileRun = Some (Throw (failedToImport absoluteFile reason))
      ∧ globalAfter fileRun = global
      ∧ supervisorAfter fileRun = importTestFile statements makeTestCallSupervisor
  end.
Proof.
  intros Hrunning. cbn zeta. unfold makeImportAndRunTestCalls.
  rewrite (reset_fresh s Hrunning).
  destruct imported as [statements|statements reason]; [|done].
  destruct (importTestFile_fresh statements makeTestCallSupervisor) as [Hfresh _].
  destruct (run_steps options (importTestFile statements makeTestCallSupervisor) Hfresh)
    as (st & -> & _).
  destruct (0 <? total (makeTestExecutionStatistics (executions st)))%Z eqn:Hsome.
  - assert (∀ l, match reportAll l with
                 | (_, None) => True
                 | (_, Some thrown) => ∃ e, e ∈ l ∧ reportTestCallExecution e = Throw thrown
                 end) as Hreports.
    { induction l as [|e l IH]; [done|]. cbn.
      destruct (reportTestCallExecution e) as [report|thrown] eqn:Hreport.
      - destruct (reportAll l) as [reports [thrown|]]; [|done].
        destruct IH as (e' & He' & Hthrown). exists e'. split; [by right|done].
      - exists e. split; [by left|done]. }
    specialize (Hreports (executions st)).
    destruct (reportAll (executions st)) as [reports [thrown|]].
    + destruct Hreports as (e & He & Hthrown).
      eexists _, _. split_and!; try done. right. by exists e, thrown.
    + eexists _, _. split_and!; try done. by left.
  - apply Z.ltb_ge in Hsome.
    eexists _, _. split_and!; try done; [|by left]. cbn.
    by rewrite no_test_no_statistics, addTestExecutionStatistics_new.
Qed.

Lemma a_file_is_run_in_isolation_witness :
  let s := (run Samples.notSkipping (Samples.registered Samples.timeoutInTheMiddle)).2 in
  let absoluteFile :=
    {| fileFolderPathname := "/root/b/"; fileName := "c"; extension := "js" |} in
  let fileRun :=
    makeImportAndRunTestCalls s absoluteFile (Registers Samples.timeboxedThenSlow)
      Samples.skipping newTestExecutionStatistics in
  let failedRun :=
    makeImportAndRunTestCalls s absoluteFile
      (ImportFails Samples.timeboxedThenSlow (JsString "stop"))
      Samples.skipping newTestExecutionStatistics in
  (∃ result log,
     run Samples.skipping (importTestFile Samples.timeboxedThenSlow makeTestCallSupervisor)
     = (Resolved result log, supervisorAfter fileRun)
     ∧ testCallExecutions (supervisorAfter fileRun) = result
     ∧ globalAfter fileRun
       = addTestExecutionStatistics newTestExecutionStatistics
           (makeTestExecutionStatistics result)
     ∧ (settled fileRun = Some (Normal tt)
        ∨ ∃ e thrown,
            e ∈ result ∧ reportTestCallExecution e = Throw thrown
            ∧ settled fileRun
              = Some (Throw (failedToImport absoluteFile
                               (failedToRun absoluteFile thrown)))))
  ∧ (settled failedRun = Some (Throw (failedToImport absoluteFile (JsString "stop")))
     ∧ globalAfter failedRun = newTestExecutionStatistics
     ∧ supervisorAfter failedRun
       = importTestFile Samples.timeboxedThenSlow makeTestCallSupervisor).
Proof.
  exact (conj
           (a_file_is_run_in_isolation
              (run Samples.notSkipping (Samples.registered Samples.timeoutInTheMiddle)).2
              {| fileFolderPathname := "/root/b/"; fileName := "c"; extension := "js" |}
              (Registers Samples.timeboxedThenSlow) Samples.skipping
              newTestExecutionStatistics eq_refl)
           (a_file_is_run_in_isolation
              (run Samples.notSkipping (Samples.registered Samples.timeoutInTheMiddle)).2
              {| fileFolderPathname := "/root/b/"; fileName := "c"; extension := "js" |}
              (ImportFails Samples.timeboxedThenSlow (JsString "stop")) Samples.skipping
              newTestExecutionStatistics eq_refl)).
Defined.

End TestFolderBehaviour.

(** ** Registration, and names among pathnames *)

Section Registration.
Import TestCallEngine Vocabulary RunVocabulary.

Lemma register_recordOf r s :
  testCallExecutions (register r s) = testCallExecutions s ++ option_list (recordOf r).
Proof.
  unfold register, recordOf, call, stopPast, makeTestCallSpecifier, equals, throws.
  destruct (regTimeout r), (regExpectation r); cbn; by rewrite ?app_nil_r.
Qed.

(** X23. The statements of a test file register their tests in the
    order of the file, after the records that the supervisor already
    holds, which are left as they are: one record for each statement
    that ends with [equals] or [throws], with the function, the values
    and the timeout of the statement (none for a plain call) and the
    expectation given; whether the supervisor runs is not changed. *)
Theorem registration_keeps_the_order statements s :
  importTestFile statements s
  = {| running := running s;
       testCallExecutions := testCallExecutions s ++ omap recordOf statements |}.
Proof.
  revert s. induction statements as [|r statements IH]; intros s.
  { cbn. rewrite app_nil_r. by destruct s. }
  change (importTestFile (r :: statements) s)
    with (importTestFile statements (register r s)).
  rewrite IH, register_running, register_recordOf, <- app_assoc. do 2 f_equal.
  change (omap recordOf (r :: statements))
    with (match recordOf r with
          | Some e => e :: omap recordOf statements
          | None => omap recordOf statements
          end).
  by destruct (recordOf r).
Qed.

End Registration.

Section Names.
Import JsString Pathname.

Lemma search_bounds inClass s :
  (-1 ≤ search inClass s < Z.of_nat (String.length s))%Z.
Proof.
  induction s as [|c s IH]; [done|]. cbn [search String.length].
  destruct (inClass c); [lia|].
  destruct (search inClass s =? -1)%Z eqn:Hlater; [lia|].
  apply Z.eqb_neq in Hlater. lia.
Qed.

Lemma search_none inClass s : search inClass s = (-1)%Z ↔ countChars inClass s = 0.
Proof.
  induction s as [|c s IH]; [done|]. cbn [search countChars].
  pose proof (search_bounds inClass s) as Hbounds.
  destruct (inClass c); [done|].
  destruct (search inClass s =? -1)%Z eqn:Hlater.
  - apply Z.eqb_eq in Hlater. rewrite <- IH. done.
  - apply Z.eqb_neq in Hlater. split; [lia|]. intros Hnone. exfalso. apply Hlater, IH. lia.
Qed.

Lemma search_last inClass s :
  s ≠ EmptyString →
  search inClass s = (Z.of_nat (String.length s) - 1)%Z →
  ∃ c, lastChar s = Some c ∧ inClass c = true.
Proof.
  induction s as [|c s IH]; [done|]. intros _. cbn [search String.length].
  destruct (inClass c) eqn:Hc.
  - intros Hlength. destruct s as [|d s]; [|cbn in Hlength; lia]. by exists c.
  - destruct (search inClass s =? -1)%Z eqn:Hlater; [lia|].
    apply Z.eqb_neq in Hlater. intros Hlength.
    destruct s as [|d s]; [done|].
    destruct IH as (e & Hlast & He); [done|lia|]. by exists e.
Qed.

Lemma NAVIGATION_REGEXP_without_separator s :
  countChars SEPARATOR_REGEXP s = 0 → NAVIGATION_REGEXP s = false.
Proof.
  induction s as [|c s IH]; [done|]. destruct s as [|d s]; [done|].
  change (NAVIGATION_REGEXP (String c (String d s)))
    with ((Ascii.eqb c dot && SEPARATOR_REGEXP d) || NAVIGATION_REGEXP (String d s)).
  cbn [countChars] in *.
  destruct (SEPARATOR_REGEXP c); [done|].
  destruct (SEPARATOR_REGEXP d); [done|].
  intros Hnone. rewrite IH by done. by rewrite andb_false_r.
Qed.

(** X24. A name is a pathname of its kind: what [isFullFileName]
    accepts is a relative, resolved file pathname, and what
    [isFolderName] accepts is a relative folder pathname whose only
    separator is its last character. *)
Theorem names_are_relative_pathnames s :
  (isFullFileName s = true →
   isFolderPathname s = false ∧ isAbsolutePathname s = false
   ∧ isResolvedPathname s = true)
  ∧ (isFolderName s = true →
     isFolderPathname s = true ∧ isAbsolutePathname s = false
     ∧ countChars SEPARATOR_REGEXP s = 1).
Proof.
  split.
  - unfold isFullFileName. intros Hname.
    apply andb_prop in Hname as [Hname Hsearch].
    apply andb_prop in Hname as [Hname Hparent].
    apply andb_prop in Hname as [Hempty Hcurrent].
    apply negb_true_iff in Hempty, Hcurrent, Hparent.
    apply Z.eqb_eq, search_none in Hsearch.
    split_and!.
    + unfold isFolderPathname. rewrite Hempty, Hcurrent, Hparent. cbn [orb].
      destruct (lastChar s) as [c|] eqn:Hlast; [|done].
      destruct (Ascii.eqb c backslash || Ascii.eqb c slash) eqn:Hc; [|done].
      assert (endsWith s c = true) as Hends.
      { unfold endsWith. rewrite Hlast. apply Ascii.eqb_refl. }
      apply endsWith_countChars in Hends.
      assert (countChars (isChar c) s ≤ countChars SEPARATOR_REGEXP s); [|lia].
      clear -Hc. induction s as [|d s IH]; [done|]. cbn [countChars].
      unfold isChar at 1, SEPARATOR_REGEXP at 1.
      destruct (Ascii.eqb d c) eqn:Hd; [|lia].
      apply Ascii.eqb_eq in Hd as ->. rewrite orb_comm, Hc. lia.
    + unfold isAbsolutePathname, isAbsolute. destruct s as [|c s]; [done|].
      cbn [countChars] in Hsearch. unfold SEPARATOR_REGEXP in Hsearch at 1.
      destruct (Ascii.eqb c slash); [done|done].
    + unfold isResolvedPathname. rewrite Hcurrent, Hparent. cbn [negb andb].
      by rewrite NAVIGATION_REGEXP_without_separator.
  - unfold isFolderName. intros Hname.
    apply andb_prop in Hname as [Hname Hparent].
    apply andb_prop in Hname as [Hname Hcurrent].
    apply andb_prop in Hname as [Hname Hroot].
    apply andb_prop in Hname as [Hempty Hsearch].
    apply negb_true_iff in Hempty, Hroot. apply String.eqb_neq in Hempty.
    apply Z.eqb_eq in Hsearch.
    destruct (search_last SEPARATOR_REGEXP s Hempty Hsearch) as (c & Hlast & Hc).
    assert (countChars SEPARATOR_REGEXP s = 1) as Hone.
    { clear -Hsearch Hempty. revert Hsearch.
      induction s as [|d s IH]; [done|]. cbn [search String.length countChars].
      destruct (SEPARATOR_REGEXP d) eqn:Hd.
      - intros Hlength. destruct s as [|e s]; [done|cbn in Hlength; lia].
      - destruct (search SEPARATOR_REGEXP s =? -1)%Z eqn:Hlater; [lia|].
        apply Z.eqb_neq in Hlater. intros Hlength.
        destruct s as [|e s]; [done|]. rewrite IH; [done|done|lia]. }
    split_and!; [| |done].
    + unfold isFolderPathname. rewrite Hlast.
      unfold SEPARATOR_REGEXP in Hc. rewrite orb_comm in Hc. rewrite Hc.
      by case_match.
    + unfold isAbsolutePathname. destruct (isAbsolute s) eqn:Habsolute; [|done].
      unfold isRootPath in Hroot. rewrite Habsolute, Hone in Hroot. done.
Qed.

End Names.

(** ** The root path, and the walk of a folder *)

Section RootPath.
Import JsString Pathname PathnameLoops.

Lemma countSeparators_spec s : ∀ count,
  countSeparators s count = Nat.min 2 (count + countChars SEPARATOR_REGEXP s)
  ∨ (2 ≤ count ∧ countSeparators s count = count).
Proof.
  induction s as [|c s IH]; intros count; cbn [countSeparators countChars].
  { destruct (decide (count < 2)); [left|right]; lia. }
  destruct (count <? 2) eqn:Hcount.
  - apply Nat.ltb_lt in Hcount.
    destruct (IH (if SEPARATOR_REGEXP c then S count else count)) as [->|[Hmany ->]];
      destruct (SEPARATOR_REGEXP c); left; lia.
  - apply Nat.ltb_ge in Hcount. by right.
Qed.

(** X25. The loop of [isRootPath] stops at the second separator, and
    what it returns makes [isRootPath] true exactly of the absolute
    pathnames with one separator: with the separator of POSIX, a slash
    followed by characters that are not separators. *)
Theorem isRootPath_one_separator pathname :
  isRootPathByLoop pathname = isRootPath pathname
  ∧ (isRootPathByLoop pathname = true
     ↔ ∃ others, pathname = String slash others
                 ∧ countChars SEPARATOR_REGEXP others = 0).
Proof.
  assert (isRootPathByLoop pathname = isRootPath pathname) as Hloop.
  { unfold isRootPathByLoop, isRootPath. destruct (isAbsolute pathname); [|done].
    destruct (countSeparators_spec pathname 0) as [->|[? _]]; [done|lia]. }
  split; [done|]. rewrite Hloop. unfold isRootPath, isAbsolute.
  destruct pathname as [|c others].
  { split; [done|]. by intros (others & ? & _). }
  destruct (Ascii.eqb c slash) eqn:Hc.
  - apply Ascii.eqb_eq in Hc as ->. rewrite bool_decide_eq_true.
    cbn [countChars]. change (SEPARATOR_REGEXP slash) with true. cbn match.
    split.
    + intros Hone. exists others. split; [done|]. lia.
    + intros (others' & [= <-] & ->). done.
  - split; [done|]. intros (others' & [= -> _] & _).
    by rewrite Ascii.eqb_refl in Hc.
Qed.

End RootPath.

Section WalkOfAFolder.
Import JsString Pathname PathItems WalkFolder WalkVocabulary.



End WalkOfAFolder.
